(** * Co-ATC: a shallow embedding of the real-time fusion pipeline

    The development follows the Go packages of the repository:

    - [Adsb]          geo/math kernel, sensor validation, flying
                      classification, position prediction, change detector
    - [Audio]         the multi-reader fan-out buffer and the streaming WAV
                      header
    - [Weather]       the weather client's retry loop
    - [Transcription] the post-processor's batch step over the transcription
                      store

    Conventions.  A Go [float64] is a primitive binary64 float ([float]); the
    comparisons are the IEEE ones ([=?], [<?], [<=?] of [PrimFloat]), so NaN
    and signed zeros behave as in the program.  The functions of package
    [math] that have no primitive counterpart ([Sin], [Cos], [Atan2], [Pow])
    are section variables: every statement holds for any implementation of
    them.  Every arithmetic operation rounds on its own, as on amd64 (the
    language lets other targets fuse [x*y + z]).  A Go [int] is a 64-bit
    two's complement integer, written as [Z]
    with the wrap-around spelled out where an operation can overflow.  Maps
    are [gmap]s; slices are lists. *)

From Stdlib Require Import ZArith List Bool Ascii String DecimalString Floats Lia.
From Stdlib.Strings Require Import Byte.
From stdpp Require Import gmap strings list fin_maps.

Set Warnings "-inexact-float".

(** ** Go integers *)

Module GoInt.

Definition wrap64 (x : Z) : Z := ((x + 2 ^ 63) mod 2 ^ 64 - 2 ^ 63)%Z.
Definition uint64 (x : Z) : Z := (x mod 2 ^ 64)%Z.
Definition uint32 (x : Z) : Z := (x mod 2 ^ 32)%Z.
Definition uint16 (x : Z) : Z := (x mod 2 ^ 16)%Z.

Definition mul64 (x y : Z) : Z := wrap64 (x * y).
Definition add64 (x y : Z) : Z := wrap64 (x + y).

(** [x << s] on an [int64] with an unsigned shift count: bits shifted past
    bit 63 are lost, a count of 64 or more gives 0. *)
Definition shl64 (x s : Z) : Z := wrap64 (Z.shiftl x s).

Lemma wrap64_small x : (- 2 ^ 63 <= x < 2 ^ 63)%Z -> wrap64 x = x.
Proof.
  intros Hx. unfold wrap64.
  rewrite Z.mod_small by lia. lia.
Qed.

End GoInt.

(** ** Go floats *)

Module GoFloat.

Local Open Scope float_scope.

Lemma SFcompare_Eq_sym x y : SFcompare x y = Some Eq -> SFcompare y x = Some Eq.
Proof.
  destruct x as [sx | sx | | sx mx ex], y as [sy | sy | | sy my ey];
    simpl; try discriminate; try reflexivity.
  - destruct sy; discriminate.
  - destruct sy; discriminate.
  - destruct sx; discriminate.
  - destruct sx, sy; (reflexivity || discriminate).
  - destruct sx; discriminate.
  - destruct sx; discriminate.
  - destruct sy; discriminate.
  - assert (Hcont : forall a b, PosDef.Pos.compare_cont Eq a b = Eq -> a = b)
      by (intros a b; apply Pos.compare_eq).
    destruct sx, sy; try discriminate;
      destruct (Z.compare_spec ex ey) as [-> | |]; try discriminate;
      rewrite Z.compare_refl; intros H.
    + destruct (PosDef.Pos.compare_cont Eq mx my) eqn:Hm; try discriminate.
      apply Hcont in Hm as ->.
      change (PosDef.Pos.compare_cont Eq my my) with (Pos.compare my my).
      by rewrite Pos.compare_refl.
    + injection H as H. apply Hcont in H as ->.
      change (PosDef.Pos.compare_cont Eq my my) with (Pos.compare my my).
      by rewrite Pos.compare_refl.
Qed.

(** Go's [a == b] implies [b <= a] (and so [a >= b]): neither is NaN. *)
Lemma eqb_leb_sym (a b : float) : (a =? b) = true -> (b <=? a) = true.
Proof.
  rewrite FloatAxioms.eqb_spec, FloatAxioms.leb_spec. unfold SFeqb, SFleb.
  destruct (SFcompare (Prim2SF a) (Prim2SF b)) as [[| |] |] eqn:Hc;
    try discriminate.
  intros _. by rewrite (SFcompare_Eq_sym _ _ Hc).
Qed.

(** A float that is not NaN compares equal to itself. *)
Lemma eqb_refl_not_nan (a : float) : is_nan a = false -> (a =? a) = true.
Proof. unfold is_nan. by destruct (a =? a). Qed.

End GoFloat.

(** ** Package adsb: geo kernel, sensor validation, prediction *)

Module Adsb.

Local Open Scope float_scope.

(** The fields of [config.FlightPhasesConfig] that the functions below read. *)
Record FlightPhasesConfig := {
  FlyingMinTASKts : float;
  FlyingMinAltFt : float;
  HelicopterAltMultiplier : float;
  HighAltitudeOverrideFt : float;
  HighSpeedThresholdKts : float;
  ImpossibleAltDropThresholdFt : float;
  ImpossibleSpeedDropThresholdKts : float;
  ImpossibleSpeedDropMinAltFt : float
}.

(** [Position], as [PredictFuturePositions] fills it.  [Timestamp] is in
    nanoseconds. *)
Record Position := {
  Lat : float;
  Lon : float;
  Altitude : float;
  SpeedTrue : float;
  SpeedGS : float;
  TrueHeading : float;
  MagHeading : float;
  Timestamp : Z
}.

(** The process-wide [Config] of the prediction functions. *)
Record Config := {
  StationLatitude : float;
  StationLongitude : float
}.

Definition METERS_PER_NM : float := 1852.0.
Definition SPEED_ADJUST_RANGE_NM : float := 10.0.
Definition SPEED_ADJUST_PERCENT : float := 0.25.

(** [math.Pi] rounded to [float64], as it is wherever it meets a variable. *)
Definition Pi : float := 3.14159265358979323846264338327950288419716939937510582097494459.

(** [math.Pi / 180.0] is a constant expression: it is evaluated exactly and
    rounded once. *)
Definition rad : float := 0.017453292519943295769236907684886127134428718885417.

Definition Minute : Z := 60000000000.

(** [float64(i)] for a small non-negative [int]. *)
Definition float64_of_int (i : Z) : float := PrimFloat.of_uint63 (Uint63.of_Z i).

(** [int64(f)]: truncation toward zero.  The result for NaN, infinities and
    values out of range is implementation-specific in Go; it is given here
    as on amd64. *)
Definition int64_of_float (f : float) : Z :=
  match Prim2SF f with
  | S754_zero _ => 0%Z
  | S754_finite s m e =>
      let v := if (0 <=? e)%Z then (Z.pos m * 2 ^ e)%Z
               else (Z.pos m / 2 ^ (- e))%Z in
      let v := if s then (- v)%Z else v in
      if ((- 2 ^ 63 <=? v) && (v <? 2 ^ 63))%Z then v else (- 2 ^ 63)%Z
  | _ => (- 2 ^ 63)%Z
  end.

Section Kernel.

Variables (Sin Cos : float -> float) (Atan2 Pow : float -> float -> float).

Definition Haversine (lat1 lon1 lat2 lon2 : float) : float :=
  let R := 6371000 in
  let lat1Rad := lat1 * rad in
  let lon1Rad := lon1 * rad in
  let lat2Rad := lat2 * rad in
  let lon2Rad := lon2 * rad in
  let dlon := lon2Rad - lon1Rad in
  let dlat := lat2Rad - lat1Rad in
  let a := Pow (Sin (dlat / 2)) 2
           + Cos lat1Rad * Cos lat2Rad * Pow (Sin (dlon / 2)) 2 in
  let c := 2 * Atan2 (sqrt a) (sqrt (1 - a)) in
  R * c.

Definition MetersToNM (meters : float) : float := meters / METERS_PER_NM.

Definition Bearing (lat1 lon1 lat2 lon2 : float) : float :=
  let lat1 := lat1 * Pi / 180.0 in
  let lon1 := lon1 * Pi / 180.0 in
  let lat2 := lat2 * Pi / 180.0 in
  let lon2 := lon2 * Pi / 180.0 in
  let y := Sin (lon2 - lon1) * Cos lat2 in
  let x := Cos lat1 * Sin lat2 - Sin lat1 * Cos lat2 * Cos (lon2 - lon1) in
  let bearing := Atan2 y x * 180.0 / Pi in
  if bearing <? 0 then bearing + 360.0 else bearing.

(** [ValidateSensorData]: the result is [(correctedTAS, correctedGS,
    correctedAlt)]. *)
Definition ValidateSensorData
    (currentTAS currentGS currentAlt prevTAS prevGS prevAlt
     aircraftLat aircraftLon stationLat stationLon airportRangeNM : float)
    (config : FlightPhasesConfig) : float * float * float :=
  let correctedTAS := currentTAS in
  let correctedGS := currentGS in
  let correctedAlt := currentAlt in
  let distanceToAirportNM :=
    MetersToNM (Haversine aircraftLat aircraftLon stationLat stationLon) in
  let correctedAlt :=
    if (currentAlt =? 0) && (config.(ImpossibleAltDropThresholdFt) <? prevAlt)
    then prevAlt
    else if (currentAlt =? 0) && (5000 <? prevAlt)
            && (airportRangeNM <? distanceToAirportNM)
    then prevAlt
    else if (currentAlt =? 0) && (1000 <? prevAlt)
            && (airportRangeNM <? distanceToAirportNM)
    then prevAlt
    else correctedAlt in
  let correctedTAS :=
    if (currentTAS =? 0) && (config.(ImpossibleSpeedDropThresholdKts) <? prevTAS)
       && (config.(ImpossibleSpeedDropMinAltFt) <? prevAlt)
    then prevTAS
    else if (currentTAS =? 0) && (42 <? prevTAS)
            && (airportRangeNM <? distanceToAirportNM)
    then prevTAS
    else correctedTAS in
  let correctedGS :=
    if (currentGS =? 0) && (config.(ImpossibleSpeedDropThresholdKts) <? prevGS)
       && (config.(ImpossibleSpeedDropMinAltFt) <? prevAlt)
    then prevGS
    else if (currentGS =? 0) && (42 <? prevGS)
            && (airportRangeNM <? distanceToAirportNM)
    then prevGS
    else correctedGS in
  if (currentAlt =? 0) && (currentTAS =? 0) && (currentGS =? 0)
     && (1000 <? prevAlt) && ((50 <? prevTAS) || (50 <? prevGS))
  then (prevTAS, prevGS, prevAlt)
  else (correctedTAS, correctedGS, correctedAlt).

(** The speed [IsFlying] works with: TAS, or GS when TAS is 0. *)
Definition effectiveSpeed (tas gs : float) : float :=
  let speed := tas in
  if speed =? 0 then gs else speed.

Definition IsFlying (tas gs altitude : float) (config : FlightPhasesConfig) : bool :=
  let speed := effectiveSpeed tas gs in
  if config.(HighAltitudeOverrideFt) <=? altitude then true
  else if (config.(FlyingMinTASKts) <=? speed)
          && (config.(FlyingMinAltFt) <=? altitude) then true
  else if (config.(FlyingMinAltFt) * config.(HelicopterAltMultiplier) <=? altitude)
          && (config.(FlyingMinTASKts) / 2 <? speed) then true
  else if config.(HighSpeedThresholdKts) <=? speed then true
  else false.

(** [GetStationCoordinates] reads the package-level [configInstance], a
    pointer that may be nil. *)
Definition GetStationCoordinates (configInstance : option Config) : float * float :=
  match configInstance with
  | Some cfg =>
      if negb (cfg.(StationLatitude) =? 0) && negb (cfg.(StationLongitude) =? 0)
      then (cfg.(StationLatitude), cfg.(StationLongitude))
      else (43.6777, -79.6248)
  | None => (43.6777, -79.6248)
  end.

Definition zeroPosition : Position :=
  {| Lat := 0; Lon := 0; Altitude := 0; SpeedTrue := 0; SpeedGS := 0;
     TrueHeading := 0; MagHeading := 0; Timestamp := 0 |}.

Section Predict.

Variables (configInstance : option Config) (now : Z).
Variables (lat lon altBaro trueHeading magHeading speedKnots verticalRateFtMin : float).

Definition headingRad : float := trueHeading * Pi / 180.0.
Definition speedKmPerMin : float := speedKnots * 1.852 / 60.
Definition latKmPerDegree : float := 111.0.
Definition lonKmPerDegree : float := 111.0 * Cos (lat * Pi / 180.0).

Definition bearingToStation : float :=
  let '(stationLat, stationLon) := GetStationCoordinates configInstance in
  Bearing lat lon stationLat stationLon.

Definition headingDiff : float :=
  let headingDiff := abs (trueHeading - bearingToStation) in
  if 180 <? headingDiff then 360 - headingDiff else headingDiff.

Definition approachingStation : bool := headingDiff <? 90.

(** Position reached after [minutesAhead] minutes on the constant heading. *)
Definition newLat (minutesAhead : float) : float :=
  let adjustedSpeedKmPerMin := speedKmPerMin in
  lat + (adjustedSpeedKmPerMin * minutesAhead * Cos headingRad) / latKmPerDegree.

Definition newLon (minutesAhead : float) : float :=
  let adjustedSpeedKmPerMin := speedKmPerMin in
  lon + (adjustedSpeedKmPerMin * minutesAhead * Sin headingRad) / lonKmPerDegree.

Definition predictedDistanceToStationNM (minutesAhead : float) : float :=
  let '(stationLat, stationLon) := GetStationCoordinates configInstance in
  Haversine (newLat minutesAhead) (newLon minutesAhead) stationLat stationLon
  / METERS_PER_NM.

Definition adjustmentFactor (minutesAhead : float) : float :=
  (SPEED_ADJUST_RANGE_NM - predictedDistanceToStationNM minutesAhead)
  / SPEED_ADJUST_RANGE_NM.

Definition adjustedSpeed (minutesAhead : float) : float :=
  if predictedDistanceToStationNM minutesAhead <? SPEED_ADJUST_RANGE_NM then
    if approachingStation
    then speedKnots * (1.0 - SPEED_ADJUST_PERCENT * adjustmentFactor minutesAhead)
    else speedKnots * (1.0 + SPEED_ADJUST_PERCENT * adjustmentFactor minutesAhead)
  else speedKnots.

Definition newAltitude (minutesAhead : float) : float :=
  let newAltitude := altBaro + verticalRateFtMin * minutesAhead in
  if approachingStation && (newAltitude <? 0) then
    if newAltitude <? -100 then -100 else newAltitude
  else newAltitude.

(** The body of the loop for index [i]. *)
Definition prediction (i : Z) : Position :=
  let minutesAhead := float64_of_int (i + 1) in
  let timestamp := (now + GoInt.mul64 (int64_of_float minutesAhead) Minute)%Z in
  {| Lat := newLat minutesAhead;
     Lon := newLon minutesAhead;
     Altitude := newAltitude minutesAhead;
     SpeedTrue := adjustedSpeed minutesAhead;
     SpeedGS := adjustedSpeed minutesAhead;
     TrueHeading := trueHeading;
     MagHeading := magHeading;
     Timestamp := timestamp |}.

(** [predictions := make([]Position, 5)], then [predictions[i] = ...] for
    [i = 0 .. 4]. *)
Definition PredictFuturePositions : list Position :=
  foldl (fun predictions i => <[Z.to_nat i := prediction i]> predictions)
        (replicate 5 zeroPosition) (seqZ 0 5).

End Predict.

End Kernel.

(** *** Sensor validation *)

Section SensorValidation.

Variables (Sin Cos : float -> float) (Atan2 Pow : float -> float -> float).
Variables (aircraftLat aircraftLon stationLat stationLon airportRangeNM : float).
Variable config : FlightPhasesConfig.

Local Abbreviation validate cT cG cA pT pG pA :=
  (ValidateSensorData Sin Cos Atan2 Pow cT cG cA pT pG pA
     aircraftLat aircraftLon stationLat stationLon airportRangeNM config).

(** A current altitude that does not compare equal to 0 is returned as it is. *)
Lemma validate_alt_nonzero cT cG cA pT pG pA :
  (cA =? 0) = false -> (validate cT cG cA pT pG pA).2 = cA.
Proof.
  intros Hz. unfold ValidateSensorData. rewrite Hz. reflexivity.
Qed.

Lemma validate_tas_nonzero cT cG cA pT pG pA :
  (cT =? 0) = false -> (validate cT cG cA pT pG pA).1.1 = cT.
Proof.
  intros Hz. unfold ValidateSensorData. rewrite Hz.
  rewrite andb_false_r. reflexivity.
Qed.

Lemma validate_gs_nonzero cT cG cA pT pG pA :
  (cG =? 0) = false -> (validate cT cG cA pT pG pA).1.2 = cG.
Proof.
  intros Hz. unfold ValidateSensorData. rewrite Hz.
  rewrite !andb_false_r. reflexivity.
Qed.

(** Whatever the branch taken, a component of the result is the current
    value or the previous one. *)
Lemma validate_alt_cases cT cG cA pT pG pA :
  (validate cT cG cA pT pG pA).2 = cA \/ (validate cT cG cA pT pG pA).2 = pA.
Proof.
  unfold ValidateSensorData.
  repeat match goal with
         | |- context [if ?b then _ else _] => destruct b
         end; simpl; auto.
Qed.

Lemma validate_tas_cases cT cG cA pT pG pA :
  (validate cT cG cA pT pG pA).1.1 = cT \/ (validate cT cG cA pT pG pA).1.1 = pT.
Proof.
  unfold ValidateSensorData.
  repeat match goal with
         | |- context [if ?b then _ else _] => destruct b
         end; simpl; auto.
Qed.

Lemma validate_gs_cases cT cG cA pT pG pA :
  (validate cT cG cA pT pG pA).1.2 = cG \/ (validate cT cG cA pT pG pA).1.2 = pG.
Proof.
  unfold ValidateSensorData.
  repeat match goal with
         | |- context [if ?b then _ else _] => destruct b
         end; simpl; auto.
Qed.

(** C2.  Sensor validation: when the previous altitude is above
    [impossibleAltDropThresholdFt] and the current altitude is 0, the
    returned altitude is the previous altitude. *)
Theorem C2_impossible_altitude_drop cT cG cA pT pG pA :
  (config.(ImpossibleAltDropThresholdFt) <? pA) = true ->
  (cA =? 0) = true ->
  (ValidateSensorData Sin Cos Atan2 Pow cT cG cA pT pG pA
     aircraftLat aircraftLon stationLat stationLon airportRangeNM config).2 = pA.
Proof.
  intros Hthr Hz. unfold ValidateSensorData.
  rewrite Hz, Hthr. simpl.
  match goal with |- context [if ?b then _ else _] => destruct b end;
    reflexivity.
Qed.


(** C10.  Sensor validation never alters a current value that is not 0:
    each component of the result is the current value, or, only when the
    current value compares equal to 0, the corresponding previous value. *)
Theorem C10_validate_frame cT cG cA pT pG pA :
  let r := ValidateSensorData Sin Cos Atan2 Pow cT cG cA pT pG pA
             aircraftLat aircraftLon stationLat stationLon airportRangeNM config in
  (((cA =? 0) = false -> r.2 = cA) /\
   ((cT =? 0) = false -> r.1.1 = cT) /\
   ((cG =? 0) = false -> r.1.2 = cG)) /\
  (r.2 = cA \/ ((cA =? 0) = true /\ r.2 = pA)) /\
  (r.1.1 = cT \/ ((cT =? 0) = true /\ r.1.1 = pT)) /\
  (r.1.2 = cG \/ ((cG =? 0) = true /\ r.1.2 = pG)).
Proof.
  intros r. subst r. split; [split; [| split] | split; [| split]].
  - apply validate_alt_nonzero.
  - apply validate_tas_nonzero.
  - apply validate_gs_nonzero.
  - destruct (cA =? 0) eqn:Hz.
    + destruct (validate_alt_cases cT cG cA pT pG pA); auto.
    + left. by apply validate_alt_nonzero.
  - destruct (cT =? 0) eqn:Hz.
    + destruct (validate_tas_cases cT cG cA pT pG pA); auto.
    + left. by apply validate_tas_nonzero.
  - destruct (cG =? 0) eqn:Hz.
    + destruct (validate_gs_cases cT cG cA pT pG pA); auto.
    + left. by apply validate_gs_nonzero.
Qed.

End SensorValidation.

(** *** Flying classification *)

(** C4.  Both thresholds of the normal case are inclusive: at an altitude
    equal to [flyingMinAltFt] with an effective speed (TAS, or GS when TAS
    is 0) equal to [flyingMinTASKts], [IsFlying] is true. *)
Theorem C4_IsFlying_at_thresholds (tas gs altitude : float) (config : FlightPhasesConfig) :
  (altitude =? config.(FlyingMinAltFt)) = true ->
  (effectiveSpeed tas gs =? config.(FlyingMinTASKts)) = true ->
  IsFlying tas gs altitude config = true.
Proof.
  intros Halt Hspd. unfold IsFlying.
  apply GoFloat.eqb_leb_sym in Halt, Hspd.
  rewrite Halt, Hspd. simpl.
  by destruct (config.(HighAltitudeOverrideFt) <=? altitude).
Qed.

(** A configuration with the thresholds the deprecated constants name
    ([FLYING_MIN_TAS = 50], [FLYING_MIN_ALT = 700]). *)
Definition sampleConfig : FlightPhasesConfig :=
  {| FlyingMinTASKts := 50; FlyingMinAltFt := 700;
     HelicopterAltMultiplier := 2; HighAltitudeOverrideFt := 10000;
     HighSpeedThresholdKts := 200; ImpossibleAltDropThresholdFt := 10000;
     ImpossibleSpeedDropThresholdKts := 100;
     ImpossibleSpeedDropMinAltFt := 5000 |}.

(** The second scenario of the specification: [(11000, 300, 310)] followed
    by [(0, 0, 0)]. *)
Lemma C2_witness :
  (sampleConfig.(ImpossibleAltDropThresholdFt) <? 11000) = true /\
  (0 =? 0) = true /\
  (ValidateSensorData (fun x => x) (fun x => x) (fun x _ => x) (fun x _ => x)
     0 0 0 300 310 11000 43.7 (-79.6) 43.6777 (-79.6248) 10 sampleConfig).2
  = 11000.
Proof.
  split; [reflexivity | split; [reflexivity |]].
  apply C2_impossible_altitude_drop; reflexivity.
Defined.


Lemma C4_witness :
  (700 =? sampleConfig.(FlyingMinAltFt)) = true /\
  (effectiveSpeed 0 50 =? sampleConfig.(FlyingMinTASKts)) = true /\
  IsFlying 0 50 700 sampleConfig = true.
Proof.
  split; [reflexivity | split; [reflexivity |]].
  apply C4_IsFlying_at_thresholds; reflexivity.
Defined.

(** *** Position prediction *)

Section Prediction.

Variables (Sin Cos : float -> float) (Atan2 Pow : float -> float -> float).
Variables (configInstance : option Config) (now : Z).
Variables (lat lon altBaro trueHeading magHeading speedKnots verticalRateFtMin : float).

Local Abbreviation predict :=
  (PredictFuturePositions Sin Cos Atan2 Pow configInstance now
     lat lon altBaro trueHeading magHeading speedKnots verticalRateFtMin).

Local Abbreviation sample :=
  (prediction Sin Cos Atan2 Pow configInstance now
     lat lon altBaro trueHeading magHeading speedKnots verticalRateFtMin).

(** The five assignments [predictions[i] = ...] fill the slice in order. *)
Lemma PredictFuturePositions_unfold :
  predict = [sample 0%Z; sample 1%Z; sample 2%Z; sample 3%Z; sample 4%Z].
Proof. reflexivity. Qed.


Lemma predict_lookup (i : Z) :
  (0 <= i < 5)%Z -> predict !! Z.to_nat i = Some (sample i).
Proof.
  intros Hi. rewrite PredictFuturePositions_unfold.
  assert (i = 0 \/ i = 1 \/ i = 2 \/ i = 3 \/ i = 4)%Z as Hcases by lia.
  destruct Hcases as [-> | [-> | [-> | [-> | ->]]]]; reflexivity.
Qed.


End Prediction.

End Adsb.

(** ** Package adsb: the change detector *)

Module ChangeDetector.

Local Open Scope float_scope.

(** The ADS-B fields [hasAnyChanges] compares. *)
Record ADSBTarget := {
  Lat : float;
  Lon : float;
  AltBaro : float;
  Track : float;
  GS : float;
  TAS : float;
  BaroRate : float;
  MagHeading : float;
  TrueHeading : float
}.

(** Modelled from the spec: the type of [Aircraft.Phase] is not among the
    sources.  The specification gives a small enumeration of phases and, per
    aircraft, the current phase with a history of [(phase, entered_at)]
    transitions. *)
Inductive Phase := NEW | TAX | TO | DEP | CRZ | ARR | APP | TD.

Record PhaseData := {
  Current : Phase;
  History : list (Phase * Z)
}.

Global Instance Phase_eq_dec : EqDecision Phase.
Proof. solve_decision. Defined.

Global Instance PhaseData_eq_dec : EqDecision PhaseData.
Proof. solve_decision. Defined.

(** [Aircraft], with the fields the detector reads.  [ADSB], [Phase] and
    [Distance] are pointers and may be nil; [LastSeen] is an instant in
    nanoseconds. *)
Record Aircraft := {
  Hex : string;
  ADSB : option ADSBTarget;
  Flight : string;
  Status : string;
  OnGround : bool;
  Phase_ : option PhaseData;
  Distance : option float;
  LastSeen : Z
}.

Record AircraftChange := {
  Type_ : string;
  Aircraft_ : option Aircraft;
  ChangeHex : string
}.

Record ChangeDetector := {
  previousAircraft : gmap string Aircraft
}.

Definition NewChangeDetector : ChangeDetector :=
  {| previousAircraft := ∅ |}.

(** Go's [a != b] on [float64]. *)
Definition fneq (a b : float) : bool := negb (a =? b).

(** [reflect.DeepEqual] on two [Phase] values. *)
Definition DeepEqual (p q : option PhaseData) : bool := bool_decide (p = q).

Definition isNil {A} (p : option A) : bool :=
  match p with None => true | Some _ => false end.

Definition adsbChanged (previous current : ADSBTarget) : bool :=
  if fneq previous.(Lat) current.(Lat) || fneq previous.(Lon) current.(Lon) then true
  else if fneq previous.(AltBaro) current.(AltBaro) then true
  else if fneq previous.(Track) current.(Track) then true
  else if fneq previous.(GS) current.(GS) then true
  else if fneq previous.(TAS) current.(TAS) then true
  else if fneq previous.(BaroRate) current.(BaroRate) then true
  else if fneq previous.(MagHeading) current.(MagHeading) then true
  else if fneq previous.(TrueHeading) current.(TrueHeading) then true
  else false.

Definition distanceChanged (previous current : option float) : bool :=
  negb (Bool.eqb (isNil previous) (isNil current))
  || match previous, current with
     | Some p, Some c => fneq p c
     | _, _ => false
     end.

Definition hasAnyChanges (previous current : Aircraft) : bool :=
  let adsb :=
    match previous.(ADSB), current.(ADSB) with
    | Some p, Some c => adsbChanged p c
    | p, c => negb (Bool.eqb (isNil p) (isNil c))
    end in
  if adsb then true
  else if negb (String.eqb previous.(Flight) current.(Flight)) then true
  else if negb (String.eqb previous.(Status) current.(Status)) then true
  else if negb (Bool.eqb previous.(OnGround) current.(OnGround)) then true
  else if negb (DeepEqual previous.(Phase_) current.(Phase_)) then true
  else if distanceChanged previous.(Distance) current.(Distance) then true
  else if negb (previous.(LastSeen) =? current.(LastSeen))%Z then true
  else false.

(** [currentMap[aircraft.Hex] = aircraft] for each element, in order: a
    later aircraft with the same hex replaces an earlier one. *)
Definition buildMap (currentAircraft : list Aircraft) : gmap string Aircraft :=
  foldl (fun m aircraft => <[aircraft.(Hex) := aircraft]> m) ∅ currentAircraft.

Definition detectCurrent (previousAircraft : gmap string Aircraft)
    (changes : list AircraftChange) (entry : string * Aircraft)
    : list AircraftChange :=
  let '(hex, current) := entry in
  match previousAircraft !! hex with
  | Some previous =>
      if hasAnyChanges previous current
      then changes ++ [{| Type_ := "updated"; Aircraft_ := Some current; ChangeHex := hex |}]
      else changes
  | None =>
      changes ++ [{| Type_ := "added"; Aircraft_ := Some current; ChangeHex := hex |}]
  end.

Definition detectRemoved (currentMap : gmap string Aircraft)
    (changes : list AircraftChange) (entry : string * Aircraft)
    : list AircraftChange :=
  let '(hex, _) := entry in
  match currentMap !! hex with
  | Some _ => changes
  | None => changes ++ [{| Type_ := "removed"; Aircraft_ := None; ChangeHex := hex |}]
  end.

(** [DetectChanges] returns the changes and the detector with
    [previousAircraft] replaced.  Go ranges over a map in an unspecified
    order; the model ranges in the order of [map_to_list]. *)
Definition DetectChanges (cd : ChangeDetector) (currentAircraft : list Aircraft)
    : list AircraftChange * ChangeDetector :=
  let changes := [] in
  let currentMap := buildMap currentAircraft in
  let changes :=
    foldl (detectCurrent cd.(previousAircraft)) changes (map_to_list currentMap) in
  let changes :=
    foldl (detectRemoved currentMap) changes (map_to_list cd.(previousAircraft)) in
  (changes, {| previousAircraft := currentMap |}).

(** No float field of the aircraft is NaN. *)
Definition adsbNoNaN (t : ADSBTarget) : bool :=
  negb (is_nan t.(Lat)) && negb (is_nan t.(Lon)) && negb (is_nan t.(AltBaro))
  && negb (is_nan t.(Track)) && negb (is_nan t.(GS)) && negb (is_nan t.(TAS))
  && negb (is_nan t.(BaroRate)) && negb (is_nan t.(MagHeading))
  && negb (is_nan t.(TrueHeading)).

Definition noNaN (a : Aircraft) : bool :=
  match a.(ADSB) with Some t => adsbNoNaN t | None => true end
  && match a.(Distance) with Some d => negb (is_nan d) | None => true end.

Lemma fneq_refl (a : float) : is_nan a = false -> fneq a a = false.
Proof. intros H. unfold fneq. by rewrite GoFloat.eqb_refl_not_nan. Qed.

Lemma adsbChanged_refl (t : ADSBTarget) : adsbNoNaN t = true -> adsbChanged t t = false.
Proof.
  unfold adsbNoNaN. rewrite !andb_true_iff, !negb_true_iff.
  intros [[[[[[[[H1 H2] H3] H4] H5] H6] H7] H8] H9].
  unfold adsbChanged. by rewrite !fneq_refl.
Qed.

Lemma distanceChanged_refl (d : option float) :
  match d with Some x => negb (is_nan x) | None => true end = true ->
  distanceChanged d d = false.
Proof.
  destruct d as [x |]; simpl; [| done].
  rewrite negb_true_iff. intros H. unfold distanceChanged. simpl.
  by rewrite fneq_refl.
Qed.

(** An aircraft without NaN does not differ from itself. *)
Lemma hasAnyChanges_refl (a : Aircraft) : noNaN a = true -> hasAnyChanges a a = false.
Proof.
  unfold noNaN. rewrite andb_true_iff. intros [Hadsb Hdist].
  unfold hasAnyChanges.
  assert (match ADSB a, ADSB a with
          | Some p, Some c => adsbChanged p c
          | p, c => negb (Bool.eqb (isNil p) (isNil c))
          end = false) as ->.
  { destruct (ADSB a) as [t |]; [by apply adsbChanged_refl | done]. }
  rewrite !String.eqb_refl, Bool.eqb_reflx. unfold DeepEqual.
  rewrite bool_decide_eq_true_2 by done.
  rewrite distanceChanged_refl by done.
  by rewrite Z.eqb_refl.
Qed.

(** Every aircraft of the map comes from the list. *)
Lemma buildMap_elem (l : list Aircraft) (hex : string) (a : Aircraft) :
  buildMap l !! hex = Some a -> a ∈ l.
Proof.
  unfold buildMap.
  assert (forall (m : gmap string Aircraft),
             foldl (fun m aircraft => <[aircraft.(Hex) := aircraft]> m) m l !! hex = Some a ->
             m !! hex = Some a \/ a ∈ l) as Hgen.
  { induction l as [| b l IH]; intros m; simpl; [by left |].
    intros H. destruct (IH _ H) as [Hm | Hin].
    - destruct (decide (Hex b = hex)) as [Heq | Hne].
      + subst hex. rewrite lookup_insert_eq in Hm.
        injection Hm as ->. right. by left.
      + rewrite lookup_insert_ne in Hm by done. by left.
    - right. by right. }
  intros H. destruct (Hgen ∅ H) as [Hm | Hin]; [| done].
  by rewrite lookup_empty in Hm.
Qed.

Lemma foldl_unchanged {A B} (f : A -> B -> A) (acc : A) (l : list B) :
  (forall x, x ∈ l -> f acc x = acc) -> foldl f acc l = acc.
Proof.
  induction l as [| y l IH]; simpl; [done |].
  intros H. rewrite (H y) by by left.
  apply IH. intros x Hx. apply H. by right.
Qed.

(** A detector whose previous map is [m], fed a list that builds the same
    map, reports nothing when no aircraft of the map holds a NaN. *)
Lemma DetectChanges_same_map (currentAircraft : list Aircraft) :
  (forall a, a ∈ currentAircraft -> noNaN a = true) ->
  (DetectChanges {| previousAircraft := buildMap currentAircraft |} currentAircraft).1 = [].
Proof.
  intros Hnan. unfold DetectChanges. cbn [fst previousAircraft].
  set (m := buildMap currentAircraft).
  assert (foldl (detectCurrent m) [] (map_to_list m) = []) as ->.
  { apply foldl_unchanged. intros [hex a] Hin.
    apply elem_of_map_to_list in Hin.
    cbn [detectCurrent]. rewrite Hin.
    rewrite hasAnyChanges_refl; [done |].
    apply Hnan. by eapply buildMap_elem. }
  apply foldl_unchanged. intros [hex a] Hin.
  apply elem_of_map_to_list in Hin.
  cbn [detectRemoved]. by rewrite Hin.
Qed.

(** C5 (as amended).  For every detector state and every aircraft list [X]
    none of whose float fields is NaN: once the detector has processed [X],
    detecting [X] again returns the empty change list. *)
Theorem C5_detect_twice_no_events (cd : ChangeDetector) (X : list Aircraft) :
  (forall a, a ∈ X -> noNaN a = true) ->
  (DetectChanges (DetectChanges cd X).2 X).1 = [].
Proof.
  intros Hnan. by apply DetectChanges_same_map.
Qed.

Definition sampleTarget : ADSBTarget :=
  {| Lat := 43.7; Lon := -79.6; AltBaro := 11000; Track := 90; GS := 310;
     TAS := 300; BaroRate := 0; MagHeading := 100; TrueHeading := 90 |}.

Definition sampleAircraft : Aircraft :=
  {| Hex := "c07c71"; ADSB := Some sampleTarget; Flight := "ACA123";
     Status := "active"; OnGround := false;
     Phase_ := Some {| Current := CRZ; History := [(NEW, 0%Z); (CRZ, 600%Z)] |};
     Distance := Some 12.5; LastSeen := 1700000000%Z |}.

Lemma C5_witness :
  (DetectChanges (DetectChanges NewChangeDetector [sampleAircraft]).2 [sampleAircraft]).1 = [].
Proof.
  apply C5_detect_twice_no_events.
  intros a Ha. apply list_elem_of_singleton in Ha. subst a. reflexivity.
Defined.

(** An aircraft whose latitude is NaN. *)
Definition nanAircraft : Aircraft :=
  {| Hex := "c07c71";
     ADSB := Some {| Lat := nan; Lon := -79.6; AltBaro := 11000; Track := 90;
                     GS := 310; TAS := 300; BaroRate := 0; MagHeading := 100;
                     TrueHeading := 90 |};
     Flight := "ACA123"; Status := "active"; OnGround := false;
     Phase_ := None; Distance := None; LastSeen := 1700000000%Z |}.

(** C5, counterexample to the claim for every list: [NaN != NaN] holds in
    Go, so an aircraft with a NaN field is reported as updated on the second
    call with the same list. *)
Lemma C5_counterexample_nan :
  (DetectChanges (DetectChanges NewChangeDetector [nanAircraft]).2 [nanAircraft]).1
  = [{| Type_ := "updated"; Aircraft_ := Some nanAircraft; ChangeHex := "c07c71" |}]
  /\ (DetectChanges (DetectChanges NewChangeDetector [nanAircraft]).2 [nanAircraft]).1
     <> [].
Proof. split; [vm_compute; reflexivity | vm_compute; discriminate]. Qed.

End ChangeDetector.

(** ** Package audio: the multi-reader buffer and the WAV header *)

Module Audio.

Local Open Scope Z_scope.

Inductive error := EOF | ErrClosedPipe | ErrShortBuffer.

(** *** MultiReader

    The mutexes and the condition variables are not modelled: every method
    runs atomically on the state.  A [Read] that finds no data waits; what
    ends the wait is an input of the model ([wake]). *)

Record readerState := {
  readIndex : Z;
  reader_closed : bool
}.

Record MultiReader := {
  buffer : list byte;
  bufferSize : Z;
  writeIndex : Z;
  readers : gmap string readerState;
  closed : bool
}.

Definition NewMultiReader : MultiReader :=
  let bufferSize := 1024 * 64 in
  {| buffer := replicate (Z.to_nat bufferSize) x00;
     bufferSize := bufferSize;
     writeIndex := 0;
     readers := ∅;
     closed := false |}.

(** One iteration of the copy loop of [Write]:
    [mr.buffer[mr.writeIndex] = p[i]], then the index advances.  An index
    outside the buffer would panic; a well-formed state has none. *)
Definition writeByte (mr : MultiReader) (b : byte) : MultiReader :=
  {| buffer := <[Z.to_nat mr.(writeIndex) := b]> mr.(buffer);
     bufferSize := mr.(bufferSize);
     writeIndex := Z.rem (mr.(writeIndex) + 1) mr.(bufferSize);
     readers := mr.(readers);
     closed := mr.(closed) |}.

Definition Write (mr : MultiReader) (p : list byte) : (Z * option error) * MultiReader :=
  if mr.(closed) then ((0, Some ErrClosedPipe), mr)
  else ((Z.of_nat (length p), None), foldl writeByte mr p).

Definition setReaders (mr : MultiReader) (rs : gmap string readerState) : MultiReader :=
  {| buffer := mr.(buffer); bufferSize := mr.(bufferSize);
     writeIndex := mr.(writeIndex); readers := rs; closed := mr.(closed) |}.

(** [CreateReader] returns a client, which is the pair of the multi-reader
    and the id: the result is the id with the new state. *)
Definition CreateReader (mr : MultiReader) (id : string) : string * MultiReader :=
  let create (rs : gmap string readerState) :=
    let reader := {| readIndex := mr.(writeIndex); reader_closed := false |} in
    (id, setReaders mr (<[id := reader]> rs)) in
  match mr.(readers) !! id with
  | Some reader =>
      if negb reader.(reader_closed) then (id, mr)
      else create (delete id mr.(readers))
  | None => create mr.(readers)
  end.

Definition RemoveReader (mr : MultiReader) (id : string) : MultiReader :=
  match mr.(readers) !! id with
  | Some _ => setReaders mr (delete id mr.(readers))
  | None => mr
  end.

(** How a wait in [Read] ends: a signal, after which the state is
    [mr_after]; the cancellation of the context; the 30 second timeout. *)
Inductive Wake :=
  | Signalled (mr_after : MultiReader)
  | CtxDone
  | TimedOut.

(** The copy loop of [Read].  [p] collects the bytes copied so far.  [None]
    when the fuel runs out before the loop ends. *)
Fixpoint copyLoop (fuel : nat) (buffer : list byte) (bufferSize available : Z)
    (copied readIndex : Z) (p : list byte) : option (list byte * Z) :=
  match fuel with
  | O => None
  | S fuel =>
      if copied <? available then
        let chunkSize := available - copied in
        let chunkSize :=
          if readIndex + chunkSize >? bufferSize then bufferSize - readIndex
          else chunkSize in
        let chunk :=
          take (Z.to_nat chunkSize) (drop (Z.to_nat readIndex) buffer) in
        copyLoop fuel buffer bufferSize available
                 (copied + chunkSize) (Z.rem (readIndex + chunkSize) bufferSize)
                 (p ++ chunk)
      else Some (p, readIndex)
  end.

(** [Read] from the point where the indices are known: how much is
    available, the copy, the update of the read position. *)
Definition readAvailable (mr : MultiReader) (id : string) (lenp : Z)
    (readIndex writeIndex bufferSize : Z)
    : option ((list byte * option error) * MultiReader) :=
  let available :=
    if writeIndex >? readIndex then writeIndex - readIndex
    else bufferSize - readIndex + writeIndex in
  let available := if available >? lenp then lenp else available in
  match copyLoop (S (S (Z.to_nat available))) mr.(buffer) bufferSize available
                 0 readIndex [] with
  | None => None
  | Some (p, readIndex) =>
      let mr :=
        match mr.(readers) !! id with
        | Some reader =>
            if negb reader.(reader_closed)
            then setReaders mr (<[id := {| readIndex := readIndex;
                                           reader_closed := reader.(reader_closed) |}]>
                                  mr.(readers))
            else mr
        | None => mr
        end in
      Some ((p, None), mr)
  end.

(** [multiReaderClient.Read] with a destination of [lenp] bytes.  The result
    is the bytes copied (their number is the [n] of the program), the error,
    and the state. *)
Definition Read (mr : MultiReader) (id : string) (lenp : Z) (wake : Wake)
    : option ((list byte * option error) * MultiReader) :=
  match mr.(readers) !! id with
  | None => Some (([], Some EOF), mr)
  | Some reader =>
      if reader.(reader_closed) || mr.(closed) then Some (([], Some EOF), mr)
      else
        let readIndex := reader.(readIndex) in
        let writeIndex := mr.(writeIndex) in
        let bufferSize := mr.(bufferSize) in
        if readIndex =? writeIndex then
          match wake with
          | Signalled mr =>
              match mr.(readers) !! id with
              | None => Some (([], Some EOF), mr)
              | Some reader =>
                  if reader.(reader_closed) || mr.(closed)
                  then Some (([], Some EOF), mr)
                  else readAvailable mr id lenp reader.(Audio.readIndex)
                                     mr.(Audio.writeIndex) bufferSize
              end
          | CtxDone | TimedOut => Some (([], Some EOF), mr)
          end
        else readAvailable mr id lenp readIndex writeIndex bufferSize
  end.

(** *** Runs of one reader against the writer

    A run is a sequence of calls after the reader was created: writes of
    the upstream, and reads of the reader.  A read that has to wait is ended
    by a signal that follows the writes [ps] made meanwhile, by the
    cancellation of the context, or by the timeout.  Next to the state, a
    run keeps two ghost values: the stream [W] accepted by [Write] since the
    reader was created, and the number [U] of bytes returned to it. *)

(** Whether [Read] finds the reader with nothing to read, and waits. *)
Definition waits (mr : MultiReader) (id : string) : bool :=
  match mr.(readers) !! id with
  | Some reader =>
      negb (reader.(reader_closed) || mr.(closed))
      && (reader.(readIndex) =? mr.(writeIndex))
  | None => false
  end.

Inductive wakeEvent :=
  | WSignal (ps : list (list byte))
  | WCtxDone
  | WTimedOut.

Inductive event :=
  | EvWrite (p : list byte)
  | EvRead (lenp : nat) (w : wakeEvent).

Definition writeAll (mr : MultiReader) (ps : list (list byte)) : MultiReader :=
  foldl (fun mr p => (Write mr p).2) mr ps.

Definition wakeOf (mr : MultiReader) (w : wakeEvent) : Wake :=
  match w with
  | WSignal ps => Signalled (writeAll mr ps)
  | WCtxDone => CtxDone
  | WTimedOut => TimedOut
  end.

(** What one read returned: the bytes, the stream written by then, and the
    number of bytes the reader had been given before. *)
Record readEntry := {
  entry_out : list byte;
  entry_written : list byte;
  entry_returned : Z
}.

Fixpoint exec (id : string) (mr : MultiReader) (W : list byte) (U : Z)
    (evs : list event) : option (list readEntry) :=
  match evs with
  | [] => Some []
  | EvWrite p :: evs =>
      let '((n, _), mr) := Write mr p in
      exec id mr (W ++ take (Z.to_nat n) p) U evs
  | EvRead lenp w :: evs =>
      let W :=
        match w with
        | WSignal ps => if waits mr id then W ++ concat ps else W
        | _ => W
        end in
      match Read mr id (Z.of_nat lenp) (wakeOf mr w) with
      | None => None
      | Some ((out, _), mr) =>
          match exec id mr W (U + Z.of_nat (length out)) evs with
          | None => None
          | Some tr =>
              Some ({| entry_out := out; entry_written := W; entry_returned := U |}
                      :: tr)
          end
      end
  end.

(** Every signal of the run follows at least one written byte. *)
Definition dataWakes (evs : list event) : bool :=
  forallb (fun ev =>
             match ev with
             | EvRead _ (WSignal ps) => negb (Nat.eqb (length (concat ps)) 0)
             | _ => true
             end) evs.

(** Position in the stream of the byte that a buffer of [N] cells holds
    for stream offset [k], once [T] bytes are written: the last offset below
    [T] that falls on the same cell.  It is [k] itself as long as the writer
    is less than one lap ahead of [k]. *)
Definition streamIndex (N T k : Z) : Z := k + N * ((T - 1 - k) / N).

(** The bytes of a read are bytes of the stream written since the reader
    was created: byte [j] of the output is the one written at offset
    [streamIndex N T (U + j)] of that stream. *)
Definition fresh (N : Z) (e : readEntry) : Prop :=
  forall j : Z, 0 <= j < Z.of_nat (length e.(entry_out)) ->
    e.(entry_out) !! Z.to_nat j
    = e.(entry_written)
        !! Z.to_nat (streamIndex N (Z.of_nat (length e.(entry_written)))
                                 (e.(entry_returned) + j)).

(** Reader [id] is registered and not closed. *)
Definition hasOpenReader (mr : MultiReader) (id : string) : bool :=
  match mr.(readers) !! id with
  | Some reader => negb reader.(reader_closed)
  | None => false
  end.

(** The representation invariant of an open multi-reader. *)
Definition wf (mr : MultiReader) : Prop :=
  0 < mr.(bufferSize)
  /\ length mr.(buffer) = Z.to_nat mr.(bufferSize)
  /\ 0 <= mr.(writeIndex) < mr.(bufferSize)
  /\ mr.(closed) = false.

(** *** The streaming WAV header *)

Definition byte_of_Z (v : Z) : byte :=
  match Byte.of_N (Z.to_N (v mod 256)) with
  | Some b => b
  | None => x00
  end.

Definition Z_of_byte (b : byte) : Z := Z.of_N (Byte.to_N b).

(** [binary.LittleEndian]. *)
Definition PutUint16 (v : Z) : list byte :=
  [byte_of_Z v; byte_of_Z (Z.shiftr v 8)].

Definition PutUint32 (v : Z) : list byte :=
  [byte_of_Z v; byte_of_Z (Z.shiftr v 8); byte_of_Z (Z.shiftr v 16);
   byte_of_Z (Z.shiftr v 24)].

Definition Uint16 (b : list byte) : Z :=
  match b with
  | b0 :: b1 :: _ => Z.lor (Z_of_byte b0) (Z.shiftl (Z_of_byte b1) 8)
  | _ => 0
  end.

Definition Uint32 (b : list byte) : Z :=
  match b with
  | b0 :: b1 :: b2 :: b3 :: _ =>
      Z.lor (Z.lor (Z.lor (Z_of_byte b0) (Z.shiftl (Z_of_byte b1) 8))
                   (Z.shiftl (Z_of_byte b2) 16))
            (Z.shiftl (Z_of_byte b3) 24)
  | _ => 0
  end.

(** [dst[lo:hi]], and [copy(dst[lo:hi], src)]. *)
Definition slice (l : list byte) (lo hi : nat) : list byte :=
  take (hi - lo) (drop lo l).

Definition copyInto (dst : list byte) (lo hi : nat) (src : list byte) : list byte :=
  let src := take (hi - lo) src in
  take lo dst ++ src ++ drop (lo + length src) dst.

Record WAVHeader := {
  ChunkID : list byte;
  ChunkSize : Z;
  Format : list byte;
  Subchunk1ID : list byte;
  Subchunk1Size : Z;
  AudioFormat : Z;
  NumChannels : Z;
  SampleRate : Z;
  ByteRate : Z;
  BlockAlign : Z;
  BitsPerSample : Z;
  Subchunk2ID : list byte;
  Subchunk2Size : Z
}.

Definition wavHeader (sampleRate channels : Z) : WAVHeader :=
  let bitsPerSample := GoInt.uint16 16 in
  let byteRate :=
    GoInt.uint32 (GoInt.mul64 (GoInt.mul64 sampleRate channels)
                              (Z.quot bitsPerSample 8)) in
  let blockAlign := GoInt.uint16 (GoInt.mul64 channels (Z.quot bitsPerSample 8)) in
  let dataSize := GoInt.uint32 (0xFFFFFFFF - 36) in
  {| ChunkID := ["R"; "I"; "F"; "F"]%byte;
     ChunkSize := GoInt.uint32 (36 + dataSize);
     Format := ["W"; "A"; "V"; "E"]%byte;
     Subchunk1ID := ["f"; "m"; "t"; " "]%byte;
     Subchunk1Size := 16;
     AudioFormat := 1;
     NumChannels := GoInt.uint16 channels;
     SampleRate := GoInt.uint32 sampleRate;
     ByteRate := byteRate;
     BlockAlign := blockAlign;
     BitsPerSample := bitsPerSample;
     Subchunk2ID := ["d"; "a"; "t"; "a"]%byte;
     Subchunk2Size := dataSize |}.

Definition createWAVHeader (sampleRate channels : Z) : list byte :=
  let header := wavHeader sampleRate channels in
  let headerBytes := replicate 44 x00 in
  let headerBytes := copyInto headerBytes 0 4 header.(ChunkID) in
  let headerBytes := copyInto headerBytes 4 8 (PutUint32 header.(ChunkSize)) in
  let headerBytes := copyInto headerBytes 8 12 header.(Format) in
  let headerBytes := copyInto headerBytes 12 16 header.(Subchunk1ID) in
  let headerBytes := copyInto headerBytes 16 20 (PutUint32 header.(Subchunk1Size)) in
  let headerBytes := copyInto headerBytes 20 22 (PutUint16 header.(AudioFormat)) in
  let headerBytes := copyInto headerBytes 22 24 (PutUint16 header.(NumChannels)) in
  let headerBytes := copyInto headerBytes 24 28 (PutUint32 header.(SampleRate)) in
  let headerBytes := copyInto headerBytes 28 32 (PutUint32 header.(ByteRate)) in
  let headerBytes := copyInto headerBytes 32 34 (PutUint16 header.(BlockAlign)) in
  let headerBytes := copyInto headerBytes 34 36 (PutUint16 header.(BitsPerSample)) in
  let headerBytes := copyInto headerBytes 36 40 header.(Subchunk2ID) in
  let headerBytes := copyInto headerBytes 40 44 (PutUint32 header.(Subchunk2Size)) in
  headerBytes.

(** [WAVReader] over an underlying reader with states [R] whose [Read],
    given the length of the destination, returns the bytes read, the error
    and its next state. *)
Section WAVReader.

Variable R : Type.
Variable readerRead : R -> Z -> (list byte * option error) * R.

Record WAVReader := {
  reader : R;
  headerSent : bool;
  header : list byte
}.

Definition NewWAVReader (reader : R) (sampleRate channels : Z) : WAVReader :=
  {| reader := reader; headerSent := false;
     header := createWAVHeader sampleRate channels |}.

Definition WAVReader_Read (wr : WAVReader) (lenp : Z)
    : (list byte * option error) * WAVReader :=
  if negb wr.(headerSent) then
    let headerLen := Z.of_nat (length wr.(header)) in
    if lenp <? headerLen then (([], Some ErrShortBuffer), wr)
    else
      if lenp >? headerLen then
        let '((m, err), reader) := readerRead wr.(reader) (lenp - headerLen) in
        ((wr.(header) ++ m, err),
         {| reader := reader; headerSent := true; header := wr.(header) |})
      else
        ((wr.(header), None),
         {| reader := wr.(reader); headerSent := true; header := wr.(header) |})
  else
    let '(res, reader) := readerRead wr.(reader) lenp in
    (res, {| reader := reader; headerSent := wr.(headerSent); header := wr.(header) |}).

End WAVReader.

(** *** The WAV header: layout and fields *)

Lemma Z_of_byte_of_Z (v : Z) : Z_of_byte (byte_of_Z v) = v mod 256.
Proof.
  unfold Z_of_byte, byte_of_Z.
  assert (0 <= v mod 256 < 256) as Hr by (apply Z.mod_pos_bound; lia).
  destruct (Byte.of_N (Z.to_N (v mod 256))) as [b |] eqn:Hb.
  - apply Byte.to_of_N in Hb. rewrite Hb. lia.
  - apply Byte.of_N_None_iff in Hb. lia.
Qed.

Lemma lor_shiftl_add (a b n : Z) :
  0 <= n -> 0 <= a < 2 ^ n -> Z.lor a (Z.shiftl b n) = a + b * 2 ^ n.
Proof.
  intros Hn Ha. rewrite <- Z.add_lor_land, Z.shiftl_mul_pow2 by lia.
  assert (Z.land a (b * 2 ^ n) = 0) as ->; [| lia].
  apply Z.bits_inj'. intros i Hi. rewrite Z.land_spec, Z.bits_0.
  destruct (Z_lt_dec i n).
  - rewrite Z.mul_pow2_bits_low by lia. apply andb_false_r.
  - rewrite <- (Z.mod_small a (2 ^ n)) by lia.
    rewrite Z.mod_pow2_bits_high by lia. reflexivity.
Qed.

(** Writing a value and reading it back gives its low 16 or 32 bits. *)
Lemma Uint16_PutUint16 (v : Z) : Uint16 (PutUint16 v) = v mod 2 ^ 16.
Proof.
  unfold Uint16, PutUint16. rewrite !Z_of_byte_of_Z.
  rewrite Z.shiftr_div_pow2 by lia.
  assert (0 <= v mod 256 < 256) by (apply Z.mod_pos_bound; lia).
  assert (0 <= (v / 2 ^ 8) mod 256 < 256) by (apply Z.mod_pos_bound; lia).
  rewrite lor_shiftl_add by lia.
  apply Z.mod_unique_pos with (q := v / 2 ^ 8 / 256); [lia |].
  pose proof (Z.div_mod v (2 ^ 8)) as E0.
  pose proof (Z.div_mod (v / 2 ^ 8) 256) as E1.
  change (2 ^ 8) with 256 in *. lia.
Qed.

Lemma Uint32_PutUint32 (v : Z) : Uint32 (PutUint32 v) = v mod 2 ^ 32.
Proof.
  unfold Uint32, PutUint32. rewrite !Z_of_byte_of_Z.
  rewrite !Z.shiftr_div_pow2 by lia.
  assert (0 <= v mod 256 < 256) by (apply Z.mod_pos_bound; lia).
  assert (0 <= (v / 2 ^ 8) mod 256 < 256) by (apply Z.mod_pos_bound; lia).
  assert (0 <= (v / 2 ^ 16) mod 256 < 256) by (apply Z.mod_pos_bound; lia).
  assert (0 <= (v / 2 ^ 24) mod 256 < 256) by (apply Z.mod_pos_bound; lia).
  rewrite (lor_shiftl_add (v mod 256)) by lia.
  rewrite (lor_shiftl_add (v mod 256 + _)) by lia.
  rewrite (lor_shiftl_add (v mod 256 + _ + _)) by lia.
  apply Z.mod_unique_pos with (q := v / 2 ^ 24 / 256); [lia |].
  pose proof (Z.div_mod v 256) as E0.
  pose proof (Z.div_mod (v / 256) 256) as E1.
  pose proof (Z.div_mod (v / 256 / 256) 256) as E2.
  pose proof (Z.div_mod (v / 256 / 256 / 256) 256) as E3.
  replace (v / 2 ^ 8) with (v / 256) in * by reflexivity.
  replace (v / 2 ^ 16) with (v / 256 / 256) in *
    by (rewrite Z.div_div by lia; reflexivity).
  replace (v / 2 ^ 24) with (v / 256 / 256 / 256) in *
    by (rewrite !Z.div_div by lia; reflexivity).
  lia.
Qed.

(** A conversion to [uint16] or [uint32] sees the low bits only, so the
    64-bit wrap-around of the [int] arithmetic before it does not show. *)
Lemma wrap64_mod_pow2 (x k : Z) :
  0 <= k <= 64 -> GoInt.wrap64 x mod 2 ^ k = x mod 2 ^ k.
Proof.
  intros Hk. unfold GoInt.wrap64.
  pose proof (Z.div_mod (x + 2 ^ 63) (2 ^ 64) ltac:(lia)) as E.
  replace ((x + 2 ^ 63) mod 2 ^ 64 - 2 ^ 63)
    with (x + (- ((x + 2 ^ 63) / 2 ^ 64) * 2 ^ (64 - k)) * 2 ^ k).
  - apply Z.mod_add. apply Z.pow_nonzero; lia.
  - rewrite <- Z.mul_assoc, <- Z.pow_add_r by lia.
    replace (64 - k + k) with 64 by lia. lia.
Qed.

Lemma uint32_mul64 (x y : Z) : GoInt.uint32 (GoInt.mul64 x y) = (x * y) mod 2 ^ 32.
Proof. unfold GoInt.uint32, GoInt.mul64. apply wrap64_mod_pow2. lia. Qed.

Lemma uint16_mul64 (x y : Z) : GoInt.uint16 (GoInt.mul64 x y) = (x * y) mod 2 ^ 16.
Proof. unfold GoInt.uint16, GoInt.mul64. apply wrap64_mod_pow2. lia. Qed.

Lemma byteRate_low_bits (sampleRate channels : Z) :
  (wavHeader sampleRate channels).(ByteRate) = (sampleRate * channels * 2) mod 2 ^ 32.
Proof.
  cbn [wavHeader ByteRate].
  change (Z.quot (GoInt.uint16 16) 8) with 2.
  rewrite uint32_mul64.
  unfold GoInt.mul64.
  rewrite <- Z.mul_mod_idemp_l, wrap64_mod_pow2, Z.mul_mod_idemp_l by lia.
  reflexivity.
Qed.

Lemma blockAlign_low_bits (sampleRate channels : Z) :
  (wavHeader sampleRate channels).(BlockAlign) = (channels * 2) mod 2 ^ 16.
Proof.
  cbn [wavHeader BlockAlign].
  change (Z.quot (GoInt.uint16 16) 8) with 2.
  apply uint16_mul64.
Qed.

(** The 44 bytes, field after field. *)
Lemma createWAVHeader_layout (sampleRate channels : Z) :
  let header := wavHeader sampleRate channels in
  createWAVHeader sampleRate channels =
    ["R"; "I"; "F"; "F"]%byte ++ PutUint32 header.(ChunkSize)
    ++ ["W"; "A"; "V"; "E"]%byte
    ++ ["f"; "m"; "t"; " "]%byte ++ PutUint32 16 ++ PutUint16 1
    ++ PutUint16 header.(NumChannels) ++ PutUint32 header.(SampleRate)
    ++ PutUint32 header.(ByteRate) ++ PutUint16 header.(BlockAlign)
    ++ PutUint16 16
    ++ ["d"; "a"; "t"; "a"]%byte ++ PutUint32 header.(Subchunk2Size).
Proof. reflexivity. Qed.

(** C8 (as amended).  The header is 44 bytes of PCM WAV framing: the tags
    [RIFF], [WAVE], [fmt ] and [data] at offsets 0, 8, 12 and 36, a format
    chunk of size 16 with audio format 1 (PCM) and 16 bits per sample, the
    channel count, the sample rate, the byte rate [sampleRate * channels * 2]
    and the block alignment [channels * 2] (each truncated to the width of
    its field, and consistent with one another when nothing is truncated).
    The RIFF chunk size is the maximum [0xFFFFFFFF], and the data sub-chunk
    size is that maximum minus the 36 bytes of header the chunk size counts:
    [0xFFFFFFFF - 36].  The first [Read] of a [WAVReader] into a buffer of
    at least 44 bytes starts with this header. *)
Theorem C8_wav_header_framing (sampleRate channels : Z) :
  let h := createWAVHeader sampleRate channels in
  length h = 44%nat /\
  (slice h 0 4 = ["R"; "I"; "F"; "F"]%byte /\
   Uint32 (slice h 4 8) = 0xFFFFFFFF /\
   slice h 8 12 = ["W"; "A"; "V"; "E"]%byte /\
   slice h 12 16 = ["f"; "m"; "t"; " "]%byte /\
   Uint32 (slice h 16 20) = 16 /\
   Uint16 (slice h 20 22) = 1 /\
   Uint16 (slice h 22 24) = channels mod 2 ^ 16 /\
   Uint32 (slice h 24 28) = sampleRate mod 2 ^ 32 /\
   Uint32 (slice h 28 32) = (sampleRate * channels * 2) mod 2 ^ 32 /\
   Uint16 (slice h 32 34) = (channels * 2) mod 2 ^ 16 /\
   Uint16 (slice h 34 36) = 16 /\
   slice h 36 40 = ["d"; "a"; "t"; "a"]%byte /\
   Uint32 (slice h 40 44) = 0xFFFFFFFF - 36) /\
  (0 <= sampleRate -> 0 < channels < 2 ^ 15 ->
   sampleRate * channels * 2 < 2 ^ 32 ->
   Uint16 (slice h 22 24) = channels /\
   Uint32 (slice h 24 28) = sampleRate /\
   Uint16 (slice h 32 34) = Uint16 (slice h 22 24) * (Uint16 (slice h 34 36) / 8) /\
   Uint32 (slice h 28 32) = Uint32 (slice h 24 28) * Uint16 (slice h 32 34)) /\
  (forall (R : Type) (readerRead : R -> Z -> (list byte * option error) * R)
          (reader : R) (lenp : Z),
     44 <= lenp ->
     let r := WAVReader_Read R readerRead (NewWAVReader R reader sampleRate channels) lenp in
     take 44 r.1.1 = h /\ r.2.(headerSent R) = true).
Proof.
  intros h.
  assert (length h = 44%nat) as Hlen by reflexivity.
  assert (Uint16 (slice h 22 24) = channels mod 2 ^ 16) as Hch.
  { subst h. rewrite createWAVHeader_layout. cbn zeta.
    change (slice _ 22 24) with (PutUint16 (wavHeader sampleRate channels).(NumChannels)).
    rewrite Uint16_PutUint16. cbn [wavHeader NumChannels]. unfold GoInt.uint16.
    apply Z.mod_mod. lia. }
  assert (Uint32 (slice h 24 28) = sampleRate mod 2 ^ 32) as Hsr.
  { subst h. rewrite createWAVHeader_layout. cbn zeta.
    change (slice _ 24 28) with (PutUint32 (wavHeader sampleRate channels).(SampleRate)).
    rewrite Uint32_PutUint32. cbn [wavHeader SampleRate]. unfold GoInt.uint32.
    apply Z.mod_mod. lia. }
  assert (Uint32 (slice h 28 32) = (sampleRate * channels * 2) mod 2 ^ 32) as Hbr.
  { subst h. rewrite createWAVHeader_layout. cbn zeta.
    change (slice _ 28 32) with (PutUint32 (wavHeader sampleRate channels).(ByteRate)).
    rewrite Uint32_PutUint32, byteRate_low_bits. apply Z.mod_mod. lia. }
  assert (Uint16 (slice h 32 34) = (channels * 2) mod 2 ^ 16) as Hba.
  { subst h. rewrite createWAVHeader_layout. cbn zeta.
    change (slice _ 32 34) with (PutUint16 (wavHeader sampleRate channels).(BlockAlign)).
    rewrite Uint16_PutUint16, blockAlign_low_bits. apply Z.mod_mod. lia. }
  assert (Uint16 (slice h 34 36) = 16) as Hbits by reflexivity.
  split; [exact Hlen |]. split; [| split].
  - repeat split; try reflexivity; assumption.
  - intros Hs Hc Hprod.
    rewrite Hbr, Hba, Hch, Hsr, Hbits.
    change (16 / 8) with 2.
    change (2 ^ 15) with 32768 in Hc.
    change (2 ^ 32) with 4294967296 in *. change (2 ^ 16) with 65536.
    assert (sampleRate < 4294967296) by nia.
    rewrite (Z.mod_small channels), (Z.mod_small sampleRate),
      (Z.mod_small (channels * 2)), (Z.mod_small (sampleRate * channels * 2)) by lia.
    repeat split; lia.
  - intros R readerRead reader lenp Hp r. subst r.
    unfold WAVReader_Read, NewWAVReader.
    cbn [headerSent header Audio.reader negb].
    fold h. rewrite Hlen.
    destruct (lenp <? Z.of_nat 44) eqn:Hlt; [apply Z.ltb_lt in Hlt; lia |].
    destruct (lenp >? Z.of_nat 44).
    + destruct (readerRead reader (lenp - Z.of_nat 44)) as [[m err] reader'].
      cbn [fst snd headerSent]. split; [| reflexivity].
      rewrite take_app_length'; [reflexivity | exact Hlen].
    + cbn [fst snd headerSent]. split; [| reflexivity].
      apply take_ge. rewrite Hlen. lia.
Qed.

(** C8, counterexample: the data-size field of the header is not the
    maximum value of its 32 bits; the maximum is in the RIFF chunk size. *)
Lemma C8_counterexample_data_size :
  Uint32 (slice (createWAVHeader 24000 1) 40 44) <> 0xFFFFFFFF
  /\ Uint32 (slice (createWAVHeader 24000 1) 40 44) = 4294967259
  /\ Uint32 (slice (createWAVHeader 24000 1) 4 8) = 0xFFFFFFFF.
Proof. split; [vm_compute; discriminate | split; reflexivity]. Qed.

(** *** The multi-reader: what a reader created late can read *)

Lemma mod_shift_ne (a d n : Z) : 0 < d < n -> (a + d) mod n <> a mod n.
Proof.
  intros Hd Heq.
  pose proof (Z.mod_pos_bound a n ltac:(lia)) as Hx.
  rewrite <- Zplus_mod_idemp_l in Heq.
  destruct (Z_lt_dec (a mod n + d) n) as [Hlt | Hge].
  - rewrite Z.mod_small in Heq by lia. lia.
  - replace (a mod n + d) with (a mod n + d - n + 1 * n) in Heq by lia.
    rewrite Z.mod_add in Heq by lia.
    rewrite Z.mod_small in Heq by lia. lia.
Qed.

Lemma streamIndex_bounds (N T k : Z) :
  0 < N -> 0 <= k < T ->
  k <= streamIndex N T k < T /\ T - N <= streamIndex N T k.
Proof.
  intros HN Hk. unfold streamIndex.
  pose proof (Z.div_mod (T - 1 - k) N ltac:(lia)) as E.
  pose proof (Z.mod_pos_bound (T - 1 - k) N HN) as B.
  assert (0 <= (T - 1 - k) / N) by (apply Z.div_pos; lia).
  nia.
Qed.


Section FanOut.

Variables (N W0 : Z) (id : string).
Hypothesis HN : 0 < N.
Hypothesis HW0 : 0 <= W0 < N.

(** The state of the buffer and of reader [id], once [W] is the stream
    written since the reader was created at write index [W0], and [U] the
    number of bytes handed to the reader. *)
Record inv (mr : MultiReader) (W : list byte) (U : Z) : Prop := {
  inv_size : mr.(bufferSize) = N;
  inv_len : length mr.(buffer) = Z.to_nat N;
  inv_open : mr.(closed) = false;
  inv_write : mr.(writeIndex) = (W0 + Z.of_nat (length W)) mod N;
  inv_reader :
    mr.(readers) !! id = Some {| readIndex := (W0 + U) mod N; reader_closed := false |};
  inv_U : 0 <= U <= Z.of_nat (length W);
  inv_content : forall k : Z,
    0 <= k < Z.of_nat (length W) -> Z.of_nat (length W) - N <= k ->
    mr.(buffer) !! Z.to_nat ((W0 + k) mod N) = W !! Z.to_nat k
}.

Lemma inv_writeByte mr W U b :
  inv mr W U -> inv (writeByte mr b) (W ++ [b]) U.
Proof.
  intros [Hsize Hlen Hopen Hw Hr HU Hc].
  pose proof (Z.mod_pos_bound (W0 + Z.of_nat (length W)) N HN) as Hwb.
  constructor; cbn [writeByte bufferSize buffer closed writeIndex readers].
  - exact Hsize.
  - by rewrite length_insert.
  - exact Hopen.
  - rewrite Hw, Hsize, Z.rem_mod_nonneg by lia.
    rewrite Zplus_mod_idemp_l, length_app. cbn [length].
    f_equal. lia.
  - exact Hr.
  - rewrite length_app. cbn [length]. lia.
  - intros k Hk Hlap. rewrite length_app in Hk, Hlap. cbn [length] in Hk, Hlap.
    destruct (decide (k = Z.of_nat (length W))) as [-> | Hne].
    + rewrite Hw, list_lookup_insert_eq by lia.
      rewrite Nat2Z.id. symmetry. by apply list_lookup_middle.
    + rewrite list_lookup_insert_ne.
      * rewrite Hc by lia. symmetry. apply lookup_app_l. lia.
      * rewrite Hw. intros Heq.
        pose proof (Z.mod_pos_bound (W0 + k) N HN).
        apply Z2Nat.inj in Heq; [| lia | lia].
        replace (W0 + Z.of_nat (length W))
          with ((W0 + k) + (Z.of_nat (length W) - k)) in Heq by lia.
        revert Heq. apply mod_shift_ne. lia.
Qed.

Lemma inv_foldl_writeByte p : forall mr W U,
  inv mr W U -> inv (foldl writeByte mr p) (W ++ p) U.
Proof.
  induction p as [| b p IH]; intros mr W U Hinv; cbn [foldl].
  - by rewrite app_nil_r.
  - replace (W ++ b :: p) with ((W ++ [b]) ++ p) by by rewrite <- app_assoc.
    apply IH. by apply inv_writeByte.
Qed.

(** [Write] appends to the stream and leaves the reader where it is. *)
Lemma inv_Write mr W U p :
  inv mr W U ->
  (Write mr p).1 = (Z.of_nat (length p), None) /\ inv (Write mr p).2 (W ++ p) U.
Proof.
  intros Hinv. unfold Write. rewrite (inv_open _ _ _ Hinv). cbn [fst snd].
  split; [reflexivity |]. by apply inv_foldl_writeByte.
Qed.

Lemma copyLoop_step fuel buf available copied r p :
  copyLoop (S fuel) buf N available copied r p =
    if copied <? available then
      let chunkSize := available - copied in
      let chunkSize := if r + chunkSize >? N then N - r else chunkSize in
      copyLoop fuel buf N available (copied + chunkSize)
               (Z.rem (r + chunkSize) N)
               (p ++ take (Z.to_nat chunkSize) (drop (Z.to_nat r) buf))
    else Some (p, r).
Proof. reflexivity. Qed.

(** The copy loop ends within its fuel, after one or two chunks, and
    returns the [a] cells that follow [r] around the buffer. *)
Lemma copyLoop_spec (buf : list byte) (r a : Z) :
  length buf = Z.to_nat N -> 0 <= r < N -> 0 <= a <= N ->
  exists out,
    copyLoop (S (S (Z.to_nat a))) buf N a 0 r [] = Some (out, (r + a) mod N)
    /\ length out = Z.to_nat a
    /\ forall j, 0 <= j < a ->
         out !! Z.to_nat j = buf !! Z.to_nat ((r + j) mod N).
Proof.
  intros Hlen Hr Ha.
  destruct (decide (a = 0)) as [-> | Hpos].
  { exists []. rewrite copyLoop_step, Z.ltb_irrefl.
    rewrite Z.add_0_r, Z.mod_small by lia.
    split; [reflexivity |]. split; [reflexivity |]. intros j Hj. lia. }
  destruct (Z_le_dec (r + a) N) as [Hfit | Hwrap].
  - (* one chunk *)
    exists (take (Z.to_nat a) (drop (Z.to_nat r) buf)).
    rewrite copyLoop_step.
    assert ((0 <? a) = true) as -> by (apply Z.ltb_lt; lia).
    cbn zeta. rewrite Z.sub_0_r.
    assert ((r + a >? N) = false) as -> by (rewrite Z.gtb_ltb; apply Z.ltb_ge; lia).
    rewrite copyLoop_step, Z.add_0_l, Z.ltb_irrefl, app_nil_l.
    rewrite Z.rem_mod_nonneg by lia.
    split; [reflexivity |]. split.
    + rewrite length_take, length_drop. lia.
    + intros j Hj. rewrite lookup_take_lt by lia.
      rewrite lookup_drop, Z.mod_small by lia.
      f_equal. lia.
  - (* two chunks: up to the end of the buffer, then from its start *)
    exists (drop (Z.to_nat r) buf ++ take (Z.to_nat (a - (N - r))) buf).
    rewrite copyLoop_step.
    assert ((0 <? a) = true) as -> by (apply Z.ltb_lt; lia).
    cbn zeta. rewrite Z.sub_0_r.
    assert ((r + a >? N) = true) as -> by (rewrite Z.gtb_ltb; apply Z.ltb_lt; lia).
    rewrite Z.add_0_l.
    replace (r + (N - r)) with N by lia. rewrite Z.rem_same by lia.
    rewrite app_nil_l, take_ge by (rewrite length_drop; lia).
    rewrite copyLoop_step.
    assert ((N - r <? a) = true) as -> by (apply Z.ltb_lt; lia).
    cbn zeta.
    assert ((0 + (a - (N - r)) >? N) = false) as ->
      by (rewrite Z.gtb_ltb; apply Z.ltb_ge; lia).
    replace (N - r + (a - (N - r))) with a by lia.
    rewrite Z.add_0_l, Z.rem_mod_nonneg, Z.mod_small by lia.
    change (Z.to_nat 0) with 0%nat. rewrite drop_0.
    destruct (Z.to_nat a) as [| fuel] eqn:Hfuel; [lia |].
    rewrite copyLoop_step, Z.ltb_irrefl.
    split; [| split].
    + do 2 f_equal.
      replace (r + a) with (r + a - N + 1 * N) by lia.
      rewrite Z.mod_add, Z.mod_small by lia. lia.
    + rewrite length_app, length_drop, length_take. lia.
    + intros j Hj. destruct (Z_lt_dec (r + j) N) as [Hlow | Hhigh].
      * rewrite lookup_app_l by (rewrite length_drop; lia).
        rewrite lookup_drop, Z.mod_small by lia. f_equal. lia.
      * rewrite lookup_app_r by (rewrite length_drop; lia).
        rewrite length_drop, lookup_take_lt by lia.
        replace (r + j) with (r + j - N + 1 * N) by lia.
        rewrite Z.mod_add, Z.mod_small by lia. f_equal. lia.
Qed.

(** With unread data, the amount available is between 1 and [N] and no
    more than what was written and not yet returned. *)
Lemma available_bounds (U T : Z) :
  0 <= U < T ->
  let r := (W0 + U) mod N in
  let w := (W0 + T) mod N in
  let available := if w >? r then w - r else N - r + w in
  1 <= available <= N /\ available <= T - U.
Proof.
  intros HU r w available.
  pose proof (Z.div_mod (W0 + U) N ltac:(lia)) as EU.
  pose proof (Z.div_mod (W0 + T) N ltac:(lia)) as ET.
  pose proof (Z.mod_pos_bound (W0 + U) N HN) as BU.
  pose proof (Z.mod_pos_bound (W0 + T) N HN) as BT.
  fold r in EU, BU. fold w in ET, BT. subst available.
  set (qU := (W0 + U) / N) in *. set (qT := (W0 + T) / N) in *.
  rewrite Z.gtb_ltb.
  destruct (r <? w) eqn:Hrw; [apply Z.ltb_lt in Hrw | apply Z.ltb_ge in Hrw].
  - split; [lia |].
    assert (qU <= qT) by nia. nia.
  - split; [lia |].
    assert (qU + 1 <= qT) by nia. nia.
Qed.

Lemma readAvailable_spec mr W U (lenp : Z) :
  inv mr W U -> U < Z.of_nat (length W) -> 0 <= lenp ->
  exists out mr',
    readAvailable mr id lenp ((W0 + U) mod N) mr.(writeIndex) N
      = Some ((out, None), mr')
    /\ inv mr' W (U + Z.of_nat (length out))
    /\ Z.of_nat (length out) <= lenp
    /\ forall j, 0 <= j < Z.of_nat (length out) ->
         out !! Z.to_nat j
         = W !! Z.to_nat (streamIndex N (Z.of_nat (length W)) (U + j)).
Proof.
  intros Hinv HUT Hlenp.
  destruct Hinv as [Hsize Hlen Hopen Hw Hr HU Hc].
  set (T := Z.of_nat (length W)) in *.
  destruct (available_bounds U T ltac:(lia)) as [Hav1 Hav2].
  cbn zeta in Hav1, Hav2.
  unfold readAvailable. rewrite Hw. fold T.
  set (available := if (W0 + T) mod N >? (W0 + U) mod N
                    then (W0 + T) mod N - (W0 + U) mod N
                    else N - (W0 + U) mod N + (W0 + T) mod N) in *.
  set (a := if available >? lenp then lenp else available).
  assert (0 <= a <= N /\ a <= T - U /\ a <= lenp) as (Ha1 & Ha2 & Ha3).
  { subst a. rewrite Z.gtb_ltb.
    destruct (lenp <? available) eqn:E;
      [apply Z.ltb_lt in E | apply Z.ltb_ge in E]; lia. }
  pose proof (Z.mod_pos_bound (W0 + U) N HN) as Hrb.
  destruct (copyLoop_spec mr.(buffer) ((W0 + U) mod N) a Hlen Hrb Ha1)
    as (out & Hloop & Hout & Hlook).
  rewrite Hloop, Hr. cbn [reader_closed negb].
  assert (Z.of_nat (length out) = a) as Hlout by lia.
  eexists out, _. split; [reflexivity |]. split; [| split].
  - constructor; cbn [setReaders bufferSize buffer closed writeIndex readers]; try done.
    + rewrite lookup_insert_eq. do 2 f_equal.
      rewrite Zplus_mod_idemp_l. f_equal. lia.
    + lia.
  - lia.
  - intros j Hj.
    destruct (streamIndex_bounds N T (U + j) HN ltac:(lia)) as [Hk1 Hk2].
    rewrite Hlook by lia.
    rewrite <- (Hc (streamIndex N T (U + j))) by lia.
    do 2 f_equal. rewrite Zplus_mod_idemp_l. unfold streamIndex.
    replace (W0 + (U + j + N * ((T - 1 - (U + j)) / N)))
      with (W0 + U + j + ((T - 1 - (U + j)) / N) * N) by lia.
    by rewrite Z.mod_add by lia.
Qed.

Lemma inv_waits mr W U :
  inv mr W U -> waits mr id = ((W0 + U) mod N =? mr.(writeIndex)).
Proof.
  intros Hinv. unfold waits.
  by rewrite (inv_reader _ _ _ Hinv), (inv_open _ _ _ Hinv).
Qed.

(** A read that finds data does not wait: how a wait would end is
    immaterial. *)
Lemma Read_data mr W U (lenp : Z) (wake : Wake) :
  inv mr W U -> waits mr id = false ->
  Read mr id lenp wake
  = readAvailable mr id lenp ((W0 + U) mod N) mr.(writeIndex) N
  /\ U < Z.of_nat (length W).
Proof.
  intros Hinv Hwait. rewrite (inv_waits _ _ _ Hinv) in Hwait.
  unfold Read.
  rewrite (inv_reader _ _ _ Hinv), (inv_open _ _ _ Hinv), (inv_size _ _ _ Hinv).
  cbn [reader_closed readIndex orb]. rewrite Hwait. split; [reflexivity |].
  apply Z.eqb_neq in Hwait.
  destruct (decide (U = Z.of_nat (length W))) as [-> | Hne].
  - by rewrite (inv_write _ _ _ Hinv) in Hwait.
  - pose proof (inv_U _ _ _ Hinv). lia.
Qed.

(** A read that waits and is signalled starts over from the state it finds. *)
Lemma Read_signalled mr W U (lenp : Z) mr2 W2 :
  inv mr W U -> waits mr id = true -> inv mr2 W2 U ->
  Read mr id lenp (Signalled mr2)
  = readAvailable mr2 id lenp ((W0 + U) mod N) mr2.(writeIndex) N.
Proof.
  intros Hinv Hwait Hinv2. rewrite (inv_waits _ _ _ Hinv) in Hwait.
  unfold Read.
  rewrite (inv_reader _ _ _ Hinv), (inv_open _ _ _ Hinv), (inv_size _ _ _ Hinv).
  cbn [reader_closed readIndex orb]. rewrite Hwait.
  rewrite (inv_reader _ _ _ Hinv2), (inv_open _ _ _ Hinv2).
  reflexivity.
Qed.

(** A wait that ends without a signal ends the read with [EOF]. *)
Lemma Read_no_signal mr W U (lenp : Z) (wake : Wake) :
  inv mr W U -> waits mr id = true ->
  wake = CtxDone \/ wake = TimedOut ->
  Read mr id lenp wake = Some (([], Some EOF), mr).
Proof.
  intros Hinv Hwait Hwake. rewrite (inv_waits _ _ _ Hinv) in Hwait.
  unfold Read.
  rewrite (inv_reader _ _ _ Hinv), (inv_open _ _ _ Hinv).
  cbn [reader_closed readIndex orb]. rewrite Hwait.
  by destruct Hwake as [-> | ->].
Qed.

Lemma inv_writeAll ps : forall mr W U,
  inv mr W U -> inv (writeAll mr ps) (W ++ concat ps) U.
Proof.
  induction ps as [| p ps IH]; intros mr W U Hinv; cbn [writeAll foldl concat].
  - by rewrite app_nil_r.
  - rewrite app_assoc. apply IH. by apply inv_Write.
Qed.

Lemma fresh_nil W U : fresh N {| entry_out := []; entry_written := W; entry_returned := U |}.
Proof. intros j Hj. cbn in Hj. lia. Qed.

(** Every run from a state that satisfies the invariant goes through, and
    each of its reads returns bytes of the stream. *)
Lemma exec_fresh evs : forall mr W U,
  inv mr W U -> dataWakes evs = true ->
  exists tr, exec id mr W U evs = Some tr /\ Forall (fresh N) tr.
Proof.
  induction evs as [| ev evs IH]; intros mr W U Hinv Hdata.
  { exists []. by split. }
  cbn [dataWakes forallb] in Hdata. apply andb_true_iff in Hdata as [Hev Hdata].
  destruct ev as [p | lenp w]; cbn [exec].
  - (* a write *)
    destruct (inv_Write mr W U p Hinv) as [Hres Hinv'].
    destruct (Write mr p) as [[n err] mr'] eqn:HW.
    cbn [fst snd] in Hres, Hinv'. injection Hres as -> ->.
    rewrite Nat2Z.id, firstn_all. by apply IH.
  - (* a read *)
    destruct (waits mr id) eqn:Hwait.
    + destruct w as [ps | |].
      * (* woken by a signal, after the writes [ps] *)
        pose proof (inv_writeAll ps mr W U Hinv) as Hinv2.
        cbn [wakeOf]. rewrite (Read_signalled mr W U _ _ _ Hinv Hwait Hinv2).
        assert (U < Z.of_nat (length (W ++ concat ps))) as HUT.
        { pose proof (inv_U _ _ _ Hinv). rewrite length_app.
          apply negb_true_iff, Nat.eqb_neq in Hev. lia. }
        destruct (readAvailable_spec _ _ _ (Z.of_nat lenp) Hinv2 HUT ltac:(lia))
          as (out & mr' & -> & Hinv' & _ & Hfresh).
        destruct (IH _ _ _ Hinv' Hdata) as (tr & -> & Htr).
        eexists. split; [reflexivity |]. by constructor.
      * rewrite (Read_no_signal mr W U _ _ Hinv Hwait) by (left; reflexivity).
        cbn [length]. rewrite Z.add_0_r.
        destruct (IH _ _ _ Hinv Hdata) as (tr & -> & Htr).
        eexists. split; [reflexivity |]. constructor; [apply fresh_nil | done].
      * rewrite (Read_no_signal mr W U _ _ Hinv Hwait) by (right; reflexivity).
        cbn [length]. rewrite Z.add_0_r.
        destruct (IH _ _ _ Hinv Hdata) as (tr & -> & Htr).
        eexists. split; [reflexivity |]. constructor; [apply fresh_nil | done].
    + (* data at hand *)
      destruct (Read_data mr W U (Z.of_nat lenp) (wakeOf mr w) Hinv Hwait)
        as [-> HUT].
      destruct (readAvailable_spec _ _ _ (Z.of_nat lenp) Hinv HUT ltac:(lia))
        as (out & mr' & -> & Hinv' & _ & Hfresh).
      assert (match w with
              | WSignal _ => W
              | _ => W
              end = W) as -> by by destruct w.
      destruct (IH _ _ _ Hinv' Hdata) as (tr & -> & Htr).
      eexists. split; [reflexivity |]. by constructor.
Qed.

End FanOut.

(** [CreateReader] on an id without an open reader registers a reader at
    the write index and establishes the invariant, with nothing written and
    nothing returned yet. *)
Lemma CreateReader_fresh (mr : MultiReader) (id : string) :
  wf mr -> hasOpenReader mr id = false ->
  let mr1 := (CreateReader mr id).2 in
  mr1.(readers) !! id
    = Some {| readIndex := mr.(writeIndex); reader_closed := false |}
  /\ mr1.(writeIndex) = mr.(writeIndex)
  /\ mr1.(buffer) = mr.(buffer)
  /\ inv mr.(bufferSize) mr.(writeIndex) id mr1 [] 0.
Proof.
  intros (Hsize & Hlen & Hw & Hopen) Hnone mr1.
  assert (mr1 = setReaders mr (<[id := {| readIndex := mr.(writeIndex);
                                           reader_closed := false |}]>
                                 (match mr.(readers) !! id with
                                  | Some _ => delete id mr.(readers)
                                  | None => mr.(readers)
                                  end))) as ->.
  { subst mr1. unfold CreateReader, hasOpenReader in *.
    destruct (mr.(readers) !! id) as [reader |]; [| reflexivity].
    by rewrite Hnone. }
  cbn [setReaders readers writeIndex buffer].
  rewrite lookup_insert_eq. repeat split; cbn [setReaders bufferSize buffer closed
    writeIndex readers length]; try done.
  - rewrite Z.add_0_r, Z.mod_small; done.
  - rewrite lookup_insert_eq, Z.add_0_r, Z.mod_small; done.
  - cbn in *. lia.
Qed.

(** C6 (as amended).  For every well-formed open buffer state and every
    reader id under which no open reader is registered: [CreateReader]
    registers a reader whose read position is the write index at that time
    and touches neither the buffer nor the write index; and in every run of
    writes and of reads of this reader that follows, in which a signal ends
    a wait only after a byte was written, each read returns only bytes
    written after the creation: byte [j] of a read is the byte at offset
    [streamIndex] of the stream written since then, never an earlier
    content of the buffer. *)
Theorem C6_createReader_starts_at_write_index (mr : MultiReader) (id : string) :
  wf mr -> hasOpenReader mr id = false ->
  let mr1 := (CreateReader mr id).2 in
  mr1.(readers) !! id
    = Some {| readIndex := mr.(writeIndex); reader_closed := false |}
  /\ mr1.(writeIndex) = mr.(writeIndex)
  /\ mr1.(buffer) = mr.(buffer)
  /\ forall evs : list event, dataWakes evs = true ->
       exists tr, exec id mr1 [] 0 evs = Some tr
                  /\ Forall (fresh mr.(bufferSize)) tr.
Proof.
  intros Hwf Hnone mr1.
  destruct (CreateReader_fresh mr id Hwf Hnone) as (Hreader & Hw & Hbuf & Hinv).
  fold mr1 in Hreader, Hw, Hbuf, Hinv.
  repeat (split; [assumption |]).
  intros evs Hdata.
  destruct Hwf as (Hsize & _ & Hwb & _).
  by eapply exec_fresh.
Qed.

(** The program keeps its buffers well formed. *)
Lemma wf_NewMultiReader : wf NewMultiReader.
Proof.
  unfold wf. cbn [NewMultiReader bufferSize buffer writeIndex closed].
  rewrite length_replicate. repeat split; lia.
Qed.

Lemma wf_CreateReader mr id : wf mr -> wf (CreateReader mr id).2.
Proof.
  intros Hwf. unfold CreateReader.
  destruct (mr.(readers) !! id) as [reader |]; [destruct (negb _) |]; exact Hwf.
Qed.

Lemma wf_writeByte mr b : wf mr -> wf (writeByte mr b).
Proof.
  intros (Hsize & Hlen & Hw & Hopen). unfold wf.
  cbn [writeByte bufferSize buffer writeIndex closed].
  rewrite length_insert, Z.rem_mod_nonneg by lia.
  pose proof (Z.mod_pos_bound (mr.(writeIndex) + 1) mr.(bufferSize) Hsize).
  repeat split; (assumption || lia).
Qed.

Lemma wf_Write mr p : wf mr -> wf (Write mr p).2.
Proof.
  intros Hwf. unfold Write.
  destruct Hwf as (Hsize & Hlen & Hw & Hopen). rewrite Hopen. cbn [snd].
  assert (wf mr) as Hwf by (unfold wf; auto).
  clear Hsize Hlen Hw Hopen. revert mr Hwf.
  induction p as [| b p IH]; intros mr Hwf; cbn [foldl]; [exact Hwf |].
  apply IH. by apply wf_writeByte.
Qed.

(** A run on a buffer of four bytes: the reader is created after three
    bytes; it then reads what is written later, across the wrap-around. *)
Example exec_small_buffer :
  let mr := {| buffer := replicate 4 x00; bufferSize := 4; writeIndex := 0;
               readers := ∅; closed := false |} in
  let mr := (Write mr [x01; x02; x03]).2 in
  let mr := (CreateReader mr "late").2 in
  option_map (map entry_out)
    (exec "late" mr [] 0
       [EvWrite [x04; x05]; EvRead 8 WTimedOut;
        EvRead 8 (WSignal [[x06; x07; x08]]); EvRead 1 WTimedOut])
  = Some [[x04; x05]; [x06; x07; x08]; []].
Proof. vm_compute. reflexivity. Qed.

(** Why a signal has to follow data: a reader that has read everything
    and is signalled with nothing written (a [Write] of no byte signals too)
    finds [writeIndex = readIndex], which [Read] takes for a full buffer.
    On four bytes: the reader is created after [1 2 3], the wait ends on an
    empty write, and the read returns the old contents of the buffer. *)
Example wake_without_data :
  let mr := {| buffer := replicate 4 x00; bufferSize := 4; writeIndex := 0;
               readers := ∅; closed := false |} in
  let mr := (Write mr [x01; x02; x03]).2 in
  let mr := (CreateReader mr "late").2 in
  option_map (map entry_out)
    (exec "late" mr [] 0 [EvRead 8 (WSignal [[]])])
  = Some [[x00; x01; x02; x03]].
Proof. vm_compute. reflexivity. Qed.

Lemma C6_witness :
  wf NewMultiReader /\ hasOpenReader NewMultiReader "listener-1" = false /\
  let mr1 := (CreateReader NewMultiReader "listener-1").2 in
  mr1.(readers) !! "listener-1"
    = Some {| readIndex := NewMultiReader.(writeIndex); reader_closed := false |}
  /\ mr1.(writeIndex) = NewMultiReader.(writeIndex)
  /\ mr1.(buffer) = NewMultiReader.(buffer)
  /\ forall evs : list event, dataWakes evs = true ->
       exists tr, exec "listener-1" mr1 [] 0 evs = Some tr
                  /\ Forall (fresh NewMultiReader.(bufferSize)) tr.
Proof.
  assert (hasOpenReader NewMultiReader "listener-1" = false) as Hnone
    by reflexivity.
  split; [exact wf_NewMultiReader |]. split; [exact Hnone |].
  exact (C6_createReader_starts_at_write_index NewMultiReader "listener-1"
           wf_NewMultiReader Hnone).
Defined.

(** C6, counterexample to the claim for every reader id: under an id that
    already has an open reader, [CreateReader] returns a client of that
    reader and leaves its read position where it was.  Here the reader was
    created before three bytes were written; created again with the same id
    it still stands at 0 while the write index is 3, and its read returns
    the three bytes written before this second creation. *)
Lemma C6_counterexample_existing_reader :
  let mr := (Write (CreateReader NewMultiReader "listener-1").2 [x01; x02; x03]).2 in
  let mr1 := (CreateReader mr "listener-1").2 in
  wf mr
  /\ mr.(writeIndex) = 3
  /\ mr1.(readers) !! "listener-1" = Some {| readIndex := 0; reader_closed := false |}
  /\ mr1.(readers) !! "listener-1"
     <> Some {| readIndex := mr.(writeIndex); reader_closed := false |}
  /\ option_map fst (Read mr1 "listener-1" 10 TimedOut)
     = Some ([x01; x02; x03], None).
Proof.
  cbn zeta. split; [| split; [| split; [| split]]].
  - apply wf_Write, wf_CreateReader, wf_NewMultiReader.
  - vm_compute. reflexivity.
  - vm_compute. reflexivity.
  - vm_compute. discriminate.
  - vm_compute. reflexivity.
Qed.

End Audio.

(** ** Package weather: the retry loop of the client *)

Module Weather.

Local Open Scope Z_scope.

Record WeatherConfig := {
  RefreshIntervalMinutes : Z;
  APIBaseURL : string;
  RequestTimeoutSeconds : Z;
  MaxRetries : Z;
  FetchMETAR : bool;
  FetchTAF : bool;
  FetchNOTAMs : bool;
  CacheExpiryMinutes : Z
}.

Definition DefaultWeatherConfig : WeatherConfig :=
  {| RefreshIntervalMinutes := 10;
     APIBaseURL := "https://node.windy.com/airports";
     RequestTimeoutSeconds := 10;
     MaxRetries := 2;
     FetchMETAR := true; FetchTAF := true; FetchNOTAMs := true;
     CacheExpiryMinutes := 15 |}.

Definition Millisecond : Z := 1000000.

(** What the vendor does with one request: the transport fails, or a
    response arrives with a status code and a body that decodes or not. *)
Inductive body (Data : Type) :=
  | Undecodable (err : string)
  | Decoded (data : Data).

Inductive response (Data : Type) :=
  | RequestFailed (err : string)
  | Response (code : Z) (b : body Data).

Arguments Undecodable {Data} err.
Arguments Decoded {Data} data.
Arguments RequestFailed {Data} err.
Arguments Response {Data} code b.

(** The errors [fetchWithRetry] builds. *)
Inductive fetchError :=
  | ErrRequest (err : string)
  | ErrStatusCode (code : Z)
  | ErrDecode (err : string).

(** What the function does to the outside: it sleeps and it sends requests. *)
Inductive action :=
  | Sleep (d : Z)
  | Get (url : string).

(** [time.Duration(500*(1<<uint(attempt-1))) * time.Millisecond], in 64-bit
    arithmetic. *)
Definition backoffDuration (attempt : Z) : Z :=
  GoInt.mul64 (GoInt.mul64 500 (GoInt.shl64 1 (GoInt.uint64 (attempt - 1))))
              Millisecond.

(** The error an attempt ends with, if it fails. *)
Definition failure {Data} (r : response Data) : option fetchError :=
  match r with
  | RequestFailed err => Some (ErrRequest err)
  | Response code b =>
      if negb (code =? 200) then Some (ErrStatusCode code)
      else match b with
           | Undecodable err => Some (ErrDecode err)
           | Decoded _ => None
           end
  end.

(** The actions of attempt [k], and of the first [n] attempts. *)
Definition attemptActions (url : string) (k : Z) : list action :=
  (if k >? 0 then [Sleep (backoffDuration k)] else []) ++ [Get url].

Definition traceOf (url : string) (n : Z) : list action :=
  flat_map (attemptActions url) (seqZ 0 n).

Section Fetch.

Variable Data : Type.

(** The vendor, by attempt. *)
Variable http : Z -> response Data.

Variable config : WeatherConfig.

(** The loop of [fetchWithRetry], from [attempt] on.  [None] when the fuel
    runs out before the loop ends. *)
Fixpoint attempts (fuel : nat) (url : string) (attempt : Z)
    (lastErr : option fetchError) (trace : list action)
    : option ((option Data * option fetchError) * list action) :=
  match fuel with
  | O => None
  | S fuel =>
      if attempt <=? config.(MaxRetries) then
        let trace :=
          if attempt >? 0 then trace ++ [Sleep (backoffDuration attempt)]
          else trace in
        let trace := trace ++ [Get url] in
        let next := GoInt.add64 attempt 1 in
        match http attempt with
        | RequestFailed err =>
            attempts fuel url next (Some (ErrRequest err)) trace
        | Response code b =>
            if negb (code =? 200)
            then attempts fuel url next (Some (ErrStatusCode code)) trace
            else
              match b with
              | Undecodable err =>
                  attempts fuel url next (Some (ErrDecode err)) trace
              | Decoded data => Some ((Some data, None), trace)
              end
        end
      else Some ((None, lastErr), trace)
  end.

(** [fetchWithRetry]: the data, the error, and the actions performed. *)
Definition fetchWithRetry (url : string)
    : option ((option Data * option fetchError) * list action) :=
  attempts (S (S (Z.to_nat config.(MaxRetries)))) url 0 None [].

Lemma traceOf_succ url (a : Z) :
  0 <= a -> traceOf url (a + 1) = traceOf url a ++ attemptActions url a.
Proof.
  intros Ha. unfold traceOf.
  rewrite seqZ_app by lia. rewrite flat_map_app.
  f_equal. rewrite seqZ_cons by lia. rewrite seqZ_nil by lia.
  cbn [flat_map]. by rewrite app_nil_r, Z.add_0_l.
Qed.

Lemma attempts_step_trace url (a : Z) :
  0 <= a ->
  (if a >? 0 then traceOf url a ++ [Sleep (backoffDuration a)] else traceOf url a)
    ++ [Get url]
  = traceOf url (a + 1).
Proof.
  intros Ha. rewrite traceOf_succ by lia. unfold attemptActions.
  destruct (a >? 0); [by rewrite <- app_assoc | reflexivity].
Qed.

(** The loop from attempt [a], when the attempts before [a] have failed. *)
Lemma attempts_spec url (m : nat) : forall (a : Z) (fuel : nat) lastErr,
  a = config.(MaxRetries) + 1 - Z.of_nat m -> 0 <= a ->
  config.(MaxRetries) < 2 ^ 63 - 1 ->
  (m < fuel)%nat ->
  (forall k, 0 <= k < a -> failure (http k) <> None) ->
  (0 < a -> lastErr = failure (http (a - 1))) ->
  exists n res,
    attempts fuel url a lastErr (traceOf url a) = Some (res, traceOf url n)
    /\ a <= n <= config.(MaxRetries) + 1
    /\ (a <= config.(MaxRetries) -> a < n)
    /\ (forall k, 0 <= k < n - 1 -> failure (http k) <> None)
    /\ (0 < n ->
        match failure (http (n - 1)) with
        | None => exists d, http (n - 1) = Response 200 (Decoded d)
                            /\ res = (Some d, None)
        | Some e => n = config.(MaxRetries) + 1 /\ res = (None, Some e)
        end).
Proof.
  induction m as [| m IH]; intros a fuel lastErr Ha Ha0 Hmax Hfuel Hfail Hlast.
  - (* the bound is passed: the loop ends *)
    destruct fuel as [| fuel]; [lia |]. cbn [attempts].
    assert ((a <=? config.(MaxRetries)) = false) as -> by (apply Z.leb_gt; lia).
    exists a, (None, lastErr). split; [reflexivity |]. split; [lia |].
    split; [lia |].
    split; [intros k Hk; apply Hfail; lia |].
    intros Hpos. specialize (Hlast Hpos).
    destruct (failure (http (a - 1))) as [e |] eqn:He.
    + split; [lia | by rewrite Hlast].
    + exfalso. apply (Hfail (a - 1)); [lia | exact He].
  - destruct fuel as [| fuel]; [lia |]. cbn [attempts].
    assert ((a <=? config.(MaxRetries)) = true) as -> by (apply Z.leb_le; lia).
    rewrite attempts_step_trace by lia.
    assert (GoInt.add64 a 1 = a + 1) as Hnext.
    { unfold GoInt.add64. apply GoInt.wrap64_small. lia. }
    rewrite Hnext.
    assert (forall e, failure (http a) = Some e ->
              exists n res,
                attempts fuel url (a + 1) (Some e) (traceOf url (a + 1))
                  = Some (res, traceOf url n)
                /\ a <= n <= config.(MaxRetries) + 1
                /\ (a <= config.(MaxRetries) -> a < n)
                /\ (forall k, 0 <= k < n - 1 -> failure (http k) <> None)
                /\ (0 < n ->
                    match failure (http (n - 1)) with
                    | None => exists d, http (n - 1) = Response 200 (Decoded d)
                                        /\ res = (Some d, None)
                    | Some e => n = config.(MaxRetries) + 1 /\ res = (None, Some e)
                    end)) as Hrec.
    { intros e He.
      destruct (IH (a + 1) fuel (Some e))
        as (n & res & Hrun & Hn & _ & Hprev & Hres); try lia.
      - intros k Hk. destruct (decide (k = a)) as [-> | Hne].
        + by rewrite He.
        + apply Hfail. lia.
      - intros _. replace (a + 1 - 1) with a by lia. by rewrite He.
      - exists n, res. repeat split; (assumption || lia). }
    destruct (http a) as [err | code b] eqn:Hhttp.
    + by apply Hrec.
    + cbn [failure] in Hrec. destruct (negb (code =? 200)) eqn:Hcode.
      * by apply Hrec.
      * destruct b as [err | data].
        -- by apply Hrec.
        -- exists (a + 1), (Some data, None). split; [reflexivity |].
           split; [lia |]. split; [lia |]. split.
           ++ intros k Hk. apply Hfail. lia.
           ++ intros _. replace (a + 1 - 1) with a by lia.
              rewrite Hhttp. cbn [failure]. rewrite Hcode.
              apply negb_false_iff, Z.eqb_eq in Hcode. subst code.
              by exists data.
Qed.

End Fetch.

(** Up to the 35th retry the delay is [500 ms * 2^(attempt - 1)] as a
    number of nanoseconds; it fits in 64 bits. *)
Lemma backoffDuration_exact (attempt : Z) :
  1 <= attempt <= 35 ->
  backoffDuration attempt = 500 * 2 ^ (attempt - 1) * Millisecond.
Proof.
  intros Ha. unfold backoffDuration, GoInt.mul64, GoInt.shl64, GoInt.uint64.
  assert (1 <= 2 ^ (attempt - 1) <= 2 ^ 34) as Hpow.
  { split.
    - apply (Z.pow_le_mono_r 2 0 (attempt - 1)); lia.
    - apply Z.pow_le_mono_r; lia. }
  change (2 ^ 34) with 17179869184 in Hpow.
  rewrite (Z.mod_small (attempt - 1)) by lia.
  rewrite Z.shiftl_mul_pow2, Z.mul_1_l by lia.
  unfold Millisecond.
  set (p := 2 ^ (attempt - 1)) in *.
  rewrite (GoInt.wrap64_small p) by lia.
  rewrite (GoInt.wrap64_small (500 * p)) by lia.
  rewrite GoInt.wrap64_small by lia.
  reflexivity.
Qed.


Definition alwaysDown : Z -> response string :=
  fun _ => RequestFailed "connection refused".


(** With the default configuration and a vendor that is down: three
    requests, 500 ms and 1 s apart, then the last error. *)
Example fetchWithRetry_default_down :
  fetchWithRetry string alwaysDown DefaultWeatherConfig "u"
  = Some ((None, Some (ErrRequest "connection refused")),
          [Get "u"; Sleep 500000000; Get "u"; Sleep 1000000000; Get "u"]).
Proof. vm_compute. reflexivity. Qed.



End Weather.

(** ** Package transcription: the post-processor's batch step *)

Module Transcription.

Local Open Scope Z_scope.

(** *** The stores *)

Record TranscriptionRecord := {
  ID : Z;
  FrequencyID : string;
  CreatedAt : Z;
  Content : string;
  IsProcessed : bool;
  ContentProcessed : string;
  SpeakerType : string;
  Callsign : string
}.

Record ExtractedClearance := {
  ecCallsign : string;
  ecType : string;
  ecText : string;
  ecRunway : string
}.

Record ClearanceRecord := {
  crID : Z;
  crTranscriptionID : Z;
  crCallsign : string;
  crClearanceType : string;
  crClearanceText : string;
  crRunway : string;
  crTimestamp : Z;
  crStatus : string;
  crCreatedAt : Z
}.

(** Stable insertion by creation time. *)
Fixpoint insertByCreatedAt (r : TranscriptionRecord) (l : list TranscriptionRecord)
    : list TranscriptionRecord :=
  match l with
  | [] => [r]
  | x :: l' =>
      if r.(CreatedAt) <? x.(CreatedAt) then r :: l
      else x :: insertByCreatedAt r l'
  end.

Definition oldestFirst (l : list TranscriptionRecord) : list TranscriptionRecord :=
  foldr insertByCreatedAt [] l.

(** Modelled from the spec: [sqlite.TranscriptionStorage] is not among the
    sources.  The table of transcriptions is the list of its rows.  The
    specification has the post-processor "fetch up to [batchSize]
    transcription records with [is_processed=false], oldest first". *)
Definition GetUnprocessedTranscriptions (rows : list TranscriptionRecord) (limit : Z)
    : list TranscriptionRecord :=
  take (Z.to_nat limit) (oldestFirst (filter (fun r => r.(IsProcessed) = false) rows)).

(** Modelled from the spec: "fetch the last [contextTranscriptions]
    already-processed records on the same frequency". *)
Definition GetLastProcessedTranscriptions (rows : list TranscriptionRecord)
    (frequencyID : string) (limit : Z) : list TranscriptionRecord :=
  take (Z.to_nat limit)
       (reverse (oldestFirst
                   (filter (fun r => r.(IsProcessed) = true
                                     /\ r.(FrequencyID) = frequencyID) rows))).

Definition setProcessed (contentProcessed speakerType callsign : string)
    (r : TranscriptionRecord) : TranscriptionRecord :=
  {| ID := r.(ID); FrequencyID := r.(FrequencyID); CreatedAt := r.(CreatedAt);
     Content := r.(Content); IsProcessed := true;
     ContentProcessed := contentProcessed; SpeakerType := speakerType;
     Callsign := callsign |}.

(** Modelled from the spec: "update the transcription row atomically with
    the three fields and mark processed"; an update is the only change a
    row undergoes.  The result carries the error of the program's signature;
    the specification describes no failure of the store. *)
Definition UpdateProcessedTranscription (rows : list TranscriptionRecord)
    (id : Z) (contentProcessed speakerType callsign : string)
    : option string * list TranscriptionRecord :=
  (None,
   map (fun r => if r.(ID) =? id
                 then setProcessed contentProcessed speakerType callsign r
                 else r) rows).

(** [ClearanceStorage.StoreClearance]: an insert into a table whose key
    auto-increments; the new id is returned. *)
Record ClearanceStorage := {
  clearances : list ClearanceRecord;
  lastClearanceID : Z
}.

Definition StoreClearance (s : ClearanceStorage) (record : ClearanceRecord)
    : (Z * option string) * ClearanceStorage :=
  let id := s.(lastClearanceID) + 1 in
  let row :=
    {| crID := id; crTranscriptionID := record.(crTranscriptionID);
       crCallsign := record.(crCallsign);
       crClearanceType := record.(crClearanceType);
       crClearanceText := record.(crClearanceText);
       crRunway := record.(crRunway); crTimestamp := record.(crTimestamp);
       crStatus := record.(crStatus); crCreatedAt := record.(crCreatedAt) |} in
  ((id, None), {| clearances := s.(clearances) ++ [row]; lastClearanceID := id |}).

(** *** The post-processor *)

Record PostProcessingConfig := {
  Enabled : bool;
  Model : string;
  IntervalSeconds : Z;
  BatchSize : Z;
  ContextTranscriptions : Z;
  SystemPromptPath : string;
  TimeoutSeconds : Z
}.

Record TranscriptionBatch := {
  tbID : Z;
  tbContent : string;
  tbContentProcessed : string;
  tbSpeakerType : string;
  tbCallsign : string;
  tbClearances : list ExtractedClearance;
  tbTimestamp : Z
}.

(** The messages the post-processor broadcasts. *)
Inductive Message :=
  | clearance_issued (c : ClearanceRecord)
  | transcription_update (r : TranscriptionRecord).

(** What a batch step reads and changes: the two tables and the messages
    sent to the WebSocket clients. *)
Record World := {
  transcriptions : list TranscriptionRecord;
  clearanceStorage : ClearanceStorage;
  broadcasts : list Message
}.

Inductive error :=
  | ErrMarshal
  | ErrRender (msg : string)
  | ErrPostProcess (msg : string).

Record PostProcessor := {
  config : PostProcessingConfig;
  batchSize : Z;
  frequencyNames : gmap string string
}.

Definition getFrequencyName (p : PostProcessor) (frequencyID : string) : string :=
  match p.(frequencyNames) !! frequencyID with
  | Some name => name
  | None => frequencyID
  end.

(** [sortBatchByTimestamp].  [sort.Slice] is not stable; the model keeps
    the order of entries with equal timestamps. *)
Fixpoint insertByTimestamp (b : TranscriptionBatch) (l : list TranscriptionBatch)
    : list TranscriptionBatch :=
  match l with
  | [] => [b]
  | x :: l' =>
      if b.(tbTimestamp) <? x.(tbTimestamp) then b :: l
      else x :: insertByTimestamp b l'
  end.

Definition sortBatchByTimestamp (batch : list TranscriptionBatch) : list TranscriptionBatch :=
  foldr insertByTimestamp [] batch.

Definition contextEntry (record : TranscriptionRecord) : TranscriptionBatch :=
  {| tbID := record.(ID); tbContent := record.(Content);
     tbContentProcessed := record.(ContentProcessed);
     tbSpeakerType := record.(SpeakerType); tbCallsign := record.(Callsign);
     tbClearances := []; tbTimestamp := record.(CreatedAt) |}.

Definition newEntry (record : TranscriptionRecord) : TranscriptionBatch :=
  {| tbID := record.(ID); tbContent := record.(Content);
     tbContentProcessed := ""; tbSpeakerType := ""; tbCallsign := "";
     tbClearances := []; tbTimestamp := record.(CreatedAt) |}.

(** The loop "mark all records as failed to prevent infinite retry". *)
Definition markFailed (rows : list TranscriptionRecord)
    (records : list TranscriptionRecord) (sentinel : string)
    : list TranscriptionRecord :=
  foldl (fun rows record =>
           match UpdateProcessedTranscription rows record.(ID) sentinel "UNKNOWN" "" with
           | (Some updateErr, rows) => rows
           | (None, rows) => rows
           end) rows records.

Section Step.

(** The collaborators of a step: the template renderer, the marshaller of
    the batch, the language model, the clock. *)
Variable RenderPostProcessorTemplate : string -> string + string.
Variable MarshalIndent : list TranscriptionBatch -> option string.
Variable PostProcessBatch : string -> string -> string -> list TranscriptionBatch + string.
Variable now : Z.

Definition processBatch (p : PostProcessor) (systemPrompt userInput : string)
    : list TranscriptionBatch + error :=
  match PostProcessBatch systemPrompt userInput p.(config).(Model) with
  | inr err => inr (ErrPostProcess err)
  | inl results => inl results
  end.

Definition userInputOf (frequencyName batchJSON : string) : string :=
  ("Radio Frequency:" ++ String "010" frequencyName ++ String "010" (String "010"
     ("Transmissions Log:" ++ String "010" batchJSON)))%string.

(** The clearances of one result: each is stored and broadcast. *)
Definition storeClearances (w : World) (result : TranscriptionBatch) : World :=
  foldl (fun w clearance =>
           let clearanceRecord :=
             {| crID := 0; crTranscriptionID := result.(tbID);
                crCallsign := clearance.(ecCallsign);
                crClearanceType := clearance.(ecType);
                crClearanceText := clearance.(ecText);
                crRunway := clearance.(ecRunway);
                crTimestamp := result.(tbTimestamp);
                crStatus := "issued"; crCreatedAt := now |} in
           match StoreClearance w.(clearanceStorage) clearanceRecord with
           | ((_, Some err), _) => w
           | ((clearanceID, None), storage) =>
               let clearanceRecord :=
                 {| crID := clearanceID;
                    crTranscriptionID := clearanceRecord.(crTranscriptionID);
                    crCallsign := clearanceRecord.(crCallsign);
                    crClearanceType := clearanceRecord.(crClearanceType);
                    crClearanceText := clearanceRecord.(crClearanceText);
                    crRunway := clearanceRecord.(crRunway);
                    crTimestamp := clearanceRecord.(crTimestamp);
                    crStatus := clearanceRecord.(crStatus);
                    crCreatedAt := clearanceRecord.(crCreatedAt) |} in
               {| transcriptions := w.(transcriptions);
                  clearanceStorage := storage;
                  broadcasts := w.(broadcasts) ++ [clearance_issued clearanceRecord] |}
           end) w result.(tbClearances).

(** The body of the loop over the results of the language model. *)
Definition applyResult (records contextRecords : list TranscriptionRecord)
    (w : World) (result : TranscriptionBatch) : World :=
  if String.eqb result.(tbContentProcessed) "" then w
  else if existsb (fun contextRecord => contextRecord.(ID) =? result.(tbID)) contextRecords
  then w
  else
    match UpdateProcessedTranscription w.(transcriptions) result.(tbID)
            result.(tbContentProcessed) result.(tbSpeakerType) result.(tbCallsign) with
    | (Some err, _) => w
    | (None, rows) =>
        let w := {| transcriptions := rows;
                    clearanceStorage := w.(clearanceStorage);
                    broadcasts := w.(broadcasts) |} in
        let w :=
          if String.eqb result.(tbSpeakerType) "ATC"
             && (0 <? Z.of_nat (length result.(tbClearances)))
          then storeClearances w result
          else w in
        match find (fun r => r.(ID) =? result.(tbID)) records with
        | None => w
        | Some record =>
            let record :=
              setProcessed result.(tbContentProcessed) result.(tbSpeakerType)
                           result.(tbCallsign) record in
            {| transcriptions := w.(transcriptions);
               clearanceStorage := w.(clearanceStorage);
               broadcasts := w.(broadcasts) ++ [transcription_update record] |}
        end
    end.

Definition withTranscriptions (w : World) (rows : list TranscriptionRecord) : World :=
  {| transcriptions := rows; clearanceStorage := w.(clearanceStorage);
     broadcasts := w.(broadcasts) |}.

(** The inputs of a step, as [processNextBatch] computes them: the batch
    of unprocessed records, the context records, the batch submitted. *)
Definition pendingRecords (p : PostProcessor) (w : World) : list TranscriptionRecord :=
  GetUnprocessedTranscriptions w.(transcriptions) p.(batchSize).

Definition contextRecordsFor (p : PostProcessor) (w : World) (frequencyID : string)
    : list TranscriptionRecord :=
  if negb (String.eqb frequencyID "") && (0 <? p.(config).(ContextTranscriptions))
  then GetLastProcessedTranscriptions w.(transcriptions) frequencyID
         p.(config).(ContextTranscriptions)
  else [].

Definition batchFor (contextRecords records : list TranscriptionRecord)
    : list TranscriptionBatch :=
  let batch := map contextEntry contextRecords ++ map newEntry records in
  sortBatchByTimestamp batch.

(** [processNextBatch]: the error returned and the world after the step. *)
Definition processNextBatch (p : PostProcessor) (w : World) : option error * World :=
  let records := pendingRecords p w in
  match records with
  | [] => (None, w)
  | first :: _ =>
      let frequencyID := first.(FrequencyID) in
      let frequencyName := getFrequencyName p frequencyID in
      let contextRecords := contextRecordsFor p w frequencyID in
      let batch := batchFor contextRecords records in
      match MarshalIndent batch with
      | None => (Some ErrMarshal, w)
      | Some batchJSON =>
          match RenderPostProcessorTemplate p.(config).(SystemPromptPath) with
          | inr err =>
              (Some (ErrRender err),
               withTranscriptions w
                 (markFailed w.(transcriptions) records "[TEMPLATE_RENDER_FAILED]"))
          | inl systemPrompt =>
              let userInput := userInputOf frequencyName batchJSON in
              match processBatch p systemPrompt userInput with
              | inr err =>
                  (Some err,
                   withTranscriptions w
                     (markFailed w.(transcriptions) records "[PROCESSING_FAILED]"))
              | inl [] =>
                  (None,
                   withTranscriptions w
                     (markFailed w.(transcriptions) records "[NO_RESULTS_FROM_API]"))
              | inl results =>
                  (None, foldl (applyResult records contextRecords) w results)
              end
          end
      end
  end.

(** The three ways a submitted batch is poisoned. *)
Inductive poison :=
  | TemplateRenderFailed
  | ProcessingFailed
  | NoResultsFromAPI.

Definition sentinel (k : poison) : string :=
  match k with
  | TemplateRenderFailed => "[TEMPLATE_RENDER_FAILED]"
  | ProcessingFailed => "[PROCESSING_FAILED]"
  | NoResultsFromAPI => "[NO_RESULTS_FROM_API]"
  end.

(** The step on [w] runs into [k]: there are unprocessed records, the
    batch is marshalled, and the template fails to render, or it renders and the call to the language
    model fails or returns no result. *)
Definition poisoned (k : poison) (p : PostProcessor) (w : World) : Prop :=
  match pendingRecords p w with
  | [] => False
  | first :: _ =>
      let frequencyID := first.(FrequencyID) in
      let batch := batchFor (contextRecordsFor p w frequencyID) (pendingRecords p w) in
      exists batchJSON, MarshalIndent batch = Some batchJSON /\
        match k with
        | TemplateRenderFailed =>
            exists err, RenderPostProcessorTemplate p.(config).(SystemPromptPath) = inr err
        | ProcessingFailed =>
            exists systemPrompt err,
              RenderPostProcessorTemplate p.(config).(SystemPromptPath) = inl systemPrompt
              /\ PostProcessBatch systemPrompt
                   (userInputOf (getFrequencyName p frequencyID) batchJSON)
                   p.(config).(Model) = inr err
        | NoResultsFromAPI =>
            exists systemPrompt,
              RenderPostProcessorTemplate p.(config).(SystemPromptPath) = inl systemPrompt
              /\ PostProcessBatch systemPrompt
                   (userInputOf (getFrequencyName p frequencyID) batchJSON)
                   p.(config).(Model) = inl []
        end
  end.

(** What the marking loop leaves in the table. *)
Definition inBatch (records : list TranscriptionRecord) (row : TranscriptionRecord) : bool :=
  existsb (fun record => row.(ID) =? record.(ID)) records.

Lemma setProcessed_idem c s cs r :
  setProcessed c s cs (setProcessed c s cs r) = setProcessed c s cs r.
Proof. reflexivity. Qed.

Lemma markFailed_map (records : list TranscriptionRecord) (sentinel : string) :
  forall rows,
    markFailed rows records sentinel
    = map (fun row => if inBatch records row
                      then setProcessed sentinel "UNKNOWN" "" row
                      else row) rows.
Proof.
  unfold markFailed.
  induction records as [| record records IH]; intros rows; cbn [foldl].
  - cbn [inBatch existsb]. by rewrite map_id.
  - cbn [UpdateProcessedTranscription]. rewrite IH, map_map.
    apply map_ext. intros row. cbn [inBatch existsb].
    destruct (row.(ID) =? record.(ID)) eqn:Hid; cbn [orb].
    + unfold inBatch. cbn [setProcessed ID].
      destruct (existsb _ records); reflexivity.
    + reflexivity.
Qed.

Lemma inBatch_elem (records : list TranscriptionRecord) (row : TranscriptionRecord) :
  inBatch records row = true <-> exists r, r ∈ records /\ row.(ID) = r.(ID).
Proof.
  unfold inBatch. rewrite existsb_exists. split.
  - intros (r & Hin & Heq). exists r. split; [by apply list_elem_of_In |].
    by apply Z.eqb_eq.
  - intros (r & Hin & Heq). exists r. split; [by apply list_elem_of_In |].
    by apply Z.eqb_eq.
Qed.

Lemma elem_of_insertByCreatedAt x r l :
  x ∈ insertByCreatedAt r l -> x = r \/ x ∈ l.
Proof.
  induction l as [| y l IH]; cbn [insertByCreatedAt].
  - intros H. apply list_elem_of_singleton in H. by left.
  - destruct (r.(CreatedAt) <? y.(CreatedAt)).
    + intros H. apply elem_of_cons in H as [-> | H]; [by left | by right].
    + intros H. apply elem_of_cons in H as [-> | H].
      * right. by left.
      * destruct (IH H) as [-> | Hin]; [by left | right; by right].
Qed.

Lemma elem_of_oldestFirst x l : x ∈ oldestFirst l -> x ∈ l.
Proof.
  unfold oldestFirst. induction l as [| y l IH]; cbn [foldr]; [done |].
  intros H. apply elem_of_insertByCreatedAt in H as [-> | H].
  - by left.
  - right. by apply IH.
Qed.

(** What [GetUnprocessedTranscriptions] returns is an unprocessed row of
    the table. *)
Lemma GetUnprocessedTranscriptions_elem rows limit r :
  r ∈ GetUnprocessedTranscriptions rows limit ->
  r ∈ rows /\ r.(IsProcessed) = false.
Proof.
  unfold GetUnprocessedTranscriptions. intros H.
  apply subseteq_take, elem_of_oldestFirst, list_elem_of_filter in H.
  by destruct H.
Qed.

(** After the marking loop: the rows of the batch carry the sentinel, the
    other rows are as before, and no row of the batch is unprocessed. *)
Lemma markFailed_rows rows records sentinel row' :
  row' ∈ markFailed rows records sentinel ->
  exists row, row ∈ rows /\ row'.(ID) = row.(ID) /\
    if inBatch records row
    then row' = setProcessed sentinel "UNKNOWN" "" row
    else row' = row.
Proof.
  rewrite markFailed_map. intros H.
  apply list_elem_of_In, in_map_iff in H as (row & <- & Hin).
  exists row. split; [by apply list_elem_of_In |].
  destruct (inBatch records row); by split.
Qed.

Lemma markFailed_ids rows records sentinel :
  map ID (markFailed rows records sentinel) = map ID rows.
Proof.
  rewrite markFailed_map, map_map. apply map_ext. intros row.
  by destruct (inBatch records row).
Qed.

(** The world after a poisoned step. *)
Lemma processNextBatch_poisoned (k : poison) (p : PostProcessor) (w : World) :
  poisoned k p w ->
  (processNextBatch p w).2.(transcriptions)
  = markFailed w.(transcriptions) (pendingRecords p w) (sentinel k)
  /\ (processNextBatch p w).2.(clearanceStorage) = w.(clearanceStorage)
  /\ (processNextBatch p w).2.(broadcasts) = w.(broadcasts).
Proof.
  unfold poisoned, processNextBatch.
  destruct (pendingRecords p w) as [| first records] eqn:Hrec; [done |].
  cbn zeta. intros (batchJSON & -> & Hk).
  destruct k.
  - destruct Hk as (err & ->). by cbn.
  - destruct Hk as (systemPrompt & err & -> & Hllm).
    unfold processBatch. rewrite Hllm. by cbn.
  - destruct Hk as (systemPrompt & -> & Hllm).
    unfold processBatch. rewrite Hllm. by cbn.
Qed.

End Step.

(** C1.  For every batch tick that finds unprocessed records: if the
    system prompt template fails to render, every record of the batch is updated with processed text
    [[TEMPLATE_RENDER_FAILED]] and speaker [UNKNOWN]; if the call to the
    language model fails, with [[PROCESSING_FAILED]]; if it succeeds with an
    empty list of results, with [[NO_RESULTS_FROM_API]].  In the three cases
    every row of the batch is marked processed, the table keeps its rows,
    and the next tick, whatever its batch size, picks up none of them. *)
Theorem C1_poisoned_batch_marked_processed
    (RenderPostProcessorTemplate : string -> string + string)
    (MarshalIndent : list TranscriptionBatch -> option string)
    (PostProcessBatch : string -> string -> string -> list TranscriptionBatch + string)
    (now : Z) (k : poison) (p : PostProcessor) (w : World) :
  poisoned RenderPostProcessorTemplate MarshalIndent PostProcessBatch k p w ->
  let records := pendingRecords p w in
  let w' := (processNextBatch RenderPostProcessorTemplate MarshalIndent
               PostProcessBatch now p w).2 in
  map ID w'.(transcriptions) = map ID w.(transcriptions)
  /\ (forall record row,
        record ∈ records -> row ∈ w'.(transcriptions) ->
        row.(ID) = record.(ID) ->
        row.(ContentProcessed) = sentinel k
        /\ row.(SpeakerType) = "UNKNOWN"
        /\ row.(IsProcessed) = true)
  /\ (forall (limit : Z) (next record : TranscriptionRecord),
        next ∈ GetUnprocessedTranscriptions w'.(transcriptions) limit ->
        record ∈ records -> next.(ID) <> record.(ID)).
Proof.
  intros Hk records w'.
  destruct (processNextBatch_poisoned _ _ _ now k p w Hk) as (Hrows & _ & _).
  fold w' in Hrows. fold records in Hrows.
  assert (forall record row,
            record ∈ records -> row ∈ w'.(transcriptions) ->
            row.(ID) = record.(ID) ->
            row.(ContentProcessed) = sentinel k
            /\ row.(SpeakerType) = "UNKNOWN"
            /\ row.(IsProcessed) = true) as Hmarked.
  { intros record row Hrec Hrow Hid. rewrite Hrows in Hrow.
    apply markFailed_rows in Hrow as (row0 & _ & Hid0 & Hcase).
    assert (inBatch records row0 = true) as Hin.
    { apply inBatch_elem. exists record. split; [done | congruence]. }
    rewrite Hin in Hcase. by subst row. }
  split; [| split].
  - rewrite Hrows. apply markFailed_ids.
  - exact Hmarked.
  - intros limit next record Hnext Hrec Hid.
    apply GetUnprocessedTranscriptions_elem in Hnext as [Hin Hunp].
    destruct (Hmarked record next Hrec Hin Hid) as (_ & _ & Hproc).
    congruence.
Qed.

(** The fourth scenario of the specification: the language model answers
    every request with an error. *)
Definition sampleRows : list TranscriptionRecord :=
  [ {| ID := 1; FrequencyID := "twr"; CreatedAt := 100; Content := "cleared to land";
       IsProcessed := true; ContentProcessed := "Cleared to land.";
       SpeakerType := "ATC"; Callsign := "ACA123" |};
    {| ID := 2; FrequencyID := "twr"; CreatedAt := 130; Content := "three one zero";
       IsProcessed := false; ContentProcessed := ""; SpeakerType := "";
       Callsign := "" |};
    {| ID := 3; FrequencyID := "twr"; CreatedAt := 120; Content := "roger";
       IsProcessed := false; ContentProcessed := ""; SpeakerType := "";
       Callsign := "" |};
    {| ID := 4; FrequencyID := "twr"; CreatedAt := 140; Content := "say again";
       IsProcessed := false; ContentProcessed := ""; SpeakerType := "";
       Callsign := "" |} ].

Definition sampleWorld : World :=
  {| transcriptions := sampleRows;
     clearanceStorage := {| clearances := []; lastClearanceID := 0 |};
     broadcasts := [] |}.

Definition sampleProcessor : PostProcessor :=
  {| config := {| Enabled := true; Model := "gpt"; IntervalSeconds := 5;
                  BatchSize := 2; ContextTranscriptions := 5;
                  SystemPromptPath := "prompt.txt"; TimeoutSeconds := 30 |};
     batchSize := 2;
     frequencyNames := {["twr" := "Tower"]} |}.

Definition renderOk : string -> string + string := fun _ => inl "system prompt".
Definition marshalOk : list TranscriptionBatch -> option string := fun _ => Some "[]".
Definition modelDown : string -> string -> string -> list TranscriptionBatch + string :=
  fun _ _ _ => inr "status 500".

Example processNextBatch_model_down :
  let w' := (processNextBatch renderOk marshalOk modelDown 0 sampleProcessor sampleWorld).2 in
  map (fun r => (r.(ID), r.(IsProcessed), r.(ContentProcessed), r.(SpeakerType)))
      w'.(transcriptions)
  = [(1, true, "Cleared to land.", "ATC");
     (2, true, "[PROCESSING_FAILED]", "UNKNOWN");
     (3, true, "[PROCESSING_FAILED]", "UNKNOWN");
     (4, false, "", "")]
  /\ map ID (pendingRecords sampleProcessor w') = [4].
Proof. split; vm_compute; reflexivity. Qed.

Lemma C1_witness :
  poisoned renderOk marshalOk modelDown ProcessingFailed sampleProcessor sampleWorld /\
  let records := pendingRecords sampleProcessor sampleWorld in
  let w' := (processNextBatch renderOk marshalOk modelDown 0 sampleProcessor sampleWorld).2 in
  map ID w'.(transcriptions) = map ID sampleWorld.(transcriptions)
  /\ (forall record row,
        record ∈ records -> row ∈ w'.(transcriptions) ->
        row.(ID) = record.(ID) ->
        row.(ContentProcessed) = sentinel ProcessingFailed
        /\ row.(SpeakerType) = "UNKNOWN"
        /\ row.(IsProcessed) = true)
  /\ (forall (limit : Z) (next record : TranscriptionRecord),
        next ∈ GetUnprocessedTranscriptions w'.(transcriptions) limit ->
        record ∈ records -> next.(ID) <> record.(ID)).
Proof.
  assert (poisoned renderOk marshalOk modelDown ProcessingFailed
            sampleProcessor sampleWorld) as Hk.
  { exists "[]"%string. split; [reflexivity |].
    exists "system prompt"%string, "status 500"%string. split; reflexivity. }
  split; [exact Hk |].
  exact (C1_poisoned_batch_marked_processed renderOk marshalOk modelDown 0
           ProcessingFailed sampleProcessor sampleWorld Hk).
Defined.

End Transcription.

(** ** Package audio: the chunker *)

Module AudioChunker.

Import Audio.

Local Open Scope Z_scope.

(** How a call ends: it returns, it panics, or the model runs out of fuel
    before it ends. *)
Inductive outcome (A : Type) :=
  | Returns (a : A)
  | Panics
  | OutOfFuel.

Arguments Returns {A} a.
Arguments Panics {A}.
Arguments OutOfFuel {A}.

Record AudioChunker := {
  sampleRate : Z;
  channels : Z;
  chunkSizeMs : Z;
  buffer : list byte;
  bytesPerMs : Z
}.

Definition NewAudioChunker (sampleRate channels chunkSizeMs : Z) : AudioChunker :=
  let bytesPerSample := 2 in
  let bytesPerMs :=
    Z.quot (GoInt.mul64 (GoInt.mul64 sampleRate channels) bytesPerSample) 1000 in
  {| sampleRate := sampleRate; channels := channels; chunkSizeMs := chunkSizeMs;
     buffer := []; bytesPerMs := bytesPerMs |}.

(** [bytes.Buffer.Read] into a destination of [lenp] bytes: the bytes read,
    the error, and what stays in the buffer. *)
Definition bufferRead (buf : list byte) (lenp : Z)
    : (list byte * option error) * list byte :=
  match buf with
  | [] => if lenp =? 0 then (([], None), []) else (([], Some EOF), [])
  | _ =>
      let n := (Z.to_nat lenp `min` length buf)%nat in
      ((take n buf, None), drop n buf)
  end.

(** The loop of [ProcessChunk]. *)
Fixpoint chunkLoop (fuel : nat) (chunkSizeBytes : Z) (buf : list byte)
    (chunks : list (list byte))
    : outcome ((list (list byte) * option error) * list byte) :=
  match fuel with
  | O => OutOfFuel
  | S fuel =>
      if Z.of_nat (length buf) >=? chunkSizeBytes then
        if chunkSizeBytes <? 0 then Panics
        else
          let chunk := replicate (Z.to_nat chunkSizeBytes) x00 in
          match bufferRead buf chunkSizeBytes with
          | ((_, Some err), buf) => Returns (([], Some err), buf)
          | ((read, None), buf) =>
              let n := Z.of_nat (length read) in
              let chunk := read ++ drop (length read) chunk in
              let chunk := if n <? chunkSizeBytes then take (Z.to_nat n) chunk
                           else chunk in
              chunkLoop fuel chunkSizeBytes buf (chunks ++ [chunk])
          end
      else Returns ((chunks, None), buf)
  end.

Definition chunkSizeBytes (c : AudioChunker) : Z :=
  GoInt.mul64 c.(chunkSizeMs) c.(bytesPerMs).

Definition withBuffer (c : AudioChunker) (buf : list byte) : AudioChunker :=
  {| sampleRate := c.(sampleRate); channels := c.(channels);
     chunkSizeMs := c.(chunkSizeMs); buffer := buf; bytesPerMs := c.(bytesPerMs) |}.

(** [ProcessChunk]: the chunks, the error, and the chunker afterwards. *)
Definition ProcessChunk (c : AudioChunker) (data : list byte)
    : outcome ((list (list byte) * option error) * AudioChunker) :=
  let buf := c.(buffer) ++ data in
  match chunkLoop (S (length buf)) (chunkSizeBytes c) buf [] with
  | Returns (res, buf) => Returns (res, withBuffer c buf)
  | Panics => Panics
  | OutOfFuel => OutOfFuel
  end.

Definition Reset (c : AudioChunker) : AudioChunker := withBuffer c [].

(** The loop on a positive chunk size: it ends, every chunk it adds has
    the chunk size, the chunks followed by what it leaves are what it found,
    and it leaves less than a chunk. *)
Lemma chunkLoop_spec (k : Z) (fuel : nat) : forall buf chunks,
  0 < k -> (length buf < fuel)%nat ->
  exists new rest,
    chunkLoop fuel k buf chunks = Returns ((chunks ++ new, None), rest)
    /\ Forall (fun chunk => Z.of_nat (length chunk) = k) new
    /\ concat new ++ rest = buf
    /\ Z.of_nat (length rest) < k.
Proof.
  induction fuel as [| fuel IH]; intros buf chunks Hk Hfuel; [lia |].
  cbn [chunkLoop].
  destruct (Z.of_nat (length buf) >=? k) eqn:Hge.
  - apply Z.geb_le in Hge.
    assert ((k <? 0) = false) as -> by (apply Z.ltb_ge; lia).
    unfold bufferRead. destruct buf as [| b buf']; [cbn in Hge; lia |].
    set (buf := b :: buf') in *.
    assert ((Z.to_nat k `min` length buf)%nat = Z.to_nat k) as -> by lia.
    assert (length (take (Z.to_nat k) buf) = Z.to_nat k) as Hread
      by (rewrite length_take; lia).
    rewrite Hread, Z2Nat.id, Z.ltb_irrefl by lia.
    rewrite (drop_ge (replicate _ _)) by (rewrite length_replicate; lia).
    rewrite app_nil_r.
    destruct (IH (drop (Z.to_nat k) buf) (chunks ++ [take (Z.to_nat k) buf]) Hk)
      as (new & rest & Hrun & Hall & Hcat & Hrest).
    { rewrite length_drop. lia. }
    exists (take (Z.to_nat k) buf :: new), rest.
    split; [by rewrite Hrun, <- app_assoc |].
    split; [constructor; [lia | done] |].
    split; [| done].
    cbn [concat]. by rewrite <- app_assoc, Hcat, take_drop.
  - rewrite Z.geb_leb in Hge. apply Z.leb_gt in Hge.
    exists [], buf. rewrite app_nil_r. by repeat split.
Qed.

(** A sequence cuts into chunks of [k] bytes and a shorter rest in one way. *)
Lemma chunks_unique (k : Z) : forall (c1 c2 : list (list byte)) (r1 r2 : list byte),
  0 < k ->
  Forall (fun chunk => Z.of_nat (length chunk) = k) c1 ->
  Forall (fun chunk => Z.of_nat (length chunk) = k) c2 ->
  Z.of_nat (length r1) < k -> Z.of_nat (length r2) < k ->
  concat c1 ++ r1 = concat c2 ++ r2 ->
  c1 = c2 /\ r1 = r2.
Proof.
  induction c1 as [| x c1 IH]; intros c2 r1 r2 Hk H1 H2 Hr1 Hr2 Heq.
  - destruct c2 as [| y c2]; [by split |].
    apply Forall_cons in H2 as [Hy _]. cbn [concat] in Heq.
    apply (f_equal length) in Heq. rewrite !length_app in Heq. cbn in Heq. lia.
  - apply Forall_cons in H1 as [Hx H1].
    destruct c2 as [| y c2].
    + cbn [concat] in Heq. apply (f_equal length) in Heq.
      rewrite !length_app in Heq. cbn in Heq. lia.
    + apply Forall_cons in H2 as [Hy H2]. cbn [concat] in Heq.
      rewrite <- !app_assoc in Heq.
      apply app_inj_1 in Heq as [-> Heq]; [| lia].
      destruct (IH c2 r1 r2 Hk H1 H2 Hr1 Hr2 Heq) as [-> ->]. by split.
Qed.

Lemma ProcessChunk_spec (c : AudioChunker) (data : list byte) :
  0 < chunkSizeBytes c ->
  exists chunks rest,
    ProcessChunk c data = Returns ((chunks, None), withBuffer c rest)
    /\ Forall (fun chunk => Z.of_nat (length chunk) = chunkSizeBytes c) chunks
    /\ concat chunks ++ rest = c.(buffer) ++ data
    /\ Z.of_nat (length rest) < chunkSizeBytes c.
Proof.
  intros Hk. unfold ProcessChunk.
  destruct (chunkLoop_spec (chunkSizeBytes c) (S (length (c.(buffer) ++ data)))
              (c.(buffer) ++ data) [] Hk ltac:(lia))
    as (chunks & rest & -> & Hall & Hcat & Hrest).
  exists chunks, rest. by repeat split.
Qed.

(** With a positive chunk size, [ProcessChunk] returns without error; every
    chunk has exactly the chunk size, and less than one chunk stays in the
    buffer. *)
Theorem ProcessChunk_whole_chunks (c : AudioChunker) (data : list byte) :
  0 < chunkSizeBytes c ->
  exists chunks c',
    ProcessChunk c data = Returns ((chunks, None), c')
    /\ Forall (fun chunk => Z.of_nat (length chunk) = chunkSizeBytes c) chunks
    /\ Z.of_nat (length c'.(buffer)) < chunkSizeBytes c
    /\ chunkSizeBytes c' = chunkSizeBytes c.
Proof.
  intros Hk.
  destruct (ProcessChunk_spec c data Hk) as (chunks & rest & Hrun & Hall & _ & Hrest).
  exists chunks, (withBuffer c rest). by repeat split.
Qed.

(** No byte is lost, repeated or reordered: the chunks returned, followed
    by what stays in the buffer, are the bytes that were in the buffer
    followed by the new data. *)
Theorem ProcessChunk_keeps_bytes (c c' : AudioChunker) (data : list byte)
    (chunks : list (list byte)) (err : option error) :
  0 < chunkSizeBytes c ->
  ProcessChunk c data = Returns ((chunks, err), c') ->
  concat chunks ++ c'.(buffer) = c.(buffer) ++ data.
Proof.
  intros Hk Hrun.
  destruct (ProcessChunk_spec c data Hk) as (chunks0 & rest & Hrun0 & _ & Hcat & _).
  rewrite Hrun0 in Hrun. by injection Hrun as <- <- <-.
Qed.

(** The chunks do not depend on how the data arrives: feeding [d1] and
    then [d2] gives, together, the chunks of feeding [d1 ++ d2] at once, and
    leaves the same buffer. *)
Theorem ProcessChunk_split (c c1 c2 : AudioChunker) (d1 d2 : list byte)
    (chunks1 chunks2 : list (list byte)) (err1 err2 : option error) :
  0 < chunkSizeBytes c ->
  ProcessChunk c d1 = Returns ((chunks1, err1), c1) ->
  ProcessChunk c1 d2 = Returns ((chunks2, err2), c2) ->
  ProcessChunk c (d1 ++ d2) = Returns ((chunks1 ++ chunks2, None), c2).
Proof.
  intros Hk Hrun1 Hrun2.
  destruct (ProcessChunk_spec c d1 Hk) as (ch1 & r1 & E1 & Hall1 & Hcat1 & Hr1).
  rewrite E1 in Hrun1. injection Hrun1 as <- <- <-.
  assert (chunkSizeBytes (withBuffer c r1) = chunkSizeBytes c) as Hk1 by reflexivity.
  destruct (ProcessChunk_spec (withBuffer c r1) d2 ltac:(by rewrite Hk1))
    as (ch2 & r2 & E2 & Hall2 & Hcat2 & Hr2).
  rewrite E2 in Hrun2. injection Hrun2 as <- <- <-.
  rewrite Hk1 in Hall2, Hr2. cbn [withBuffer buffer] in Hcat2.
  destruct (ProcessChunk_spec c (d1 ++ d2) Hk) as (ch & r & E & Hall & Hcat & Hr).
  rewrite E.
  destruct (chunks_unique (chunkSizeBytes c) ch (ch1 ++ ch2) r r2 Hk Hall) as [-> ->];
    try done.
  - by apply Forall_app.
  - rewrite Hcat, concat_app, <- app_assoc, Hcat2, !app_assoc. by rewrite Hcat1.
Qed.

(** A chunk size of zero (a chunk length of 0 ms, or less than 1000 bytes
    per second of audio) keeps the loop of [ProcessChunk] running whatever
    the fuel: the call does not return.  A negative chunk size makes it
    panic on allocating the first chunk. *)
Theorem ProcessChunk_degenerate_chunk_size (c : AudioChunker) (data : list byte) :
  (chunkSizeBytes c = 0 ->
   forall (fuel : nat) (buf : list byte) (chunks : list (list byte)),
     chunkLoop fuel (chunkSizeBytes c) buf chunks = OutOfFuel)
  /\ (chunkSizeBytes c < 0 -> ProcessChunk c data = Panics).
Proof.
  split.
  - intros ->. induction fuel as [| fuel IH]; intros buf chunks; [reflexivity |].
    cbn [chunkLoop].
    assert ((Z.of_nat (length buf) >=? 0) = true) as ->
      by (rewrite Z.geb_leb; apply Z.leb_le; lia).
    cbn [Z.ltb Z.compare].
    destruct buf as [| b buf]; cbn [bufferRead Z.eqb]; apply IH.
  - intros Hneg. unfold ProcessChunk. cbn [chunkLoop].
    assert ((Z.of_nat (length (c.(buffer) ++ data)) >=? chunkSizeBytes c) = true)
      as -> by (rewrite Z.geb_leb; apply Z.leb_le; lia).
    by assert ((chunkSizeBytes c <? 0) = true) as -> by (apply Z.ltb_lt; lia).
Qed.

(** 24 kHz mono PCM16 in chunks of 1 ms: 48 bytes a chunk. *)
Definition sampleChunker : AudioChunker :=
  withBuffer (NewAudioChunker 24000 1 1) (replicate 40 x01).

Lemma ProcessChunk_whole_chunks_witness :
  0 < chunkSizeBytes sampleChunker /\
  exists chunks c',
    ProcessChunk sampleChunker (replicate 100 x02) = Returns ((chunks, None), c')
    /\ Forall (fun chunk => Z.of_nat (length chunk) = chunkSizeBytes sampleChunker) chunks
    /\ Z.of_nat (length c'.(buffer)) < chunkSizeBytes sampleChunker
    /\ chunkSizeBytes c' = chunkSizeBytes sampleChunker.
Proof.
  split; [reflexivity |].
  apply (ProcessChunk_whole_chunks sampleChunker (replicate 100 x02)). reflexivity.
Defined.

Lemma ProcessChunk_keeps_bytes_witness :
  concat [replicate 40 x01 ++ replicate 8 x02; replicate 48 x02]
    ++ (withBuffer sampleChunker (replicate 44 x02)).(buffer)
  = sampleChunker.(buffer) ++ replicate 100 x02.
Proof.
  apply (ProcessChunk_keeps_bytes sampleChunker _ (replicate 100 x02) _ None);
    reflexivity.
Defined.

Lemma ProcessChunk_split_witness :
  ProcessChunk sampleChunker (replicate 30 x02 ++ replicate 70 x02)
  = Returns (([replicate 40 x01 ++ replicate 8 x02] ++ [replicate 48 x02], None),
             withBuffer sampleChunker (replicate 44 x02)).
Proof.
  apply (ProcessChunk_split sampleChunker
           (withBuffer sampleChunker (replicate 22 x02)) _ _ _ _ _ None None);
    reflexivity.
Defined.

Lemma ProcessChunk_degenerate_witness :
  chunkSizeBytes (NewAudioChunker 400 1 20) = 0 /\
  forall (fuel : nat) (buf : list byte) (chunks : list (list byte)),
    chunkLoop fuel (chunkSizeBytes (NewAudioChunker 400 1 20)) buf chunks = OutOfFuel.
Proof.
  split; [reflexivity |].
  apply (proj1 (ProcessChunk_degenerate_chunk_size (NewAudioChunker 400 1 20) [])).
  reflexivity.
Defined.

End AudioChunker.

(** ** Package audio: closing, removing, writing and reading side by side *)

Module MultiReaderOps.

Import Audio.

Local Open Scope Z_scope.

(** [Close]: the context is cancelled, every reader is marked closed and
    signalled, and the map of readers is replaced by an empty one. *)
Definition Close (mr : MultiReader) : option error * MultiReader :=
  if mr.(closed) then (None, mr)
  else (None,
        {| buffer := mr.(buffer); bufferSize := mr.(bufferSize);
           writeIndex := mr.(writeIndex); readers := ∅; closed := true |}).

(** [multiReaderClient.Close]. *)
Definition clientClose (mr : MultiReader) (id : string) : option error * MultiReader :=
  (None, RemoveReader mr id).

(** What a read leaves of the state it works on: everything but the
    position of its own reader. *)
Definition sameButReader (id : string) (mr mr' : MultiReader) : Prop :=
  mr'.(buffer) = mr.(buffer)
  /\ mr'.(bufferSize) = mr.(bufferSize)
  /\ mr'.(writeIndex) = mr.(writeIndex)
  /\ mr'.(closed) = mr.(closed)
  /\ forall other, other <> id -> mr'.(readers) !! other = mr.(readers) !! other.


(** [RemoveReader] can be repeated; afterwards a read of the id returns
    end-of-stream at once, and the other readers, the buffer and the write
    index are as before. *)
Theorem RemoveReader_idempotent_releases (mr : MultiReader) (id : string) :
  RemoveReader (RemoveReader mr id) id = RemoveReader mr id
  /\ (forall lenp wake,
        Read (RemoveReader mr id) id lenp wake
        = Some (([], Some EOF), RemoveReader mr id))
  /\ sameButReader id mr (RemoveReader mr id).
Proof.
  assert ((RemoveReader mr id).(readers) !! id = None) as Hgone.
  { unfold RemoveReader. destruct (mr.(readers) !! id) eqn:E; [| exact E].
    cbn [setReaders readers]. apply lookup_delete_eq. }
  split; [| split].
  - unfold RemoveReader at 1. by rewrite Hgone.
  - intros lenp wake. unfold Read. by rewrite Hgone.
  - unfold RemoveReader, sameButReader.
    destruct (mr.(readers) !! id); cbn [setReaders buffer bufferSize writeIndex
      closed readers]; repeat split; try done.
    intros other Hne. by apply lookup_delete_ne.
Qed.

(** After [Close] nothing is written and nothing is read: a write returns
    [ErrClosedPipe] and changes nothing, a read returns end-of-stream, also
    for a reader created after the close; closing again changes nothing. *)
Theorem Close_is_final (mr : MultiReader) :
  let mr' := (Close mr).2 in
  (Close mr').2 = mr'
  /\ (forall p, Write mr' p = ((0, Some ErrClosedPipe), mr'))
  /\ (forall id lenp wake, Read mr' id lenp wake = Some (([], Some EOF), mr'))
  /\ (forall id lenp wake,
        let mr'' := (CreateReader mr' id).2 in
        Read mr'' id lenp wake = Some (([], Some EOF), mr'')).
Proof.
  intros mr'.
  assert (mr'.(closed) = true) as Hclosed.
  { subst mr'. unfold Close. destruct (mr.(closed)) eqn:E; [exact E | reflexivity]. }
  split; [| split; [| split]].
  - unfold Close at 1. by rewrite Hclosed.
  - intros p. unfold Write. by rewrite Hclosed.
  - intros id lenp wake. unfold Read.
    destruct (mr'.(readers) !! id) as [reader |]; [| done].
    by rewrite Hclosed, orb_true_r.
  - intros id lenp wake mr''.
    assert (mr''.(closed) = true) as Hclosed''.
    { subst mr''. unfold CreateReader.
      destruct (mr'.(readers) !! id) as [reader |];
        [destruct (negb _) |]; exact Hclosed. }
    unfold Read. destruct (mr''.(readers) !! id) as [reader |]; [| done].
    by rewrite Hclosed'', orb_true_r.
Qed.

Lemma foldl_writeByte_state (p : list byte) : forall mr,
  wf mr ->
  let mr' := foldl writeByte mr p in
  mr'.(writeIndex) = (mr.(writeIndex) + Z.of_nat (length p)) mod mr.(bufferSize)
  /\ mr'.(readers) = mr.(readers)
  /\ mr'.(bufferSize) = mr.(bufferSize)
  /\ length mr'.(buffer) = length mr.(buffer).
Proof.
  induction p as [| b p IH]; intros mr Hwf; cbn [foldl length].
  - destruct Hwf as (Hsize & _ & Hw & _).
    rewrite Z.add_0_r, Z.mod_small by lia. by repeat split.
  - destruct (IH (writeByte mr b) (wf_writeByte mr b Hwf)) as (Hw & Hr & Hs & Hl).
    cbn zeta in Hw, Hr, Hs, Hl.
    cbn [writeByte writeIndex readers bufferSize buffer] in Hw, Hr, Hs, Hl.
    destruct Hwf as (Hsize & _ & Hwb & _).
    rewrite Z.rem_mod_nonneg, Zplus_mod_idemp_l in Hw by lia.
    rewrite length_insert in Hl.
    cbn zeta. repeat split; try done.
    rewrite Hw. f_equal. lia.
Qed.

(** A write to an open buffer never waits for a reader and never fails:
    it takes all of [p], moves the write index by the length of [p] around
    the buffer, and leaves every reader where it was, however far behind. *)
Theorem Write_takes_everything (mr : MultiReader) (p : list byte) :
  wf mr ->
  let '((n, err), mr') := Write mr p in
  n = Z.of_nat (length p) /\ err = None
  /\ wf mr'
  /\ mr'.(writeIndex) = (mr.(writeIndex) + Z.of_nat (length p)) mod mr.(bufferSize)
  /\ mr'.(readers) = mr.(readers)
  /\ mr'.(bufferSize) = mr.(bufferSize).
Proof.
  intros Hwf. pose proof (wf_Write mr p Hwf) as Hwf'.
  pose proof (foldl_writeByte_state p mr Hwf) as (Hw' & Hr' & Hs' & _).
  unfold Write in *. destruct Hwf as (Hsize & Hlen & Hw & Hopen).
  rewrite Hopen in *. cbn [snd] in Hwf'.
  repeat split; try done; apply Hwf'.
Qed.

Lemma readAvailable_sameButReader mr id lenp r w n res mr' :
  readAvailable mr id lenp r w n = Some (res, mr') -> sameButReader id mr mr'.
Proof.
  unfold readAvailable.
  destruct (copyLoop _ _ _ _ _ _ _) as [[out r'] |]; [| discriminate].
  intros H. injection H as _ <-.
  unfold sameButReader.
  destruct (mr.(readers) !! id) as [reader |]; [destruct (negb _) |];
    cbn [setReaders buffer bufferSize writeIndex closed readers];
    repeat split; try done.
  intros other Hne. by apply lookup_insert_ne.
Qed.

(** A read changes nothing but the position of its own reader: the
    buffer, the write index and every other reader are those of the state
    it read from (the state found after the signal when it waited and was
    signalled, the state it was called on otherwise). *)
Theorem Read_touches_own_reader_only (mr mr' : MultiReader) (id : string)
    (lenp : Z) (wake : Wake) (res : list byte * option error) :
  Read mr id lenp wake = Some (res, mr') ->
  let base :=
    match wake with
    | Signalled mr_after => if waits mr id then mr_after else mr
    | _ => mr
    end in
  sameButReader id base mr'.
Proof.
  assert (forall m, sameButReader id m m) as Hrefl by (by repeat split).
  unfold Read, waits.
  destruct (mr.(readers) !! id) as [reader |].
  2: { intros H. injection H as _ <-. by destruct wake. }
  destruct (reader.(reader_closed) || mr.(closed)).
  { intros H. injection H as _ <-. by destruct wake. }
  cbn [negb andb].
  destruct (reader.(readIndex) =? mr.(writeIndex)).
  - destruct wake as [mr2 | |].
    + destruct (mr2.(readers) !! id) as [reader2 |].
      2: { intros H. by injection H as _ <-. }
      destruct (reader2.(reader_closed) || mr2.(closed)).
      { intros H. by injection H as _ <-. }
      apply readAvailable_sameButReader.
    + intros H. by injection H as _ <-.
    + intros H. by injection H as _ <-.
  - intros H. apply readAvailable_sameButReader in H. by destruct wake.
Qed.






Definition smallReader : MultiReader :=
  {| buffer := replicate 4 x00; bufferSize := 4; writeIndex := 3;
     readers := ∅; closed := false |}.

Lemma smallReader_wf : wf smallReader.
Proof. unfold wf, smallReader. cbn. repeat split; lia. Qed.

Lemma Write_takes_everything_witness :
  wf smallReader /\
  let '((n, err), mr') := Write smallReader [x01; x02; x03] in
  n = Z.of_nat (length [x01; x02; x03]) /\ err = None
  /\ wf mr'
  /\ mr'.(writeIndex)
     = (smallReader.(writeIndex) + Z.of_nat (length [x01; x02; x03]))
       mod smallReader.(bufferSize)
  /\ mr'.(readers) = smallReader.(readers)
  /\ mr'.(bufferSize) = smallReader.(bufferSize).
Proof.
  split; [exact smallReader_wf |].
  exact (Write_takes_everything smallReader [x01; x02; x03] smallReader_wf).
Defined.

Lemma Read_touches_own_reader_only_witness :
  let mr := (CreateReader (CreateReader smallReader "a").2 "b").2 in
  let mr := (Write mr [x01; x02]).2 in
  exists res mr',
    Read mr "a" 8 TimedOut = Some (res, mr') /\ sameButReader "a" mr mr'.
Proof.
  intros mr0 mr.
  destruct (Read mr "a" 8 TimedOut) as [[res mr'] |] eqn:E.
  - exists res, mr'. split; [reflexivity |].
    exact (Read_touches_own_reader_only mr mr' "a" 8 TimedOut res E).
  - vm_compute in E. discriminate E.
Defined.


End MultiReaderOps.

(** ** Package audio: the WAV stream over many reads *)

Module WAVStream.

Import Audio.

Local Open Scope Z_scope.

Section Stream.

Variable R : Type.
Variable readerRead : R -> Z -> (list byte * option error) * R.

(** Successive reads with destinations of the given lengths: the bytes
    they return, one after the other. *)
Fixpoint readAll (wr : WAVReader R) (lens : list Z) : list byte * WAVReader R :=
  match lens with
  | [] => ([], wr)
  | lenp :: lens =>
      let '((out, _), wr) := WAVReader_Read R readerRead wr lenp in
      let '(rest, wr) := readAll wr lens in
      (out ++ rest, wr)
  end.

(** The same for the wrapped reader. *)
Fixpoint readAllInner (r : R) (lens : list Z) : list byte * R :=
  match lens with
  | [] => ([], r)
  | lenp :: lens =>
      let '((out, _), r) := readerRead r lenp in
      let '(rest, r) := readAllInner r lens in
      (out ++ rest, r)
  end.

(** What reaches the wrapped reader of the reads of a new [WAVReader]:
    nothing of the reads that are too short for the header, the room left
    after the header of the first read that is not, every read after it. *)
Fixpoint innerReads (headerLen : Z) (lens : list Z) : list Z :=
  match lens with
  | [] => []
  | lenp :: lens =>
      if lenp <? headerLen then innerReads headerLen lens
      else (if lenp >? headerLen then [lenp - headerLen] else []) ++ lens
  end.

Lemma readAll_sent (wr : WAVReader R) (lens : list Z) :
  headerSent R wr = true ->
  (readAll wr lens).1 = (readAllInner (reader R wr) lens).1.
Proof.
  revert wr. induction lens as [| lenp lens IH]; intros wr Hsent; [reflexivity |].
  destruct wr as [r sent h]. cbn [headerSent] in Hsent. subst sent.
  cbn [readAll readAllInner]. unfold WAVReader_Read.
  cbn [negb headerSent reader header].
  destruct (readerRead r lenp) as [[out err] r'].
  specialize (IH {| reader := r'; headerSent := true; header := h |} eq_refl).
  cbn [reader] in IH.
  destruct (readAll _ lens) as [rest wr'].
  destruct (readAllInner r' lens) as [rest' r''].
  cbn [fst] in *. by rewrite IH.
Qed.

Lemma readAll_new (wr : WAVReader R) (lens : list Z) :
  headerSent R wr = false ->
  (readAll wr lens).1
  = (if existsb (fun lenp => Z.of_nat (length (header R wr)) <=? lenp) lens
     then header R wr else [])
    ++ (readAllInner (reader R wr)
          (innerReads (Z.of_nat (length (header R wr))) lens)).1.
Proof.
  revert wr. induction lens as [| lenp lens IH]; intros wr Hsent; [reflexivity |].
  cbn [readAll innerReads existsb]. unfold WAVReader_Read. rewrite Hsent. cbn [negb].
  rewrite Z.leb_antisym.
  destruct (lenp <? Z.of_nat (length (header R wr))) eqn:Hshort; cbn [negb orb].
  - specialize (IH wr Hsent). destruct (readAll wr lens) as [rest wr'].
    cbn [fst app] in *. exact IH.
  - destruct (lenp >? Z.of_nat (length (header R wr))) eqn:Hroom.
    + cbn [app readAllInner].
      destruct (readerRead (reader R wr) _) as [[m err] r'].
      pose proof (readAll_sent
                    {| reader := r'; headerSent := true; header := header R wr |}
                    lens eq_refl) as Hrest.
      cbn [reader] in Hrest.
      destruct (readAll _ lens) as [rest wr'].
      destruct (readAllInner r' lens) as [rest' r''].
      cbn [fst] in *. by rewrite Hrest, app_assoc.
    + cbn [app].
      pose proof (readAll_sent
                    {| reader := reader R wr; headerSent := true; header := header R wr |}
                    lens eq_refl) as Hrest.
      cbn [reader] in Hrest.
      destruct (readAll _ lens) as [rest wr'].
      cbn [fst] in *. by rewrite Hrest.
Qed.

(** Over any sequence of reads of a new [WAVReader], the bytes returned
    are the 44 byte header, once, followed by what the wrapped reader
    returned, unchanged and in order; the header is missing only as long as
    no read had room for it, and such reads do not reach the wrapped
    reader. *)
Theorem WAV_stream_is_header_then_data (r : R) (sampleRate channels : Z)
    (lens : list Z) :
  (readAll (NewWAVReader R r sampleRate channels) lens).1
  = (if existsb (fun lenp => 44 <=? lenp) lens
     then createWAVHeader sampleRate channels else [])
    ++ (readAllInner r (innerReads 44 lens)).1.
Proof.
  exact (readAll_new (NewWAVReader R r sampleRate channels) lens eq_refl).
Qed.

(** A read never returns more than the destination holds, provided the
    wrapped reader keeps to that rule itself. *)
Theorem WAVReader_Read_fits (wr : WAVReader R) (lenp : Z) :
  (forall r n, 0 <= n -> Z.of_nat (length (readerRead r n).1.1) <= n) ->
  0 <= lenp ->
  Z.of_nat (length (WAVReader_Read R readerRead wr lenp).1.1) <= lenp.
Proof.
  intros Hinner Hlenp. unfold WAVReader_Read.
  destruct (negb (headerSent R wr)).
  - destruct (lenp <? _) eqn:Hshort; [cbn; lia |]. apply Z.ltb_ge in Hshort.
    destruct (lenp >? _) eqn:Hroom; [| cbn [fst]; lia].
    specialize (Hinner (reader R wr) (lenp - Z.of_nat (length (header R wr)))
                       ltac:(lia)).
    destruct (readerRead _ _) as [[m err] r']. cbn [fst] in *.
    rewrite length_app. lia.
  - specialize (Hinner (reader R wr) lenp Hlenp).
    by destruct (readerRead _ _) as [[m err] r'].
Qed.

End Stream.

(** A reader over a fixed sequence of bytes, as [bytes.Buffer] reads. *)
Definition bytesRead (buf : list byte) (lenp : Z) : (list byte * option error) * list byte :=
  AudioChunker.bufferRead buf lenp.

Lemma bytesRead_fits (buf : list byte) (n : Z) :
  0 <= n -> Z.of_nat (length (bytesRead buf n).1.1) <= n.
Proof.
  intros Hn. unfold bytesRead, AudioChunker.bufferRead.
  repeat case_match; cbn [fst length]; try lia.
  all: rewrite ?length_take; lia.
Qed.

Lemma WAVReader_Read_fits_witness :
  Z.of_nat (length (WAVReader_Read (list byte) bytesRead
                      (NewWAVReader (list byte) [x01; x02; x03] 24000 1) 46).1.1)
  <= 46.
Proof.
  apply (WAVReader_Read_fits (list byte) bytesRead); [exact bytesRead_fits | lia].
Defined.

End WAVStream.

(** ** Package adsb: what the change detector reports *)

Module ChangeEvents.

Import ChangeDetector.

(** The events [DetectChanges] appends for one entry of the current map,
    and for one entry of the previous map. *)
Definition currentEvents (previousAircraft : gmap string Aircraft)
    (entry : string * Aircraft) : list AircraftChange :=
  detectCurrent previousAircraft [] entry.

Definition removedEvents (currentMap : gmap string Aircraft)
    (entry : string * Aircraft) : list AircraftChange :=
  detectRemoved currentMap [] entry.

(** What the detector reports about one hex, given the previous and the
    current aircraft under it. *)
Definition eventFor (previous current : option Aircraft) (c : AircraftChange) : Prop :=
  match previous, current with
  | None, Some a => c.(Type_) = "added" /\ c.(Aircraft_) = Some a
  | Some p, Some a =>
      hasAnyChanges p a = true /\ c.(Type_) = "updated" /\ c.(Aircraft_) = Some a
  | Some _, None => c.(Type_) = "removed" /\ c.(Aircraft_) = None
  | None, None => False
  end.

Lemma foldl_append {A B} (f : A -> list B) (g : list B -> A -> list B) (l : list A) :
  (forall acc x, g acc x = acc ++ f x) ->
  forall acc, foldl g acc l = acc ++ concat (map f l).
Proof.
  intros Hg. induction l as [| x l IH]; intros acc; cbn [foldl map concat].
  - by rewrite app_nil_r.
  - by rewrite IH, Hg, app_assoc.
Qed.

Lemma detectCurrent_append prev acc entry :
  detectCurrent prev acc entry = acc ++ currentEvents prev entry.
Proof.
  unfold currentEvents, detectCurrent. destruct entry as [hex a].
  destruct (prev !! hex) as [p |]; [destruct (hasAnyChanges p a) |];
    by rewrite ?app_nil_r.
Qed.

Lemma detectRemoved_append cur acc entry :
  detectRemoved cur acc entry = acc ++ removedEvents cur entry.
Proof.
  unfold removedEvents, detectRemoved. destruct entry as [hex a].
  destruct (cur !! hex); by rewrite ?app_nil_r.
Qed.

Lemma DetectChanges_changes (cd : ChangeDetector) (X : list Aircraft) :
  (DetectChanges cd X).1
  = concat (map (currentEvents cd.(previousAircraft)) (map_to_list (buildMap X)))
    ++ concat (map (removedEvents (buildMap X)) (map_to_list cd.(previousAircraft))).
Proof.
  unfold DetectChanges. cbn [fst].
  rewrite (foldl_append _ _ _ (detectRemoved_append (buildMap X))).
  by rewrite (foldl_append _ _ _ (detectCurrent_append cd.(previousAircraft))).
Qed.

Lemma elem_of_concat_map {A B} (f : A -> list B) (l : list A) (y : B) :
  y ∈ concat (map f l) <-> exists x, x ∈ l /\ y ∈ f x.
Proof.
  induction l as [| x l IH]; cbn [map concat].
  - split; [by intros ?%elem_of_nil | by intros (x & ?%elem_of_nil & _)].
  - rewrite elem_of_app, IH. split.
    + intros [Hy | (x' & Hx' & Hy)]; [exists x | exists x']; split; try done.
      * by left.
      * by right.
    + intros (x' & Hx' & Hy). apply elem_of_cons in Hx' as [-> | Hx'];
        [by left | right; by exists x'].
Qed.

Lemma currentEvents_elem prev hex a c :
  c ∈ currentEvents prev (hex, a) <->
  c.(ChangeHex) = hex /\ eventFor (prev !! hex) (Some a) c.
Proof.
  unfold currentEvents, detectCurrent, eventFor.
  destruct (prev !! hex) as [p |]; [destruct (hasAnyChanges p a) |]; cbn [app].
  - rewrite list_elem_of_singleton. split.
    + by intros ->.
    + destruct c as [t b h]. cbn. by intros (-> & _ & -> & ->).
  - split; [by intros ?%elem_of_nil | by intros (_ & ? & _)].
  - rewrite list_elem_of_singleton. split.
    + by intros ->.
    + destruct c as [t b h]. cbn. by intros (-> & -> & ->).
Qed.

Lemma removedEvents_elem cur hex p c :
  c ∈ removedEvents cur (hex, p) <->
  cur !! hex = None /\ c.(ChangeHex) = hex
  /\ c.(Type_) = "removed" /\ c.(Aircraft_) = None.
Proof.
  unfold removedEvents, detectRemoved.
  destruct (cur !! hex) as [a |]; cbn [app].
  - split; [by intros ?%elem_of_nil | by intros (? & _)].
  - rewrite list_elem_of_singleton. split.
    + by intros ->.
    + destruct c as [t b h]. cbn. by intros (_ & -> & -> & ->).
Qed.

(** The change list holds exactly one event for each hex whose aircraft
    was added, was removed, or differs from the previous one, and nothing
    else: [c] is reported if and only if it is the event for the previous
    and the current aircraft under its hex. *)
Theorem DetectChanges_reports_exactly (cd : ChangeDetector) (X : list Aircraft)
    (c : AircraftChange) :
  c ∈ (DetectChanges cd X).1
  <-> eventFor (cd.(previousAircraft) !! c.(ChangeHex))
               (buildMap X !! c.(ChangeHex)) c.
Proof.
  rewrite DetectChanges_changes, elem_of_app, !elem_of_concat_map. split.
  - intros [([hex a] & Hin & Hc) | ([hex p] & Hin & Hc)].
    + apply elem_of_map_to_list in Hin. apply currentEvents_elem in Hc as [<- Hc].
      by rewrite Hin.
    + apply elem_of_map_to_list in Hin.
      apply removedEvents_elem in Hc as (Hcur & <- & Ht & Hb).
      by rewrite Hin, Hcur.
  - intros Hc. destruct (buildMap X !! ChangeHex c) as [a |] eqn:Hcur.
    + left. exists (ChangeHex c, a). split; [by apply elem_of_map_to_list |].
      by apply currentEvents_elem.
    + destruct (previousAircraft cd !! ChangeHex c) as [p |] eqn:Hprev; [| done].
      right. exists (ChangeHex c, p). split; [by apply elem_of_map_to_list |].
      apply removedEvents_elem. by destruct Hc.
Qed.

Lemma NoDup_events {A} (f : A -> list AircraftChange) (key : A -> string) (l : list A) :
  (forall x c, c ∈ f x -> f x = [c] /\ c.(ChangeHex) = key x) ->
  NoDup (map key l) ->
  NoDup (map ChangeHex (concat (map f l))).
Proof.
  intros Hf. induction l as [| x l IH]; cbn [map concat]; [constructor |].
  intros Hnd. apply NoDup_cons in Hnd as [Hx Hnd].
  rewrite map_app. apply NoDup_app. split; [| split; [| by apply IH]].
  - destruct (f x) as [| c cs] eqn:E; [constructor |].
    destruct (Hf x c) as [Heq _]; [rewrite E; by left |].
    rewrite E in Heq. injection Heq as ->. cbn. apply NoDup_singleton.
  - intros hex Hin1 Hin2.
    apply (list_elem_of_fmap ChangeHex) in Hin1 as (c & -> & Hc).
    apply (list_elem_of_fmap ChangeHex) in Hin2 as (c' & Heq & Hc').
    apply elem_of_concat_map in Hc' as (x' & Hx' & Hc').
    apply Hf in Hc as [_ Hc]. apply Hf in Hc' as [_ Hc'].
    apply Hx. apply (list_elem_of_fmap key). exists x'. split; [congruence | done].
Qed.

(** One poll yields at most one event per aircraft: no hex occurs twice
    in a change list. *)
Theorem DetectChanges_one_event_per_hex (cd : ChangeDetector) (X : list Aircraft) :
  NoDup (map ChangeHex (DetectChanges cd X).1).
Proof.
  rewrite DetectChanges_changes, map_app. apply NoDup_app. split; [| split].
  - apply (NoDup_events _ fst); [| apply (NoDup_fst_map_to_list (buildMap X))].
    intros [hex a] c Hc. pose proof Hc as Hc'.
    apply currentEvents_elem in Hc' as [Hhex _]. split; [| done].
    unfold currentEvents, detectCurrent in *.
    destruct (_ !! hex) as [p |]; [destruct (hasAnyChanges p a) |]; cbn [app] in *.
    + by apply list_elem_of_singleton in Hc as ->.
    + by apply elem_of_nil in Hc.
    + by apply list_elem_of_singleton in Hc as ->.
  - intros hex Hin1 Hin2.
    apply (list_elem_of_fmap ChangeHex) in Hin1 as (c & -> & Hc).
    apply (list_elem_of_fmap ChangeHex) in Hin2 as (c' & Heq & Hc').
    apply elem_of_concat_map in Hc as ([hex a] & Hin & Hc).
    apply elem_of_concat_map in Hc' as ([hex' p] & Hin' & Hc').
    apply elem_of_map_to_list in Hin.
    apply currentEvents_elem in Hc as [Hhex _].
    apply removedEvents_elem in Hc' as (Hnone & Hhex' & _).
    congruence.
  - apply (NoDup_events _ fst);
      [| apply (NoDup_fst_map_to_list cd.(previousAircraft))].
    intros [hex p] c Hc. pose proof Hc as Hc'.
    apply removedEvents_elem in Hc' as (_ & Hhex & _). split; [| done].
    unfold removedEvents, detectRemoved in *.
    destruct (_ !! hex); cbn [app] in *.
    + by apply elem_of_nil in Hc.
    + by apply list_elem_of_singleton in Hc as ->.
Qed.

Lemma buildMap_snoc (X : list Aircraft) (a : Aircraft) :
  buildMap (X ++ [a]) = <[a.(Hex) := a]> (buildMap X).
Proof. unfold buildMap. by rewrite foldl_snoc. Qed.

(** When a poll lists a hex more than once, the last aircraft with that
    hex is the one the detector compares, reports and remembers. *)
Theorem buildMap_last_wins (X : list Aircraft) (hex : string) :
  buildMap X !! hex = last (filter (fun a => a.(Hex) = hex) X).
Proof.
  induction X as [| a X IH] using rev_ind; [reflexivity |].
  rewrite buildMap_snoc, filter_app, last_app.
  destruct (decide (Hex a = hex)) as [Heq | Hne].
  - rewrite Heq, lookup_insert_eq.
    rewrite (filter_cons_True (fun a => Hex a = hex)) by done. reflexivity.
  - rewrite lookup_insert_ne by done.
    rewrite (filter_cons_False (fun a => Hex a = hex)) by done. exact IH.
Qed.

Lemma buildMap_key (X : list Aircraft) (hex : string) (a : Aircraft) :
  buildMap X !! hex = Some a -> a.(Hex) = hex /\ a ∈ X.
Proof.
  induction X as [| b X IH] using rev_ind.
  { change (buildMap []) with (∅ : gmap string Aircraft). by rewrite lookup_empty. }
  rewrite buildMap_snoc, elem_of_app, list_elem_of_singleton.
  destruct (decide (Hex b = hex)) as [Heq | Hne].
  - rewrite Heq, lookup_insert_eq. intros [= <-]. auto.
  - rewrite lookup_insert_ne by done. intros H. destruct (IH H). auto.
Qed.

Lemma buildMap_distinct (X : list Aircraft) (hex : string) (a : Aircraft) :
  NoDup (map Hex X) ->
  buildMap X !! hex = Some a <-> a.(Hex) = hex /\ a ∈ X.
Proof.
  intros Hnd. split; [apply buildMap_key |].
  intros [Hhex Hin]. revert Hnd Hin.
  induction X as [| b X IH] using rev_ind; [by intros _ ?%elem_of_nil |].
  rewrite map_app, buildMap_snoc, elem_of_app, list_elem_of_singleton.
  intros Hnd%NoDup_app [Hin | ->].
  - destruct Hnd as (Hnd & Hdisj & _).
    rewrite lookup_insert_ne; [by apply IH |].
    intros Heq. apply (Hdisj (Hex a)).
    + apply (list_elem_of_fmap Hex). by exists a.
    + cbn. rewrite Hhex, <- Heq. by left.
  - by rewrite Hhex, lookup_insert_eq.
Qed.

(** The order of a poll does not matter when its hexes are distinct:
    the events and the remembered state are those of any permutation of
    it. *)
Theorem DetectChanges_order_irrelevant (cd : ChangeDetector) (X Y : list Aircraft) :
  NoDup (map Hex X) -> X ≡ₚ Y -> DetectChanges cd X = DetectChanges cd Y.
Proof.
  intros Hnd Hperm.
  assert (buildMap X = buildMap Y) as Hmap.
  { apply map_eq. intros hex. apply option_eq. intros a.
    rewrite !buildMap_distinct; [by rewrite Hperm | by rewrite <- Hperm | done]. }
  unfold DetectChanges. by rewrite Hmap.
Qed.

(** What an event carries: an added or updated event carries an aircraft
    of the poll whose own hex is the hex of the event; a removed event
    carries no aircraft and names a hex the detector remembered. *)
Theorem DetectChanges_event_shape (cd : ChangeDetector) (X : list Aircraft) :
  Forall (fun c =>
            match c.(Aircraft_) with
            | Some a =>
                a.(Hex) = c.(ChangeHex) /\ a ∈ X
                /\ (c.(Type_) = "added" \/ c.(Type_) = "updated")
            | None =>
                c.(Type_) = "removed"
                /\ is_Some (cd.(previousAircraft) !! c.(ChangeHex))
                /\ buildMap X !! c.(ChangeHex) = None
            end)
         (DetectChanges cd X).1.
Proof.
  apply Forall_forall. intros c.
  rewrite DetectChanges_changes, elem_of_app, !elem_of_concat_map.
  intros [([hex a] & Hin & Hc) | ([hex p] & Hin & Hc)];
    apply elem_of_map_to_list in Hin.
  - apply currentEvents_elem in Hc as [<- Hc].
    destruct (buildMap_key _ _ _ Hin) as [Hhex Ha].
    unfold eventFor in Hc.
    destruct (previousAircraft cd !! ChangeHex c) as [p |].
    + destruct Hc as (_ & Ht & ->). auto.
    + destruct Hc as (Ht & ->). auto.
  - apply removedEvents_elem in Hc as (Hcur & <- & Ht & ->).
    rewrite Hin. eauto.
Qed.

Lemma float_eqb_sym (a b : float) : PrimFloat.eqb a b = PrimFloat.eqb b a.
Proof.
  assert (forall x y, PrimFloat.eqb x y = true -> PrimFloat.eqb y x = true) as Hsym.
  { intros x y. rewrite !FloatAxioms.eqb_spec. unfold SFeqb.
    destruct (SFcompare (Prim2SF x) (Prim2SF y)) as [[| |] |] eqn:Hc;
      try discriminate.
    intros _. by rewrite (GoFloat.SFcompare_Eq_sym _ _ Hc). }
  destruct (PrimFloat.eqb a b) eqn:Hab.
  - symmetry. by apply Hsym.
  - destruct (PrimFloat.eqb b a) eqn:Hba; [| reflexivity].
    apply Hsym in Hba. congruence.
Qed.

Lemma fneq_sym (a b : float) : fneq a b = fneq b a.
Proof. unfold fneq. by rewrite float_eqb_sym. Qed.

(** The comparison has no direction: the previous aircraft differs from
    the current one exactly when the current one differs from the
    previous one. *)
Theorem hasAnyChanges_symmetric (previous current : Aircraft) :
  hasAnyChanges previous current = hasAnyChanges current previous.
Proof.
  unfold hasAnyChanges.
  assert (match ADSB previous, ADSB current with
          | Some p, Some c => adsbChanged p c
          | p, c => negb (Bool.eqb (isNil p) (isNil c))
          end
          = match ADSB current, ADSB previous with
            | Some p, Some c => adsbChanged p c
            | p, c => negb (Bool.eqb (isNil p) (isNil c))
            end) as ->.
  { destruct (ADSB previous) as [p |], (ADSB current) as [c |]; try reflexivity.
    unfold adsbChanged.
    by rewrite (fneq_sym (Lat p)), (fneq_sym (Lon p)), (fneq_sym (AltBaro p)),
      (fneq_sym (Track p)), (fneq_sym (GS p)), (fneq_sym (TAS p)),
      (fneq_sym (BaroRate p)), (fneq_sym (MagHeading p)),
      (fneq_sym (TrueHeading p)). }
  rewrite (String.eqb_sym (Flight previous)), (String.eqb_sym (Status previous)).
  rewrite (Z.eqb_sym (LastSeen previous)).
  assert (Bool.eqb (OnGround previous) (OnGround current)
          = Bool.eqb (OnGround current) (OnGround previous)) as ->
    by (by destruct (OnGround previous), (OnGround current)).
  assert (DeepEqual (Phase_ previous) (Phase_ current)
          = DeepEqual (Phase_ current) (Phase_ previous)) as ->.
  { unfold DeepEqual. apply bool_decide_ext. split; congruence. }
  assert (distanceChanged (Distance previous) (Distance current)
          = distanceChanged (Distance current) (Distance previous)) as ->.
  { unfold distanceChanged.
    destruct (Distance previous) as [p |], (Distance current) as [c |];
      try reflexivity.
    cbn. by rewrite fneq_sym. }
  reflexivity.
Qed.

Definition aircraftOf (hex flight : string) : Aircraft :=
  {| Hex := hex; ADSB := None; Flight := flight; Status := "active";
     OnGround := false; Phase_ := None; Distance := None; LastSeen := 0%Z |}.

Lemma DetectChanges_order_irrelevant_witness :
  DetectChanges NewChangeDetector [aircraftOf "c07c71" "ACA123"; aircraftOf "a1b2c3" "N123AB"]
  = DetectChanges NewChangeDetector [aircraftOf "a1b2c3" "N123AB"; aircraftOf "c07c71" "ACA123"].
Proof.
  apply DetectChanges_order_irrelevant.
  - cbn. apply NoDup_cons. split; [| apply NoDup_singleton].
    intros H%list_elem_of_singleton. discriminate H.
  - apply Permutation_swap.
Defined.

End ChangeEvents.

(** ** Package weather: how long and how often a fetch tries *)

Module WeatherRetry.

Import Weather.

Local Open Scope Z_scope.

(** The time spent asleep in a run, and the number of requests sent. *)
Fixpoint totalSleep (trace : list action) : Z :=
  match trace with
  | [] => 0
  | Sleep d :: trace => d + totalSleep trace
  | Get _ :: trace => totalSleep trace
  end.

Fixpoint requests (trace : list action) : Z :=
  match trace with
  | [] => 0
  | Sleep _ :: trace => requests trace
  | Get _ :: trace => 1 + requests trace
  end.

Lemma totalSleep_app (t1 t2 : list action) :
  totalSleep (t1 ++ t2) = totalSleep t1 + totalSleep t2.
Proof.
  induction t1 as [| [d | url] t1 IH]; cbn [app totalSleep]; lia.
Qed.

Lemma requests_app (t1 t2 : list action) :
  requests (t1 ++ t2) = requests t1 + requests t2.
Proof.
  induction t1 as [| [d | url] t1 IH]; cbn [app requests]; lia.
Qed.

Lemma traceOf_requests (url : string) (m : nat) :
  requests (traceOf url (Z.of_nat m)) = Z.of_nat m.
Proof.
  induction m as [| m IH]; [reflexivity |].
  rewrite Nat2Z.inj_succ, <- Z.add_1_r.
  rewrite traceOf_succ by lia. rewrite requests_app, IH.
  unfold attemptActions. destruct (Z.of_nat m >? 0); cbn; lia.
Qed.

Lemma traceOf_totalSleep (url : string) (m : nat) :
  (m <= 35)%nat ->
  totalSleep (traceOf url (Z.of_nat (S m)))
  = 500 * (2 ^ Z.of_nat m - 1) * Millisecond.
Proof.
  induction m as [| m IH]; intros Hm; [reflexivity |].
  rewrite (Nat2Z.inj_succ (S m)), <- Z.add_1_r.
  rewrite traceOf_succ by lia. rewrite totalSleep_app, IH by lia.
  unfold attemptActions.
  assert ((Z.of_nat (S m) >? 0) = true) as ->
    by (rewrite Z.gtb_ltb; apply Z.ltb_lt; lia).
  cbn [app totalSleep].
  rewrite backoffDuration_exact by lia.
  replace (Z.of_nat (S m) - 1) with (Z.of_nat m) by lia.
  rewrite (Nat2Z.inj_succ m), Z.pow_succ_r by lia. lia.
Qed.

(** With at most 35 retries configured, a fetch sends [n] requests, at
    least one and at most [MaxRetries + 1], and sleeps
    [500 ms * (2^(n-1) - 1)] in all between them; a fetch that returns an
    error has sent all [MaxRetries + 1] requests and slept
    [500 ms * (2^MaxRetries - 1)]. *)
Theorem fetchWithRetry_total_backoff (Data : Type) (http : Z -> response Data)
    (config : WeatherConfig) (url : string) :
  0 <= config.(MaxRetries) <= 35 ->
  exists n res trace,
    fetchWithRetry Data http config url = Some (res, trace)
    /\ 1 <= n <= config.(MaxRetries) + 1
    /\ requests trace = n
    /\ totalSleep trace = 500 * (2 ^ (n - 1) - 1) * Millisecond
    /\ (res.2 <> None -> n = config.(MaxRetries) + 1).
Proof.
  intros Hmax. unfold fetchWithRetry.
  destruct (attempts_spec Data http config url
              (Z.to_nat (config.(MaxRetries) + 1)) 0
              (S (S (Z.to_nat config.(MaxRetries)))) None)
    as (n & res & Hrun & Hn & Hlt & _ & Hres); try lia.
  change (traceOf url 0) with (@nil action) in Hrun.
  exists n, res, (traceOf url n). split; [exact Hrun |].
  specialize (Hlt ltac:(lia)). split; [lia |].
  specialize (Hres ltac:(lia)).
  assert (exists m, n = Z.of_nat (S m) /\ (m <= 35)%nat) as (m & -> & Hm)
    by (exists (Z.to_nat (n - 1)); lia).
  split; [apply traceOf_requests |].
  replace (Z.of_nat (S m) - 1) with (Z.of_nat m) in * by lia.
  split; [by apply traceOf_totalSleep |].
  destruct (failure (http (Z.of_nat m))) as [e |].
  - by destruct Hres.
  - destruct Hres as (d & _ & ->). by intros [].
Qed.

(** A negative [MaxRetries] makes no attempt at all, and the caller gets
    neither data nor an error. *)
Theorem fetchWithRetry_negative_retries (Data : Type) (http : Z -> response Data)
    (config : WeatherConfig) (url : string) :
  config.(MaxRetries) < 0 ->
  fetchWithRetry Data http config url = Some ((None, None), []).
Proof.
  intros Hneg. unfold fetchWithRetry. cbn [attempts].
  by assert ((0 <=? config.(MaxRetries)) = false) as -> by (apply Z.leb_gt; lia).
Qed.


Definition noRetries : WeatherConfig :=
  {| RefreshIntervalMinutes := 10; APIBaseURL := "";
     RequestTimeoutSeconds := 10; MaxRetries := -1;
     FetchMETAR := true; FetchTAF := true; FetchNOTAMs := true;
     CacheExpiryMinutes := 15 |}.

(** A vendor that answers the third request. *)
Definition upAtThird : Z -> response string :=
  fun attempt =>
    if attempt <? 2 then Response 503 (Undecodable "")
    else Response 200 (Decoded "METAR CYYZ").

Lemma fetchWithRetry_total_backoff_witness :
  0 <= DefaultWeatherConfig.(MaxRetries) <= 35 /\
  exists n res trace,
    fetchWithRetry string upAtThird DefaultWeatherConfig "u" = Some (res, trace)
    /\ 1 <= n <= DefaultWeatherConfig.(MaxRetries) + 1
    /\ requests trace = n
    /\ totalSleep trace = 500 * (2 ^ (n - 1) - 1) * Millisecond
    /\ (res.2 <> None -> n = DefaultWeatherConfig.(MaxRetries) + 1).
Proof.
  split; [cbn; lia |].
  apply (fetchWithRetry_total_backoff string upAtThird DefaultWeatherConfig "u").
  cbn. lia.
Defined.

Lemma fetchWithRetry_negative_retries_witness :
  noRetries.(MaxRetries) < 0 /\
  fetchWithRetry string upAtThird noRetries "u" = Some ((None, None), []).
Proof.
  split; [reflexivity |].
  apply (fetchWithRetry_negative_retries string upAtThird noRetries "u").
  reflexivity.
Defined.


End WeatherRetry.

(** ** Package adsb: hex codes, flight numbers and tail numbers *)

Module Tail.

Local Open Scope Z_scope.

(** A Go string is a sequence of bytes. *)
Definition gostring := list ascii.

Definition str (s : string) : gostring := list_ascii_of_string s.

(** [lo <= c && c <= hi] on bytes. *)
Definition between (lo hi c : ascii) : bool :=
  (N_of_ascii lo <=? N_of_ascii c)%N && (N_of_ascii c <=? N_of_ascii hi)%N.

(** *** Regular expressions

    The patterns of the classifiers are concatenations of character classes
    with bounded repetition, anchored at both ends of the text ([$] is the
    end of the text in Go).  The classes hold ASCII characters only, so a
    byte of a character outside ASCII matches none of them, as the
    character it belongs to matches none in Go. *)
Inductive re :=
  | Empty
  | Eps
  | Class (f : ascii -> bool)
  | Cat (r1 r2 : re)
  | Alt (r1 r2 : re).

Fixpoint nullable (r : re) : bool :=
  match r with
  | Empty => false
  | Eps => true
  | Class _ => false
  | Cat r1 r2 => nullable r1 && nullable r2
  | Alt r1 r2 => nullable r1 || nullable r2
  end.

Fixpoint deriv (r : re) (c : ascii) : re :=
  match r with
  | Empty => Empty
  | Eps => Empty
  | Class f => if f c then Eps else Empty
  | Cat r1 r2 =>
      if nullable r1 then Alt (Cat (deriv r1 c) r2) (deriv r2 c)
      else Cat (deriv r1 c) r2
  | Alt r1 r2 => Alt (deriv r1 c) (deriv r2 c)
  end.

(** [MatchString] of a pattern anchored with [^] and [$]. *)
Fixpoint MatchString (r : re) (s : gostring) : bool :=
  match s with
  | [] => nullable r
  | c :: s => MatchString (deriv r c) s
  end.

(** [r{0,k}] and [r{m,n}], unrolled. *)
Fixpoint upTo (k : nat) (r : re) : re :=
  match k with
  | O => Eps
  | S k => Alt Eps (Cat r (upTo k r))
  end.

Fixpoint times (m : nat) (r rest : re) : re :=
  match m with
  | O => rest
  | S m => Cat r (times m r rest)
  end.

Definition Repeat (min max : nat) (r : re) : re := times min r (upTo (max - min) r).

Definition Lit (c : ascii) : re := Class (Ascii.eqb c).

Definition digit : ascii -> bool := between "0" "9".
Definition upper : ascii -> bool := between "A" "Z".
Definition lower : ascii -> bool := between "a" "z".
Definition letter (c : ascii) : bool := upper c || lower c.
Definition hexChar (c : ascii) : bool :=
  digit c || between "a" "f" c || between "A" "F" c.
Definition upperOrDigit (c : ascii) : bool := upper c || digit c.

(** [^[0-9a-fA-F]{6}$] *)
Definition hexPattern : re := Repeat 6 6 (Class hexChar).

Definition IsHexCode (s : gostring) : bool := MatchString hexPattern s.

(** [^[A-Za-z]{2,3}[0-9]{1,4}$] *)
Definition flightPattern : re :=
  Cat (Repeat 2 3 (Class letter)) (Repeat 1 4 (Class digit)).

Definition IsFlightNumber (s : gostring) : bool := MatchString flightPattern s.

Definition tailPatterns : list re :=
  [ (* ^N[0-9]{1,5}$ *)
    Cat (Lit "N") (Repeat 1 5 (Class digit));
    (* ^N[0-9]{1,4}[A-Za-z]{1,2}$ *)
    Cat (Lit "N") (Cat (Repeat 1 4 (Class digit)) (Repeat 1 2 (Class letter)));
    (* ^[A-Z]-[A-Z0-9]{4}$ *)
    Cat (Class upper) (Cat (Lit "-") (Repeat 4 4 (Class upperOrDigit)));
    (* ^[A-Z]{2}-[A-Z0-9]{3,4}$ *)
    Cat (Repeat 2 2 (Class upper)) (Cat (Lit "-") (Repeat 3 4 (Class upperOrDigit)));
    (* ^[A-Z]{3}[0-9]{1,4}[A-Z]?$ *)
    Cat (Repeat 3 3 (Class upper))
        (Cat (Repeat 1 4 (Class digit)) (Repeat 0 1 (Class upper))) ].

Definition IsTailNumber (s : gostring) : bool :=
  existsb (fun pattern => MatchString pattern s) tailPatterns.

(** *** The conversion of ICAO addresses *)

Definition icaoSize : Z := 6.

Definition usCharset : gostring := str "ABCDEFGHJKLMNPQRSTUVWXYZ".
Definition digitset : gostring := str "0123456789".

Definition caAlphabet : gostring := str "ABCDEFGHIJKLMNOPQRSTUVWXYZ".
Definition caAlphabetLen : Z := 26.
Definition caMax3LetterVal : Z := caAlphabetLen * caAlphabetLen * caAlphabetLen.

Definition usAllChars : gostring := usCharset ++ digitset.

(** The values [init] computes. *)
Definition usCharsetLen : Z := Z.of_nat (length usCharset).
Definition usDigitsetLen : Z := Z.of_nat (length digitset).
Definition usAllCharsLen : Z := Z.of_nat (length usAllChars).

Definition usSuffixSize : Z := 1 + usCharsetLen * (1 + usCharsetLen).
Definition usBucket4Size : Z := 1 + usCharsetLen + usDigitsetLen.
Definition usBucket3Size : Z := usDigitsetLen * usBucket4Size + usSuffixSize.
Definition usBucket2Size : Z := usDigitsetLen * usBucket3Size + usSuffixSize.
Definition usBucket1Size : Z := usDigitsetLen * usBucket2Size + usSuffixSize.

(** [strconv.Itoa]. *)
Definition Itoa (i : Z) : gostring := str (NilZero.string_of_int (Z.to_int i)).

(** [string(s[i])] for an index the program has checked. *)
Definition charAt (s : gostring) (i : Z) : gostring :=
  match s !! Z.to_nat i with
  | Some c => [c]
  | None => []
  end.

Definition getSuffixUS (offset : Z) : gostring :=
  if offset =? 0 then []
  else
    let char0Idx := Z.quot (offset - 1) (usCharsetLen + 1) in
    if (char0Idx <? 0) || (char0Idx >=? usCharsetLen)
    then str "!ERR_IDX_" ++ Itoa char0Idx ++ str "!"
    else
      let char0 := charAt usCharset char0Idx in
      let rem := Z.rem (offset - 1) (usCharsetLen + 1) in
      if rem =? 0 then char0
      else if (rem - 1 <? 0) || (rem - 1 >=? usCharsetLen)
      then str "!ERR_REM_IDX_" ++ Itoa (rem - 1) ++ str "!"
      else char0 ++ charAt usCharset (rem - 1).

(** The errors of [strconv.ParseInt]. *)
Inductive numError := ErrSyntax | ErrRange.

(** The value of a digit in [strconv.ParseUint]. *)
Definition digitVal (c : ascii) : option Z :=
  if between "0" "9" c then Some (Z.of_N (N_of_ascii c) - 48)
  else if between "a" "z" c then Some (Z.of_N (N_of_ascii c) - 97 + 10)
  else if between "A" "Z" c then Some (Z.of_N (N_of_ascii c) - 65 + 10)
  else None.

(** The loop of [strconv.ParseUint(s, 16, 64)]. *)
Fixpoint parseUintLoop (s : gostring) (n : Z) : numError + Z :=
  match s with
  | [] => inr n
  | c :: s =>
      match digitVal c with
      | None => inl ErrSyntax
      | Some d =>
          if d >=? 16 then inl ErrSyntax
          else if n >=? 2 ^ 60 then inl ErrRange
          else parseUintLoop s (n * 16 + d)
      end
  end.

Definition ParseUint16 (s : gostring) : numError + Z :=
  match s with
  | [] => inl ErrSyntax
  | _ => parseUintLoop s 0
  end.

(** [strconv.ParseInt(s, 16, 64)]. *)
Definition ParseInt16 (s : gostring) : numError + Z :=
  match s with
  | [] => inl ErrSyntax
  | c :: rest =>
      let neg := Ascii.eqb c "-" in
      let s := if Ascii.eqb c "+" || neg then rest else s in
      match ParseUint16 s with
      | inl e => inl e
      | inr un =>
          if negb neg && (un >=? 2 ^ 63) then inl ErrRange
          else if neg && (un >? 2 ^ 63) then inl ErrRange
          else inr (if neg then - un else un)
      end
  end.

(** The errors of the conversions, one for each [fmt.Errorf]. *)
Inductive tailError :=
  | ErrLength
  | ErrNonHex (position : Z)
  | ErrPrefix
  | ErrParse (e : numError)
  | ErrOutOfRange
  | ErrInternal.

Inductive result :=
  | Ok (tail : gostring)
  | Err (e : tailError)
  | Panic.

Definition USIcaoToN (icaoUpper : gostring) : result :=
  match icaoUpper with
  | [] => Panic
  | _ :: valHex =>
      match ParseInt16 valHex with
      | inl e => Err (ErrParse e)
      | inr parsedVal =>
          let idx := GoInt.add64 parsedVal (-1) in
          if (idx <? 0) || (idx >? 915398) then Err ErrOutOfRange
          else
            let output := str "N" in
            let dig1 := Z.quot idx usBucket1Size + 1 in
            let rem1 := Z.rem idx usBucket1Size in
            let output := output ++ Itoa dig1 in
            if rem1 <? usSuffixSize then Ok (output ++ getSuffixUS rem1)
            else
              let rem1 := rem1 - usSuffixSize in
              let dig2 := Z.quot rem1 usBucket2Size in
              let rem2 := Z.rem rem1 usBucket2Size in
              let output := output ++ Itoa dig2 in
              if rem2 <? usSuffixSize then Ok (output ++ getSuffixUS rem2)
              else
                let rem2 := rem2 - usSuffixSize in
                let dig3 := Z.quot rem2 usBucket3Size in
                let rem3 := Z.rem rem2 usBucket3Size in
                let output := output ++ Itoa dig3 in
                if rem3 <? usSuffixSize then Ok (output ++ getSuffixUS rem3)
                else
                  let rem3 := rem3 - usSuffixSize in
                  let dig4 := Z.quot rem3 usBucket4Size in
                  let rem4 := Z.rem rem3 usBucket4Size in
                  let output := output ++ Itoa dig4 in
                  if rem4 =? 0 then Ok output
                  else if (rem4 - 1 <? 0) || (rem4 - 1 >=? usAllCharsLen)
                  then Err ErrInternal
                  else Ok (output ++ charAt usAllChars (rem4 - 1))
      end
  end.

Definition CAIcaoToN (icaoUpper : gostring) : result :=
  match icaoUpper with
  | [] => Panic
  | _ :: valHex =>
      match ParseInt16 valHex with
      | inl e => Err (ErrParse e)
      | inr d =>
          let letters (prefix : gostring) (dEff : Z) : result :=
            if (dEff <? 0) || (dEff >=? caMax3LetterVal) then Err ErrInternal
            else
              let l1Idx := Z.rem dEff caAlphabetLen in
              let dEff := Z.quot dEff caAlphabetLen in
              let l2Idx := Z.rem dEff caAlphabetLen in
              let dEff := Z.quot dEff caAlphabetLen in
              let l3Idx := Z.rem dEff caAlphabetLen in
              if (l1Idx <? 0) || (l1Idx >=? caAlphabetLen)
                 || (l2Idx <? 0) || (l2Idx >=? caAlphabetLen)
                 || (l3Idx <? 0) || (l3Idx >=? caAlphabetLen)
              then Err ErrInternal
              else
                let tailLetters :=
                  charAt caAlphabet l3Idx ++ charAt caAlphabet l2Idx
                  ++ charAt caAlphabet l1Idx in
                Ok (prefix ++ tailLetters) in
          if (d >=? 1) && (d <=? caMax3LetterVal)
          then letters (str "C-F") (GoInt.add64 d (-1))
          else if (d >=? caMax3LetterVal + 1) && (d <=? caMax3LetterVal * 2)
          then letters (str "C-G") (GoInt.add64 (GoInt.add64 d (-1)) (- caMax3LetterVal))
          else Err ErrOutOfRange
      end
  end.

(** [strings.ToUpper] on a string of ASCII characters. *)
Definition upperByte (c : ascii) : ascii :=
  if between "a" "z" c then ascii_of_N (N_of_ascii c - 32) else c.

Definition isASCII (s : gostring) : bool :=
  forallb (fun c => (N_of_ascii c <? 128)%N) s.

Section Icao.

(** [strings.ToUpper] on a string that is not all ASCII goes by Unicode
    characters; what it returns then is left open. *)
Variable unicodeToUpper : gostring -> gostring.

Definition ToUpper (s : gostring) : gostring :=
  if isASCII s then map upperByte s else unicodeToUpper s.

(** The loop over positions 1 to 5 of [IcaoToTailNumber]: the first
    position that does not hold a hex digit, if any. *)
Fixpoint checkHex (n : nat) (icaoUpper : gostring) (i : Z) : option result :=
  match n with
  | O => None
  | S n =>
      match icaoUpper !! Z.to_nat i with
      | None => Some Panic
      | Some char =>
          if between "0" "9" char || between "A" "F" char
          then checkHex n icaoUpper (i + 1)
          else Some (Err (ErrNonHex (i + 1)))
      end
  end.

Definition IcaoToTailNumber (icao : gostring) : result :=
  if negb (Z.of_nat (length icao) =? icaoSize) then Err ErrLength
  else
    let icaoUpper := ToUpper icao in
    match checkHex (Z.to_nat (icaoSize - 1)) icaoUpper 1 with
    | Some r => r
    | None =>
        match icaoUpper with
        | [] => Panic
        | firstChar :: _ =>
            if Ascii.eqb firstChar "A" then USIcaoToN icaoUpper
            else if Ascii.eqb firstChar "C" then CAIcaoToN icaoUpper
            else Err ErrPrefix
        end
    end.

End Icao.

(** *** What a pattern matches *)

Fixpoint lang (r : re) (s : gostring) : Prop :=
  match r with
  | Empty => False
  | Eps => s = []
  | Class f => exists c, s = [c] /\ f c = true
  | Cat r1 r2 => exists s1 s2, s = s1 ++ s2 /\ lang r1 s1 /\ lang r2 s2
  | Alt r1 r2 => lang r1 s \/ lang r2 s
  end.

Lemma nullable_lang (r : re) : nullable r = true <-> lang r [].
Proof.
  induction r as [| | f | r1 IH1 r2 IH2 | r1 IH1 r2 IH2]; cbn [nullable lang].
  - split; [discriminate | tauto].
  - tauto.
  - split; [discriminate | by intros (c & [=] & _)].
  - rewrite andb_true_iff, IH1, IH2. split.
    + intros [H1 H2]. by exists [], [].
    + intros (s1 & s2 & Heq & H1 & H2). symmetry in Heq.
      apply app_eq_nil in Heq as [-> ->]. tauto.
  - rewrite orb_true_iff, IH1, IH2. tauto.
Qed.

Lemma deriv_lang (r : re) (c : ascii) (s : gostring) :
  lang (deriv r c) s <-> lang r (c :: s).
Proof.
  revert s.
  induction r as [| | f | r1 IH1 r2 IH2 | r1 IH1 r2 IH2]; intros s;
    cbn [deriv lang].
  - tauto.
  - split; [tauto | discriminate].
  - destruct (f c) eqn:Hf; cbn [lang].
    + split; [intros ->; by exists c | by intros (c' & [= -> ->] & _)].
    + split; [tauto | intros (c' & [= <- ->] & Hc); congruence].
  - assert (lang (Cat (deriv r1 c) r2) s
            <-> exists s1 s2, s = s1 ++ s2 /\ lang r1 (c :: s1) /\ lang r2 s2) as Hcat.
    { cbn [lang]. split; intros (s1 & s2 & -> & H1 & H2); exists s1, s2;
        (split; [done |]); split; try done; by apply IH1. }
    assert ((exists s1 s2, c :: s = s1 ++ s2 /\ lang r1 s1 /\ lang r2 s2)
            <-> (exists s1 s2, s = s1 ++ s2 /\ lang r1 (c :: s1) /\ lang r2 s2)
                \/ (lang r1 [] /\ lang r2 (c :: s))) as ->.
    { split.
      - intros ([| c' s1] & s2 & Heq & H1 & H2).
        + right. cbn in Heq. by subst s2.
        + left. injection Heq as <- ->. by exists s1, s2.
      - intros [(s1 & s2 & -> & H1 & H2) | [H1 H2]].
        + by exists (c :: s1), s2.
        + by exists [], (c :: s). }
    destruct (nullable r1) eqn:Hn.
    + apply nullable_lang in Hn. change (lang (Alt ?a ?b) s) with (lang a s \/ lang b s).
      rewrite Hcat, IH2. tauto.
    + rewrite Hcat. split; [tauto |]. intros [H | [H1 _]]; [done |].
      apply nullable_lang in H1. congruence.
  - by rewrite IH1, IH2.
Qed.

Lemma MatchString_lang (r : re) (s : gostring) : MatchString r s = true <-> lang r s.
Proof.
  revert r. induction s as [| c s IH]; intros r; cbn [MatchString].
  - apply nullable_lang.
  - by rewrite IH, deriv_lang.
Qed.

Definition allIn (f : ascii -> bool) (s : gostring) : Prop :=
  Forall (fun c => f c = true) s.

Lemma lang_upTo (f : ascii -> bool) (k : nat) (s : gostring) :
  lang (upTo k (Class f)) s <-> (length s <= k)%nat /\ allIn f s.
Proof.
  revert s. induction k as [| k IH]; intros s; cbn [upTo lang].
  - split.
    + intros ->. split; [done | constructor].
    + intros [Hlen _]. destruct s; [done | cbn in Hlen; lia].
  - split.
    + intros [-> | (s1 & s2 & -> & (c & -> & Hc) & H2)].
      * split; [cbn; lia | constructor].
      * apply IH in H2 as [Hlen Hall]. split; [cbn; lia | by constructor].
    + intros [Hlen Hall]. destruct s as [| c s]; [by left | right].
      apply Forall_cons in Hall as [Hc Hall]. exists [c], s.
      split; [done |]. split; [by exists c |]. apply IH. cbn in Hlen. split; [lia | done].
Qed.

Lemma lang_times (f : ascii -> bool) (m : nat) (rest : re) (s : gostring) :
  lang (times m (Class f) rest) s
  <-> exists s1 s2, s = s1 ++ s2 /\ length s1 = m /\ allIn f s1 /\ lang rest s2.
Proof.
  revert s. induction m as [| m IH]; intros s; cbn [times lang].
  - split.
    + intros H. exists [], s. repeat split; (done || constructor).
    + intros (s1 & s2 & -> & Hlen & _ & H). by destruct s1.
  - split.
    + intros (s1 & s2 & -> & (c & -> & Hc) & H2).
      apply IH in H2 as (t1 & t2 & -> & Hlen & Hall & Hrest).
      exists (c :: t1), t2. repeat split; try done; [cbn; lia | by constructor].
    + intros ([| c s1] & s2 & -> & Hlen & Hall & Hrest); [done |].
      apply Forall_cons in Hall as [Hc Hall].
      exists [c], (s1 ++ s2). split; [done |]. split; [by exists c |].
      apply IH. exists s1, s2. cbn in Hlen. repeat split; (done || lia).
Qed.

(** A class repeated between [min] and [max] times and then [rest]. *)
Lemma lang_Repeat_then (f : ascii -> bool) (min max : nat) (rest : re) (s : gostring) :
  (min <= max)%nat ->
  lang (Cat (Repeat min max (Class f)) rest) s
  <-> exists s1 s2, s = s1 ++ s2 /\ (min <= length s1 <= max)%nat /\ allIn f s1
                    /\ lang rest s2.
Proof.
  intros Hle. cbn [lang]. unfold Repeat. split.
  - intros (s1 & s2 & -> & H1 & H2).
    apply lang_times in H1 as (t1 & t2 & -> & Hlen & Hall & Hup).
    apply lang_upTo in Hup as [Hlen2 Hall2].
    exists (t1 ++ t2), s2. repeat split; try done.
    + rewrite length_app. lia.
    + rewrite length_app. lia.
    + by apply Forall_app.
  - intros (s1 & s2 & -> & Hlen & Hall & Hrest).
    exists s1, s2. split; [done |]. split; [| done].
    apply lang_times. exists (take min s1), (drop min s1).
    rewrite take_drop. split; [done |].
    split; [rewrite length_take; lia |].
    split; [by apply Forall_take |].
    apply lang_upTo. split; [rewrite length_drop; lia | by apply Forall_drop].
Qed.

Lemma lang_Repeat (f : ascii -> bool) (min max : nat) (s : gostring) :
  (min <= max)%nat ->
  lang (Repeat min max (Class f)) s <-> (min <= length s <= max)%nat /\ allIn f s.
Proof.
  intros Hle.
  assert (lang (Repeat min max (Class f)) s
          <-> lang (Cat (Repeat min max (Class f)) Eps) s) as ->.
  { cbn [lang]. split.
    - intros H. exists s, []. by rewrite app_nil_r.
    - intros (s1 & s2 & -> & H & ->). by rewrite app_nil_r. }
  rewrite lang_Repeat_then by done. cbn [lang]. split.
  - intros (s1 & s2 & -> & Hlen & Hall & ->). by rewrite app_nil_r.
  - intros [Hlen Hall]. exists s, []. by rewrite app_nil_r.
Qed.

Lemma lang_Lit_then (c : ascii) (rest : re) (s : gostring) :
  lang (Cat (Lit c) rest) s <-> exists s2, s = c :: s2 /\ lang rest s2.
Proof.
  cbn [lang Lit]. split.
  - intros (s1 & s2 & -> & (c' & -> & Hc) & H2).
    apply Ascii.eqb_eq in Hc as <-. by exists s2.
  - intros (s2 & -> & H2). exists [c], s2. split; [done |]. split; [| done].
    exists c. split; [done | apply Ascii.eqb_refl].
Qed.

Lemma hexCode_intro (s : gostring) :
  length s = 6%nat /\ allIn hexChar s -> IsHexCode s = true.
Proof.
  intros [Hlen Hall]. unfold IsHexCode, hexPattern.
  apply MatchString_lang, lang_Repeat; [lia |]. split; [lia | done].
Qed.

(** [IsHexCode] accepts exactly the strings of six hex digits, in either
    case. *)
Theorem IsHexCode_six_hex_digits (s : gostring) :
  IsHexCode s = true <-> length s = 6%nat /\ allIn hexChar s.
Proof.
  unfold IsHexCode, hexPattern.
  rewrite MatchString_lang, lang_Repeat by lia.
  split; intros [Hlen Hall]; (split; [lia | done]).
Qed.

(** *** Canadian addresses *)

(** The [i]-th capital letter. *)
Definition capital (i : Z) : ascii := ascii_of_N (Z.to_N (65 + i)).

Lemma below_cases (k : nat) (i : Z) :
  0 <= i < Z.of_nat k -> exists n, (n < k)%nat /\ i = Z.of_nat n.
Proof. intros Hi. exists (Z.to_nat i). lia. Qed.

Lemma charAt_caAlphabet (i : Z) :
  0 <= i < 26 -> charAt caAlphabet i = [capital i] /\ upper (capital i) = true.
Proof.
  intros Hi. destruct (below_cases 26 i Hi) as (n & Hn & ->).
  do 26 (destruct n as [| n]; [by split |]). lia.
Qed.

Lemma capital_inj (i j : Z) : 0 <= i < 26 -> 0 <= j < 26 -> capital i = capital j -> i = j.
Proof.
  intros Hi Hj Heq. apply (f_equal N_of_ascii) in Heq. unfold capital in Heq.
  rewrite !N_ascii_embedding in Heq by lia. lia.
Qed.

(** The tail number of the [e]-th address of a block of [26^3]. *)
Definition caLetters (e : Z) : gostring :=
  [capital (e / 676); capital (e / 26 mod 26); capital (e mod 26)].

Lemma CAIcaoToN_spec (c0 : ascii) (valHex : gostring) (d : Z) :
  ParseInt16 valHex = inr d ->
  CAIcaoToN (c0 :: valHex)
  = if (1 <=? d) && (d <=? 17576) then Ok (str "C-F" ++ caLetters (d - 1))
    else if (17577 <=? d) && (d <=? 35152) then Ok (str "C-G" ++ caLetters (d - 17577))
    else Err ErrOutOfRange.
Proof.
  intros Hparse. unfold CAIcaoToN. rewrite Hparse.
  change caMax3LetterVal with 17576. change caAlphabetLen with 26.
  change (17576 + 1) with 17577. change (17576 * 2) with 35152.
  rewrite !Z.geb_leb.
  assert (forall prefix e, 0 <= e < 17576 ->
            (if (e <? 0) || (17576 <=? e) then Err ErrInternal
             else
               if (Z.rem e 26 <? 0) || (26 <=? Z.rem e 26)
                  || (Z.rem (Z.quot e 26) 26 <? 0) || (26 <=? Z.rem (Z.quot e 26) 26)
                  || (Z.rem (Z.quot (Z.quot e 26) 26) 26 <? 0)
                  || (26 <=? Z.rem (Z.quot (Z.quot e 26) 26) 26)
               then Err ErrInternal
               else Ok (prefix ++ charAt caAlphabet (Z.rem (Z.quot (Z.quot e 26) 26) 26)
                               ++ charAt caAlphabet (Z.rem (Z.quot e 26) 26)
                               ++ charAt caAlphabet (Z.rem e 26)))
            = Ok (prefix ++ caLetters e)) as Hletters.
  { intros prefix e He.
    rewrite !Z.quot_div_nonneg, !Z.rem_mod_nonneg by
      (try apply Z.div_pos; try apply Z.div_pos; lia).
    rewrite Z.div_div by lia. change (26 * 26) with 676.
    pose proof (Z.mod_pos_bound e 26 ltac:(lia)).
    pose proof (Z.mod_pos_bound (e / 26) 26 ltac:(lia)).
    assert (0 <= e / 676 < 26) as H676.
    { split; [apply Z.div_pos; lia | apply Z.div_lt_upper_bound; lia]. }
    rewrite (Z.mod_small (e / 676)) by lia.
    assert ((e <? 0) = false) as -> by lia.
    assert ((17576 <=? e) = false) as -> by lia.
    assert ((e mod 26 <? 0) = false) as -> by lia.
    assert ((26 <=? e mod 26) = false) as -> by lia.
    assert ((e / 26 mod 26 <? 0) = false) as -> by lia.
    assert ((26 <=? e / 26 mod 26) = false) as -> by lia.
    assert ((e / 676 <? 0) = false) as -> by lia.
    assert ((26 <=? e / 676) = false) as -> by lia.
    cbn [orb].
    destruct (charAt_caAlphabet (e mod 26) ltac:(lia)) as [-> _].
    destruct (charAt_caAlphabet (e / 26 mod 26) ltac:(lia)) as [-> _].
    destruct (charAt_caAlphabet (e / 676) ltac:(lia)) as [-> _].
    reflexivity. }
  destruct ((1 <=? d) && (d <=? 17576)) eqn:HF.
  - apply andb_true_iff in HF as [H1 H2].
    unfold GoInt.add64. rewrite GoInt.wrap64_small by lia.
    replace (d + -1) with (d - 1) by lia. apply Hletters. lia.
  - destruct ((17577 <=? d) && (d <=? 35152)) eqn:HG; [| reflexivity].
    apply andb_true_iff in HG as [H1 H2].
    unfold GoInt.add64. rewrite !GoInt.wrap64_small by (rewrite ?GoInt.wrap64_small; lia).
    match goal with
    | |- context [Z.rem ?x 26] =>
        lazymatch x with
        | Z.quot _ _ => fail
        | _ => replace x with (d - 17577) by lia
        end
    end.
    apply Hletters. lia.
Qed.

Lemma caLetters_upper (e : Z) : 0 <= e < 17576 -> allIn upper (caLetters e).
Proof.
  intros He. unfold caLetters.
  pose proof (Z.mod_pos_bound e 26 ltac:(lia)).
  pose proof (Z.mod_pos_bound (e / 26) 26 ltac:(lia)).
  assert (0 <= e / 676 < 26)
    by (split; [apply Z.div_pos; lia | apply Z.div_lt_upper_bound; lia]).
  repeat constructor; by apply charAt_caAlphabet.
Qed.

Lemma caLetters_inj (e1 e2 : Z) :
  0 <= e1 < 17576 -> 0 <= e2 < 17576 -> caLetters e1 = caLetters e2 -> e1 = e2.
Proof.
  intros H1 H2 Heq. unfold caLetters in Heq. injection Heq as Ha Hb Hc.
  pose proof (Z.mod_pos_bound e1 26 ltac:(lia)).
  pose proof (Z.mod_pos_bound (e1 / 26) 26 ltac:(lia)).
  pose proof (Z.mod_pos_bound e2 26 ltac:(lia)).
  pose proof (Z.mod_pos_bound (e2 / 26) 26 ltac:(lia)).
  assert (0 <= e1 / 676 < 26)
    by (split; [apply Z.div_pos; lia | apply Z.div_lt_upper_bound; lia]).
  assert (0 <= e2 / 676 < 26)
    by (split; [apply Z.div_pos; lia | apply Z.div_lt_upper_bound; lia]).
  apply capital_inj in Ha, Hb, Hc; try lia.
  pose proof (Z.div_mod e1 26 ltac:(lia)). pose proof (Z.div_mod e2 26 ltac:(lia)).
  pose proof (Z.div_mod (e1 / 26) 26 ltac:(lia)).
  pose proof (Z.div_mod (e2 / 26) 26 ltac:(lia)).
  rewrite !Z.div_div in * by lia. change (26 * 26) with 676 in *. lia.
Qed.

Lemma upper_upperOrDigit (s : gostring) : allIn upper s -> allIn upperOrDigit s.
Proof.
  intros H. eapply Forall_impl; [exact H |].
  intros c Hc. unfold upperOrDigit. by rewrite Hc.
Qed.

(** A string [X-LLLL] of a capital, a dash and four capitals is a tail
    number. *)
Lemma IsTailNumber_dash4 (c : ascii) (s : gostring) :
  upper c = true -> length s = 4%nat -> allIn upper s ->
  IsTailNumber (c :: "-"%char :: s) = true.
Proof.
  intros Hc Hlen Hall. unfold IsTailNumber, tailPatterns. cbn [existsb].
  assert (MatchString
            (Cat (Class upper) (Cat (Lit "-") (Repeat 4 4 (Class upperOrDigit))))
            (c :: "-"%char :: s) = true) as ->; [| by rewrite !orb_true_r].
  apply MatchString_lang. exists [c], ("-"%char :: s).
  split; [done |]. split; [by exists c |].
  apply lang_Lit_then. exists s. split; [done |].
  apply lang_Repeat; [lia |]. split; [lia | by apply upper_upperOrDigit].
Qed.

(** [CAIcaoToN] maps the values 1 to 17576 to [C-F] and the values 17577
    to 35152 to [C-G], each followed by the three capitals that write the
    offset in the block in base 26 ([AAA] first); the result is a tail
    number for [IsTailNumber]; every other value is an error. *)
Theorem CAIcaoToN_blocks (c0 : ascii) (valHex : gostring) (d : Z) :
  ParseInt16 valHex = inr d ->
  match CAIcaoToN (c0 :: valHex) with
  | Ok tail =>
      1 <= d <= 35152
      /\ tail = str (if d <=? 17576 then "C-F" else "C-G")
                ++ caLetters ((d - 1) mod 17576)
      /\ IsTailNumber tail = true
  | Err e => e = ErrOutOfRange /\ (d < 1 \/ 35152 < d)
  | Panic => False
  end.
Proof.
  intros Hparse. rewrite (CAIcaoToN_spec c0 valHex d Hparse).
  destruct ((1 <=? d) && (d <=? 17576)) eqn:HF.
  - apply andb_true_iff in HF as [H1 H2].
    assert ((d <=? 17576) = true) as -> by lia.
    rewrite (Z.mod_small (d - 1)) by lia.
    split; [lia |]. split; [reflexivity |].
    apply (IsTailNumber_dash4 "C" ("F"%char :: caLetters (d - 1))); [done | done |].
    constructor; [done |]. apply caLetters_upper. lia.
  - destruct ((17577 <=? d) && (d <=? 35152)) eqn:HG.
    + apply andb_true_iff in HG as [H1 H2].
      assert ((d <=? 17576) = false) as -> by lia.
      replace ((d - 1) mod 17576) with (d - 17577).
      2: { apply (Z.mod_unique_pos _ _ 1); lia. }
      split; [lia |]. split; [reflexivity |].
      apply (IsTailNumber_dash4 "C" ("G"%char :: caLetters (d - 17577))); [done | done |].
      constructor; [done |]. apply caLetters_upper. lia.
    + split; [reflexivity |]. lia.
Qed.

(** Two Canadian addresses with the same tail number are the same
    address. *)
Theorem CAIcaoToN_injective (c1 c2 : ascii) (hex1 hex2 tail : gostring) (d1 d2 : Z) :
  ParseInt16 hex1 = inr d1 -> ParseInt16 hex2 = inr d2 ->
  CAIcaoToN (c1 :: hex1) = Ok tail -> CAIcaoToN (c2 :: hex2) = Ok tail ->
  d1 = d2.
Proof.
  intros Hp1 Hp2.
  rewrite (CAIcaoToN_spec c1 hex1 d1 Hp1), (CAIcaoToN_spec c2 hex2 d2 Hp2).
  destruct ((1 <=? d1) && (d1 <=? 17576)) eqn:HF1;
    [| destruct ((17577 <=? d1) && (d1 <=? 35152)) eqn:HG1; [| discriminate]];
    (destruct ((1 <=? d2) && (d2 <=? 17576)) eqn:HF2;
     [| destruct ((17577 <=? d2) && (d2 <=? 35152)) eqn:HG2; [| discriminate]]);
    intros H1 H2; rewrite <- H1 in H2; clear H1;
    assert (forall a b, Ok a = Ok b -> a = b) as Hinj by (by intros a b [= ->]);
    apply Hinj in H2.
  - apply app_inv_head, caLetters_inj in H2; lia.
  - apply (f_equal (fun l => l !! 2%nat)) in H2. discriminate H2.
  - apply (f_equal (fun l => l !! 2%nat)) in H2. discriminate H2.
  - apply app_inv_head, caLetters_inj in H2; lia.
Qed.

Lemma CAIcaoToN_blocks_witness :
  ParseInt16 (str "0894F") = inr 35151 /\
  match CAIcaoToN (str "C0894F") with
  | Ok tail =>
      1 <= 35151 <= 35152
      /\ tail = str (if 35151 <=? 17576 then "C-F" else "C-G")
                ++ caLetters ((35151 - 1) mod 17576)
      /\ IsTailNumber tail = true
  | Err e => e = ErrOutOfRange /\ (35151 < 1 \/ 35152 < 35151)
  | Panic => False
  end.
Proof.
  split; [reflexivity |].
  apply (CAIcaoToN_blocks "C" (str "0894F") 35151). reflexivity.
Defined.

Lemma CAIcaoToN_injective_witness :
  ParseInt16 (str "0001B") = inr 27 /\ ParseInt16 (str "001b") = inr 27 /\
  CAIcaoToN (str "C0001B") = Ok (str "C-FABA") /\
  CAIcaoToN (str "c001b") = Ok (str "C-FABA") /\ 27 = 27.
Proof.
  repeat (split; [reflexivity |]).
  apply (CAIcaoToN_injective "C" "c" (str "0001B") (str "001b") (str "C-FABA") 27 27);
    reflexivity.
Defined.

(** *** United States addresses *)

(** The character of a decimal digit. *)
Definition digitChar (d : Z) : ascii := ascii_of_N (Z.to_N (48 + d)).

Lemma Itoa_digit (d : Z) :
  0 <= d <= 9 ->
  Itoa d = [digitChar d] /\ digit (digitChar d) = true
  /\ (1 <= d -> between "1" "9" (digitChar d) = true).
Proof.
  intros Hd. destruct (below_cases 10 d ltac:(lia)) as (n & Hn & ->).
  do 10 (destruct n as [| n]; [repeat split; (reflexivity || lia) |]). lia.
Qed.

(** A letter of a registration: a capital other than [I] and [O]. *)
Definition usLetter (c : ascii) : bool := existsb (Ascii.eqb c) usCharset.

Lemma charAt_usCharset (i : Z) :
  0 <= i < 24 -> exists c, charAt usCharset i = [c] /\ usLetter c = true.
Proof.
  intros Hi. destruct (below_cases 24 i Hi) as (n & Hn & ->).
  do 24 (destruct n as [| n]; [eexists; split; reflexivity |]). lia.
Qed.

Lemma charAt_usAllChars (i : Z) :
  0 <= i < 34 ->
  exists c, charAt usAllChars i = [c]
            /\ (if i <? 24 then usLetter c else digit c) = true.
Proof.
  intros Hi. destruct (below_cases 34 i Hi) as (n & Hn & ->).
  do 34 (destruct n as [| n]; [eexists; split; reflexivity |]). lia.
Qed.

Lemma usLetter_letter (c : ascii) : usLetter c = true -> letter c = true.
Proof.
  unfold usLetter. rewrite existsb_exists. intros (x & Hin & Hx).
  apply Ascii.eqb_eq in Hx as ->.
  cbn in Hin. repeat (destruct Hin as [<- | Hin]; [reflexivity |]). destruct Hin.
Qed.

Lemma getSuffixUS_shape (offset : Z) :
  0 <= offset < 601 ->
  (length (getSuffixUS offset) <= 2)%nat /\ allIn usLetter (getSuffixUS offset).
Proof.
  intros Ho. unfold getSuffixUS.
  change usCharsetLen with 24. change (24 + 1) with 25.
  destruct (offset =? 0) eqn:H0; [split; [cbn; lia | constructor] |].
  apply Z.eqb_neq in H0.
  rewrite Z.quot_div_nonneg, Z.rem_mod_nonneg by lia.
  pose proof (Z.mod_pos_bound (offset - 1) 25 ltac:(lia)) as Hm.
  assert (0 <= (offset - 1) / 25 < 24) as Hq
    by (split; [apply Z.div_pos; lia | apply Z.div_lt_upper_bound; lia]).
  assert (((offset - 1) / 25 <? 0) = false) as -> by lia.
  assert (((offset - 1) / 25 >=? 24) = false) as -> by lia.
  cbn [orb].
  destruct (charAt_usCharset _ Hq) as (c0 & -> & Hc0).
  destruct ((offset - 1) mod 25 =? 0) eqn:Hr.
  - split; [cbn; lia | by repeat constructor].
  - apply Z.eqb_neq in Hr.
    assert (((offset - 1) mod 25 - 1 <? 0) = false) as -> by lia.
    assert (((offset - 1) mod 25 - 1 >=? 24) = false) as -> by lia.
    cbn [orb].
    destruct (charAt_usCharset ((offset - 1) mod 25 - 1) ltac:(lia)) as (c1 & -> & Hc1).
    split; [cbn; lia | by repeat constructor].
Qed.

(** The shape of an N-number: [N], then one to five digits and letters,
    of which the first is a digit from 1 to 9 and only the last two may be
    letters, neither [I] nor [O]. *)
Definition nNumber (tail : gostring) : Prop :=
  exists (d1 : ascii) (digits letters : gostring),
    tail = "N"%char :: d1 :: digits ++ letters
    /\ between "1" "9" d1 = true
    /\ allIn digit digits /\ allIn usLetter letters
    /\ (length letters <= 2)%nat
    /\ (length digits + length letters <= 4)%nat.

Lemma nNumber_IsTailNumber (tail : gostring) : nNumber tail -> IsTailNumber tail = true.
Proof.
  intros (d1 & digits & letters & -> & Hd1 & Hdigits & Hletters & Hl & Hlen).
  assert (digit d1 = true) as Hdigit1.
  { unfold digit, between in *. apply andb_true_iff in Hd1 as [H1 H2].
    apply N.leb_le in H1, H2. apply andb_true_iff.
    split; apply N.leb_le; [| done]. cbn in *. lia. }
  unfold IsTailNumber, tailPatterns. cbn [existsb].
  destruct letters as [| l letters].
  - rewrite app_nil_r. cbn in Hlen.
    assert (MatchString (Cat (Lit "N") (Repeat 1 5 (Class digit)))
                        ("N"%char :: d1 :: digits) = true) as ->; [| done].
    apply MatchString_lang, lang_Lit_then. eexists. split; [done |].
    apply lang_Repeat; [lia |]. split; [cbn; lia | by constructor].
  - assert (MatchString
              (Cat (Lit "N") (Cat (Repeat 1 4 (Class digit)) (Repeat 1 2 (Class letter))))
              ("N"%char :: d1 :: digits ++ l :: letters) = true) as ->;
      [| by rewrite orb_true_r].
    apply MatchString_lang, lang_Lit_then. eexists. split; [done |].
    apply lang_Repeat_then; [lia |].
    exists (d1 :: digits), (l :: letters). split; [done |].
    cbn [length] in *. split; [lia |]. split; [by constructor |].
    apply lang_Repeat; [lia |]. split; [cbn [length]; lia |].
    eapply Forall_impl; [exact Hletters |]. apply usLetter_letter.
Qed.

Lemma nNumber_suffix (d1 : ascii) (digits : gostring) (offset : Z) :
  between "1" "9" d1 = true -> allIn digit digits -> (length digits <= 2)%nat ->
  0 <= offset < 601 ->
  nNumber ("N"%char :: d1 :: digits ++ getSuffixUS offset).
Proof.
  intros Hd1 Hdigits Hlen Ho. destruct (getSuffixUS_shape offset Ho) as [Hl Hall].
  exists d1, digits, (getSuffixUS offset). repeat split; (done || lia).
Qed.

Lemma USIcaoToN_spec (c0 : ascii) (valHex : gostring) (v : Z) :
  ParseInt16 valHex = inr v ->
  match USIcaoToN (c0 :: valHex) with
  | Ok tail => 1 <= v <= 915399 /\ nNumber tail
  | Err e => e = ErrOutOfRange /\ (v < 1 \/ 915399 < v)
  | Panic => False
  end.
Proof.
  intros Hparse. unfold USIcaoToN. rewrite Hparse.
  assert (- 2 ^ 63 <= v < 2 ^ 63) as Hv64.
  { revert Hparse. unfold ParseInt16. destruct valHex as [| c rest]; [discriminate |].
    destruct (ParseUint16 _) as [e | un] eqn:Hun; [discriminate |].
    assert (0 <= un) as Hun0.
    { revert Hun. unfold ParseUint16.
      assert (forall s n, 0 <= n -> parseUintLoop s n = inr un -> 0 <= un) as Hloop.
      { induction s as [| a s IH]; intros n Hn; cbn [parseUintLoop].
        - by intros [= <-].
        - unfold digitVal.
          assert (0 <= Z.of_N (N_of_ascii a)) by lia.
          destruct (between "0" "9" a) eqn:E1.
          { apply andb_true_iff in E1 as [E1 _]. apply N.leb_le in E1. cbn in E1.
            repeat case_match; try discriminate. apply IH. lia. }
          destruct (between "a" "z" a) eqn:E2.
          { apply andb_true_iff in E2 as [E2 _]. apply N.leb_le in E2. cbn in E2.
            repeat case_match; try discriminate. apply IH. lia. }
          destruct (between "A" "Z" a) eqn:E3; [| discriminate].
          apply andb_true_iff in E3 as [E3 _]. apply N.leb_le in E3. cbn in E3.
          repeat case_match; try discriminate. apply IH. lia. }
      destruct (if _ : bool then rest else c :: rest); [discriminate |].
      by apply Hloop. }
    destruct (Ascii.eqb c "-"); cbn [negb andb].
    - destruct (un >? 2 ^ 63) eqn:Hgt; [discriminate |]. intros [= <-]. lia.
    - destruct (un >=? 2 ^ 63) eqn:Hge; [discriminate |]. intros [= <-]. lia. }
  destruct (decide (v = - 2 ^ 63)) as [-> | Hmin].
  { vm_compute. split; [reflexivity | left; reflexivity]. }
  unfold GoInt.add64. rewrite GoInt.wrap64_small by lia.
  replace (v + -1) with (v - 1) by lia.
  destruct ((v - 1 <? 0) || (v - 1 >? 915398)) eqn:Hrange.
  { split; [reflexivity |]. apply orb_true_iff in Hrange as [H | H]; lia. }
  apply orb_false_iff in Hrange as [Hlo Hhi].
  assert (0 <= v - 1 <= 915398) as Hidx by lia. clear Hlo Hhi.
  match goal with
  | |- match ?e with _ => _ end =>
      assert (exists tail, e = Ok tail /\ nNumber tail) as (tail & -> & Hn);
        [| split; [lia | exact Hn]]
  end.
  set (idx := v - 1) in *.
  change usBucket1Size with 101711. change usBucket2Size with 10111.
  change usBucket3Size with 951. change usBucket4Size with 35.
  change usSuffixSize with 601. change usAllCharsLen with 34.
  change (str "N") with ["N"%char].
  rewrite (Z.quot_div_nonneg idx), (Z.rem_mod_nonneg idx) by lia.
  pose proof (Z.mod_pos_bound idx 101711 ltac:(lia)) as Hrem1.
  assert (0 <= idx / 101711 <= 8) as Hq1.
  { split; [apply Z.div_pos; lia |].
    assert (idx / 101711 < 9) by (apply Z.div_lt_upper_bound; lia). lia. }
  destruct (Itoa_digit (idx / 101711 + 1) ltac:(lia)) as (-> & _ & Hd1).
  specialize (Hd1 ltac:(lia)). set (d1 := digitChar (idx / 101711 + 1)) in *.
  destruct (idx mod 101711 <? 601) eqn:Hs1.
  { eexists. split; [reflexivity |].
    apply (nNumber_suffix d1 []); [done | constructor | cbn; lia | lia]. }
  set (rem1 := idx mod 101711 - 601).
  assert (0 <= rem1 < 101110) as Hrem1' by lia.
  rewrite (Z.quot_div_nonneg rem1), (Z.rem_mod_nonneg rem1) by lia.
  pose proof (Z.mod_pos_bound rem1 10111 ltac:(lia)) as Hrem2.
  assert (0 <= rem1 / 10111 <= 9) as Hq2.
  { split; [apply Z.div_pos; lia |].
    assert (rem1 / 10111 < 10) by (apply Z.div_lt_upper_bound; lia). lia. }
  destruct (Itoa_digit (rem1 / 10111) Hq2) as (-> & Hd2 & _).
  set (d2 := digitChar (rem1 / 10111)) in *.
  destruct (rem1 mod 10111 <? 601) eqn:Hs2.
  { eexists. split; [reflexivity |].
    apply (nNumber_suffix d1 [d2]); [done | by repeat constructor | cbn; lia | lia]. }
  set (rem2 := rem1 mod 10111 - 601).
  assert (0 <= rem2 < 9510) as Hrem2' by lia.
  rewrite (Z.quot_div_nonneg rem2), (Z.rem_mod_nonneg rem2) by lia.
  pose proof (Z.mod_pos_bound rem2 951 ltac:(lia)) as Hrem3.
  assert (0 <= rem2 / 951 <= 9) as Hq3.
  { split; [apply Z.div_pos; lia |].
    assert (rem2 / 951 < 10) by (apply Z.div_lt_upper_bound; lia). lia. }
  destruct (Itoa_digit (rem2 / 951) Hq3) as (-> & Hd3 & _).
  set (d3 := digitChar (rem2 / 951)) in *.
  destruct (rem2 mod 951 <? 601) eqn:Hs3.
  { eexists. split; [reflexivity |].
    apply (nNumber_suffix d1 [d2; d3]); [done | by repeat constructor | cbn; lia | lia]. }
  set (rem3 := rem2 mod 951 - 601).
  assert (0 <= rem3 < 350) as Hrem3' by lia.
  rewrite (Z.quot_div_nonneg rem3), (Z.rem_mod_nonneg rem3) by lia.
  pose proof (Z.mod_pos_bound rem3 35 ltac:(lia)) as Hrem4.
  assert (0 <= rem3 / 35 <= 9) as Hq4.
  { split; [apply Z.div_pos; lia |].
    assert (rem3 / 35 < 10) by (apply Z.div_lt_upper_bound; lia). lia. }
  destruct (Itoa_digit (rem3 / 35) Hq4) as (-> & Hd4 & _).
  set (d4 := digitChar (rem3 / 35)) in *.
  destruct (rem3 mod 35 =? 0) eqn:Hz.
  { eexists. split; [reflexivity |].
    exists d1, [d2; d3; d4], [].
    repeat split; try done; try (cbn; lia); by repeat constructor. }
  apply Z.eqb_neq in Hz.
  assert ((rem3 mod 35 - 1 <? 0) = false) as -> by lia.
  assert ((rem3 mod 35 - 1 >=? 34) = false) as -> by lia.
  cbn [orb].
  destruct (charAt_usAllChars (rem3 mod 35 - 1) ltac:(lia)) as (c & -> & Hc).
  eexists. split; [reflexivity |].
  destruct (rem3 mod 35 - 1 <? 24).
  - exists d1, [d2; d3; d4], [c].
    repeat split; try done; try (cbn; lia); by repeat constructor.
  - exists d1, [d2; d3; d4; c], [].
    repeat split; try done; try (cbn; lia); by repeat constructor.
Qed.

(** [USIcaoToN] turns each value from 1 to 915399 ([A00001] to
    [ADF7C7]) into an N-number: [N], a digit from 1 to 9, and up to four
    more characters, digits first and at most two letters (never [I] or
    [O]) last; [IsTailNumber] accepts it.  The internal-error return is
    never taken, and every other value is reported out of range. *)
Theorem USIcaoToN_n_numbers (c0 : ascii) (valHex : gostring) (v : Z) :
  ParseInt16 valHex = inr v ->
  match USIcaoToN (c0 :: valHex) with
  | Ok tail => 1 <= v <= 915399 /\ nNumber tail /\ IsTailNumber tail = true
  | Err e => e = ErrOutOfRange /\ (v < 1 \/ 915399 < v)
  | Panic => False
  end.
Proof.
  intros Hparse. pose proof (USIcaoToN_spec c0 valHex v Hparse) as H.
  destruct (USIcaoToN (c0 :: valHex)) as [tail | e |]; [| done | done].
  destruct H as [Hv Hn]. repeat split; try done; try lia.
  by apply nNumber_IsTailNumber.
Qed.

Lemma USIcaoToN_n_numbers_witness :
  ParseInt16 (str "DF7C7") = inr 915399 /\
  match USIcaoToN (str "ADF7C7") with
  | Ok tail => 1 <= 915399 <= 915399 /\ nNumber tail /\ IsTailNumber tail = true
  | Err e => e = ErrOutOfRange /\ (915399 < 1 \/ 915399 < 915399)
  | Panic => False
  end.
Proof.
  split; [reflexivity |].
  apply (USIcaoToN_n_numbers "A" (str "DF7C7") 915399). reflexivity.
Defined.

(** The first and the last address of the range. *)
Example USIcaoToN_ends :
  USIcaoToN (str "A00001") = Ok (str "N1")
  /\ USIcaoToN (str "ADF7C7") = Ok (str "N99999")
  /\ USIcaoToN (str "ADF7C8") = Err ErrOutOfRange.
Proof. repeat split; vm_compute; reflexivity. Qed.

(** *** Any address *)

(** The test of the loop of [IcaoToTailNumber]. *)
Definition upperHex (c : ascii) : bool := between "0" "9" c || between "A" "F" c.

Ltac each_byte c :=
  destruct c as [[] [] [] [] [] [] [] []].

Lemma upperHex_upperByte (c : ascii) : upperHex (upperByte c) = hexChar c.
Proof. each_byte c; reflexivity. Qed.

Lemma upperByte_idem (c : ascii) : upperByte (upperByte c) = upperByte c.
Proof. each_byte c; reflexivity. Qed.

Lemma upperByte_ascii (c : ascii) :
  (N_of_ascii c <? 128)%N = true -> (N_of_ascii (upperByte c) <? 128)%N = true.
Proof. each_byte c; intros H; (exact H || reflexivity). Qed.

Lemma upperByte_prefix (c : ascii) :
  Ascii.eqb (upperByte c) "A" || Ascii.eqb (upperByte c) "C" = true ->
  hexChar c = true.
Proof. each_byte c; intros H; (discriminate H || reflexivity). Qed.

Lemma upperHex_digitVal (c : ascii) :
  upperHex c = true ->
  exists d, digitVal c = Some d /\ 0 <= d < 16
            /\ Ascii.eqb c "+" = false /\ Ascii.eqb c "-" = false.
Proof.
  each_byte c; intros H; try discriminate H;
    eexists; (split; [vm_compute; reflexivity |]);
    (split; [vm_compute; split; [discriminate | reflexivity] |]);
    split; reflexivity.
Qed.

(** Five hex digits always parse. *)
Lemma ParseInt16_hex5 (s : gostring) :
  length s = 5%nat -> allIn upperHex s ->
  exists v, ParseInt16 s = inr v /\ 0 <= v < 16 ^ 5.
Proof.
  intros Hlen Hall.
  destruct s as [| a [| b [| c [| d [| e [| f s]]]]]]; try discriminate Hlen.
  apply Forall_cons in Hall as [Ha Hall]. apply Forall_cons in Hall as [Hb Hall].
  apply Forall_cons in Hall as [Hc Hall]. apply Forall_cons in Hall as [Hd Hall].
  apply Forall_cons in Hall as [He _].
  destruct (upperHex_digitVal a Ha) as (va & Hva & Hra & Hplus & Hminus).
  destruct (upperHex_digitVal b Hb) as (vb & Hvb & Hrb & _).
  destruct (upperHex_digitVal c Hc) as (vc & Hvc & Hrc & _).
  destruct (upperHex_digitVal d Hd) as (vd & Hvd & Hrd & _).
  destruct (upperHex_digitVal e He) as (ve & Hve & Hre & _).
  unfold ParseInt16. rewrite Hplus, Hminus. cbn [orb negb andb].
  unfold ParseUint16. cbn [parseUintLoop].
  change (2 ^ 60) with 1152921504606846976. change (2 ^ 63) with 9223372036854775808.
  change (16 ^ 5) with 1048576.
  rewrite Hva.
  assert ((va >=? 16) = false) as -> by lia.
  assert ((0 >=? 1152921504606846976) = false) as -> by lia.
  rewrite Hvb.
  assert ((vb >=? 16) = false) as -> by lia.
  assert ((0 * 16 + va >=? 1152921504606846976) = false) as -> by lia.
  rewrite Hvc.
  assert ((vc >=? 16) = false) as -> by lia.
  assert (((0 * 16 + va) * 16 + vb >=? 1152921504606846976) = false) as -> by lia.
  rewrite Hvd.
  assert ((vd >=? 16) = false) as -> by lia.
  assert ((((0 * 16 + va) * 16 + vb) * 16 + vc >=? 1152921504606846976) = false)
    as -> by lia.
  rewrite Hve.
  assert ((ve >=? 16) = false) as -> by lia.
  assert (((((0 * 16 + va) * 16 + vb) * 16 + vc) * 16 + vd >=? 1152921504606846976)
          = false) as -> by lia.
  assert ((((((0 * 16 + va) * 16 + vb) * 16 + vc) * 16 + vd) * 16 + ve
           >=? 9223372036854775808) = false) as -> by lia.
  eexists. split; [reflexivity |]. lia.
Qed.

Section AnyAddress.

Variable unicodeToUpper : gostring -> gostring.

Lemma ToUpper_ascii (s : gostring) :
  isASCII s = true -> ToUpper unicodeToUpper s = map upperByte s.
Proof. intros H. unfold ToUpper. by rewrite H. Qed.

Lemma isASCII_upper (s : gostring) : isASCII s = true -> isASCII (map upperByte s) = true.
Proof.
  unfold isASCII. rewrite !forallb_forall. intros H c Hc.
  apply in_map_iff in Hc as (c' & <- & Hc'). by apply upperByte_ascii, H.
Qed.

(** [IcaoToTailNumber] on a string of ASCII characters never panics and
    never runs into a parse error or an internal error.  A tail number is
    returned only for a hex code in the sense of [IsHexCode], and it is a
    tail number in the sense of [IsTailNumber].  The other results are: the
    length is not 6; the first position after the first character that
    holds no hex digit; a first character other than [A] and [C] in either
    case; a value outside the supported range. *)
Theorem IcaoToTailNumber_results (icao : gostring) :
  isASCII icao = true ->
  match IcaoToTailNumber unicodeToUpper icao with
  | Ok tail => IsHexCode icao = true /\ IsTailNumber tail = true
  | Err ErrLength => length icao <> 6%nat
  | Err (ErrNonHex position) =>
      2 <= position <= 6
      /\ (exists c, icao !! Z.to_nat (position - 1) = Some c /\ hexChar c = false)
      /\ (forall i c, (1 <= i < Z.to_nat (position - 1))%nat ->
                      icao !! i = Some c -> hexChar c = true)
  | Err ErrPrefix =>
      exists c, head icao = Some c
                /\ Ascii.eqb (upperByte c) "A" || Ascii.eqb (upperByte c) "C" = false
  | Err ErrOutOfRange => IsHexCode icao = true
  | Err (ErrParse _) | Err ErrInternal | Panic => False
  end.
Proof.
  intros Hascii. unfold IcaoToTailNumber. rewrite (ToUpper_ascii icao Hascii).
  change icaoSize with 6.
  destruct (Z.of_nat (length icao) =? 6) eqn:Hlen; cbn [negb];
    [apply Z.eqb_eq in Hlen | apply Z.eqb_neq in Hlen; lia].
  destruct icao as [| c0 [| c1 [| c2 [| c3 [| c4 [| c5 [| c6 icao]]]]]]];
    try (cbn [length] in Hlen; lia).
  clear Hlen Hascii. change (Z.to_nat (6 - 1)) with 5%nat.
  cbn [map checkHex].
  set (u := [upperByte c0; upperByte c1; upperByte c2; upperByte c3; upperByte c4;
             upperByte c5]).
  change (u !! Z.to_nat 1) with (Some (upperByte c1)).
  change (u !! Z.to_nat (1 + 1)) with (Some (upperByte c2)).
  change (u !! Z.to_nat (1 + 1 + 1)) with (Some (upperByte c3)).
  change (u !! Z.to_nat (1 + 1 + 1 + 1)) with (Some (upperByte c4)).
  change (u !! Z.to_nat (1 + 1 + 1 + 1 + 1)) with (Some (upperByte c5)).
  change (1 + 1) with 2. change (2 + 1) with 3. change (3 + 1) with 4.
  change (4 + 1) with 5. change (5 + 1) with 6.
  subst u. cbv beta iota.
  change (between "0" "9" ?c || between "A" "F" ?c) with (upperHex c).
  rewrite !upperHex_upperByte.
  assert (forall i c, (1 <= i < 1)%nat -> [c0; c1; c2; c3; c4; c5] !! i = Some c ->
            hexChar c = true) as Hnone by (intros; lia).
  destruct (hexChar c1) eqn:H1.
  2: { split; [lia |]. split; [by exists c1 | exact Hnone]. }
  destruct (hexChar c2) eqn:H2.
  2: { split; [lia |]. split; [by exists c2 |].
       intros [| [| i]] c Hi; try lia. by intros [= <-]. }
  destruct (hexChar c3) eqn:H3.
  2: { split; [lia |]. split; [by exists c3 |].
       intros [| [| [| i]]] c Hi; try lia; by intros [= <-]. }
  destruct (hexChar c4) eqn:H4.
  2: { split; [lia |]. split; [by exists c4 |].
       intros [| [| [| [| i]]]] c Hi; try lia; by intros [= <-]. }
  destruct (hexChar c5) eqn:H5.
  2: { split; [lia |]. split; [by exists c5 |].
       intros [| [| [| [| [| i]]]]] c Hi; try lia; by intros [= <-]. }
  clear Hnone.
  assert (allIn upperHex [upperByte c1; upperByte c2; upperByte c3; upperByte c4;
                          upperByte c5]) as Hhex
    by (repeat constructor; by rewrite upperHex_upperByte).
  destruct (ParseInt16_hex5 [upperByte c1; upperByte c2; upperByte c3; upperByte c4;
                             upperByte c5] eq_refl Hhex) as (v & Hparse & Hv).
  assert (Ascii.eqb (upperByte c0) "A" || Ascii.eqb (upperByte c0) "C" = true ->
          IsHexCode [c0; c1; c2; c3; c4; c5] = true) as Hcode.
  { intros H0%upperByte_prefix. apply hexCode_intro.
    split; [done | by repeat constructor]. }
  destruct (Ascii.eqb (upperByte c0) "A") eqn:HA.
  - specialize (Hcode eq_refl).
    pose proof (USIcaoToN_spec (upperByte c0) _ v Hparse) as Hus.
    destruct (USIcaoToN _) as [tail | e |].
    + split; [done |]. apply nNumber_IsTailNumber, Hus.
    + destruct Hus as [-> _]. exact Hcode.
    + exact Hus.
  - destruct (Ascii.eqb (upperByte c0) "C") eqn:HC.
    + specialize (Hcode eq_refl).
      rewrite (CAIcaoToN_spec (upperByte c0) _ v Hparse).
      destruct ((1 <=? v) && (v <=? 17576)) eqn:HF.
      * split; [done |].
        apply (IsTailNumber_dash4 "C" ("F"%char :: caLetters (v - 1))); [done | done |].
        constructor; [done |]. apply caLetters_upper. lia.
      * destruct ((17577 <=? v) && (v <=? 35152)) eqn:HG; [| done].
        split; [done |].
        apply (IsTailNumber_dash4 "C" ("G"%char :: caLetters (v - 17577)));
          [done | done |].
        constructor; [done |]. apply caLetters_upper. lia.
    + exists c0. split; [reflexivity |]. by rewrite HA, HC.
Qed.

(** The conversion does not depend on the case of the letters of the
    address. *)
Theorem IcaoToTailNumber_ignores_case (icao : gostring) :
  isASCII icao = true ->
  IcaoToTailNumber unicodeToUpper (ToUpper unicodeToUpper icao)
  = IcaoToTailNumber unicodeToUpper icao.
Proof.
  intros Hascii. unfold IcaoToTailNumber.
  rewrite (ToUpper_ascii icao Hascii).
  rewrite (ToUpper_ascii _ (isASCII_upper icao Hascii)).
  rewrite length_map, map_map.
  by rewrite (map_ext (fun c => upperByte (upperByte c)) upperByte upperByte_idem).
Qed.

End AnyAddress.

Lemma IcaoToTailNumber_results_witness :
  isASCII (str "c0894f") = true /\
  match IcaoToTailNumber (fun s => s) (str "c0894f") with
  | Ok tail => IsHexCode (str "c0894f") = true /\ IsTailNumber tail = true
  | _ => False
  end.
Proof.
  split; [reflexivity |].
  pose proof (IcaoToTailNumber_results (fun s => s) (str "c0894f") eq_refl) as H.
  destruct (IcaoToTailNumber (fun s => s) (str "c0894f")) as [tail | e |] eqn:E;
    [exact H | vm_compute in E; discriminate E | exact H].
Defined.

Lemma IcaoToTailNumber_ignores_case_witness :
  isASCII (str "a1b2c3") = true /\
  IcaoToTailNumber (fun s => s) (ToUpper (fun s => s) (str "a1b2c3"))
  = IcaoToTailNumber (fun s => s) (str "a1b2c3").
Proof.
  split; [reflexivity |].
  apply (IcaoToTailNumber_ignores_case (fun s => s) (str "a1b2c3")). reflexivity.
Defined.

End Tail.

(** ** Package transcription: what a step stores and broadcasts *)

Module PostProcessing.

Import Transcription.

Local Open Scope Z_scope.








Section Step.

Variable RenderPostProcessorTemplate : string -> string + string.
Variable MarshalIndent : list TranscriptionBatch -> option string.
Variable PostProcessBatch : string -> string -> string -> list TranscriptionBatch + string.
Variable now : Z.








(** An answer of the model that fills in no processed content (or only
    repeats context records) makes no progress: nothing is stored or
    broadcast, no row is marked, and the next step finds the same batch. *)
Theorem empty_answers_make_no_progress (p : PostProcessor) (w : World)
    (first : TranscriptionRecord) (rest : list TranscriptionRecord)
    (batchJSON systemPrompt : string) (results : list TranscriptionBatch) :
  pendingRecords p w = first :: rest ->
  MarshalIndent (batchFor (contextRecordsFor p w first.(FrequencyID)) (first :: rest))
    = Some batchJSON ->
  RenderPostProcessorTemplate p.(config).(SystemPromptPath) = inl systemPrompt ->
  PostProcessBatch systemPrompt
    (userInputOf (getFrequencyName p first.(FrequencyID)) batchJSON)
    p.(config).(Model) = inl results ->
  results <> [] ->
  Forall (fun result =>
            result.(tbContentProcessed) = ""%string
            \/ exists contextRecord,
                 contextRecord ∈ contextRecordsFor p w first.(FrequencyID)
                 /\ contextRecord.(ID) = result.(tbID)) results ->
  processNextBatch RenderPostProcessorTemplate MarshalIndent PostProcessBatch now p w
  = (None, w).
Proof.
  intros Hpending Hmarshal Hrender Hmodel Hne Hall.
  unfold processNextBatch. rewrite Hpending, Hmarshal, Hrender.
  unfold processBatch. rewrite Hmodel.
  destruct results as [| result results]; [done |]. f_equal.
  clear Hmodel Hne.
  generalize dependent (result :: results). clear result results.
  intros results Hall. induction Hall as [| result results Hres _ IH]; [done |].
  cbn [foldl]. unfold applyResult at 2.
  destruct Hres as [-> | (contextRecord & Hin & Hid)]; [exact IH |].
  destruct (String.eqb (tbContentProcessed result) ""); [exact IH |].
  assert (existsb (fun contextRecord => ID contextRecord =? tbID result)
                  (contextRecordsFor p w (FrequencyID first)) = true) as ->; [| exact IH].
  apply existsb_exists. exists contextRecord.
  split; [by apply list_elem_of_In | by apply Z.eqb_eq].
Qed.

End Step.

(** A model that returns the batch as it got it. *)
Definition modelEcho : string -> string -> string -> list TranscriptionBatch + string :=
  fun _ _ _ =>
    inl [ {| tbID := 3; tbContent := "roger"; tbContentProcessed := "";
             tbSpeakerType := ""; tbCallsign := ""; tbClearances := [];
             tbTimestamp := 120 |} ].

Lemma empty_answers_make_no_progress_witness :
  processNextBatch renderOk marshalOk modelEcho 0 sampleProcessor sampleWorld
  = (None, sampleWorld).
Proof.
  eapply (empty_answers_make_no_progress renderOk marshalOk modelEcho 0
            sampleProcessor sampleWorld).
  - vm_compute. reflexivity.
  - reflexivity.
  - reflexivity.
  - reflexivity.
  - discriminate.
  - repeat constructor.
Defined.

End PostProcessing.

(** ** Package adsb: the altitude of predicted positions *)

Module PredictedAltitude.

Import Adsb.

Local Open Scope float_scope.

(** Below [-100] is below [0], on floats. *)
Lemma ltb_below_zero (x : float) : (x <? -100) = true -> (x <? 0) = true.
Proof.
  rewrite !FloatAxioms.ltb_spec. unfold SFltb.
  assert (Prim2SF (-100) = S754_finite true 7036874417766400%positive (-46)%Z) as ->
    by (vm_compute; reflexivity).
  assert (Prim2SF 0 = S754_zero false) as -> by (vm_compute; reflexivity).
  destruct (Prim2SF x) as [s | s | | s m e]; unfold SFcompare.
  - discriminate.
  - destruct s; [reflexivity | discriminate].
  - discriminate.
  - destruct s; [reflexivity | discriminate].
Qed.

Section Altitude.

Variables (Sin Cos : float -> float) (Atan2 Pow : float -> float -> float).
Variables (configInstance : option Config) (now : Z).
Variables (lat lon altBaro trueHeading magHeading speedKnots verticalRateFtMin : float).

Local Abbreviation approaching :=
  (approachingStation Sin Cos Atan2 configInstance lat lon trueHeading).

Local Abbreviation altitudeAfter :=
  (newAltitude Sin Cos Atan2 configInstance lat lon altBaro trueHeading
     verticalRateFtMin).

Lemma newAltitude_floor (minutesAhead : float) :
  let x := altBaro + verticalRateFtMin * minutesAhead in
  altitudeAfter minutesAhead = (if approaching && (x <? -100) then -100 else x)
  /\ (approaching = true -> (altitudeAfter minutesAhead <? -100) = false).
Proof.
  cbn zeta. unfold newAltitude.
  set (x := altBaro + verticalRateFtMin * minutesAhead).
  destruct approaching; cbn [andb]; [| by split].
  destruct (x <? -100) eqn:Hlow.
  - rewrite (ltb_below_zero x Hlow). split; [reflexivity |]. intros _.
    vm_compute. reflexivity.
  - destruct (x <? 0); by split.
Qed.

(** The altitude of each of the five predicted positions is the altitude
    extrapolated with the vertical rate, except that for an aircraft
    heading towards the station an extrapolation below -100 ft is replaced
    by -100 ft: such an aircraft is never predicted below -100 ft, while
    for one heading away the extrapolation is kept whatever it is. *)
Theorem predicted_altitude_floor :
  let ps := PredictFuturePositions Sin Cos Atan2 Pow configInstance now
              lat lon altBaro trueHeading magHeading speedKnots verticalRateFtMin in
  forall i : Z, (0 <= i < 5)%Z ->
    exists p : Position,
      ps !! Z.to_nat i = Some p
      /\ (let x := altBaro + verticalRateFtMin * float64_of_int (i + 1) in
          p.(Altitude) = if approaching && (x <? -100) then -100 else x)
      /\ (approaching = true -> (p.(Altitude) <? -100) = false).
Proof.
  intros ps i Hi. eexists. split; [by apply predict_lookup |].
  cbn [prediction Altitude]. apply newAltitude_floor.
Qed.

End Altitude.

Lemma predicted_altitude_floor_witness :
  exists p : Position,
    PredictFuturePositions (fun x => x) (fun x => x) (fun x _ => x) (fun x _ => x)
      None 0 43.5 (-79.5) 300 0 350 120 (-400) !! Z.to_nat 2 = Some p
    /\ (let x := 300 + -400 * float64_of_int (2 + 1) in
        p.(Altitude)
        = if approachingStation (fun x => x) (fun x => x) (fun x _ => x) None
               43.5 (-79.5) 0 && (x <? -100) then -100 else x)
    /\ (approachingStation (fun x => x) (fun x => x) (fun x _ => x) None
          43.5 (-79.5) 0 = true -> (p.(Altitude) <? -100) = false).
Proof.
  apply (predicted_altitude_floor (fun x => x) (fun x => x) (fun x _ => x)
           (fun x _ => x) None 0 43.5 (-79.5) 300 0 350 120 (-400) 2).
  lia.
Defined.

End PredictedAltitude.
